(** * best_price: cheapest purchase plan over a vendor catalog

    A shallow embedding of the three solvers of the repository

    - [bestPrice.ts]            brute-force backtracking,
    - [bestPriceDP.ts]          memoized search on (item index, shops bitmask),
    - [bestPriceDPOptimized.ts] branch and bound primed with a greedy bound,

    together with the catalog index they all build from [shops.json].

    Prices are modelled as integers: the generator emits integer strings,
    and the sums a solver forms of such prices are exact in a JavaScript
    double as long as they stay below 2^53.  What is proved of the costs
    of every request is stated under [safePrices], which says that they do;
    a price that [Number] turns into [NaN], and sums beyond 2^53, are
    outside these statements.  The value [Infinity] the solvers use as "no cost yet" is a
    constructor of [number].  Shop bitmasks are JavaScript 32-bit signed
    integers: the operators [<<], [|], [&] and [>>] are written out on [Z]
    with their wrap-around.  A [while] loop runs on [gas]; recursion runs
    on a depth bound that the callers set to the number of requested items
    plus one, the depth the files recurse to, and the limit an engine puts
    on the depth of its call stack is not modelled. *)

From Stdlib Require Import ZArith Lia Ascii String.
From stdpp Require Import base option list gmap strings pretty.

Local Open Scope Z_scope.

(** ** JavaScript numbers, as far as the solvers use them

    A cost is an integer or [Infinity].  The files hold it in a double; the
    two agree on the prices of [safePrices] below, and [NaN] is no cost of
    the model. *)

Inductive number : Type :=
| Fin (z : Z)
| Infinity.

(** [a < b] *)
Definition num_ltb (a b : number) : bool :=
  match a, b with
  | Fin x, Fin y => x <? y
  | Fin _, Infinity => true
  | Infinity, _ => false
  end.

(** [a === b] *)
Definition num_eqb (a b : number) : bool :=
  match a, b with
  | Fin x, Fin y => x =? y
  | Infinity, Infinity => true
  | _, _ => false
  end.

(** [a >= b] *)
Definition num_geb (a b : number) : bool :=
  match a, b with
  | Fin x, Fin y => y <=? x
  | Infinity, _ => true
  | Fin _, Infinity => false
  end.

(** [Math.min(a, b)] *)
Definition Math_min (a b : number) : number :=
  if num_ltb b a then b else a.

(** ** 32-bit integer operators *)

(** [ToInt32]: reduce modulo 2^32 into the signed range. *)
Definition toInt32 (z : Z) : Z := (z + 2 ^ 31) mod 2 ^ 32 - 2 ^ 31.

(** [a << count]: the shift count is taken modulo 32 and the result wraps. *)
Definition shl (a count : Z) : Z :=
  toInt32 (Z.shiftl (toInt32 a) (count mod 32)).

(** [a | b] *)
Definition bor (a b : Z) : Z := Z.lor (toInt32 a) (toInt32 b).

(** [a & b] *)
Definition band (a b : Z) : Z := Z.land (toInt32 a) (toInt32 b).

(** [a >> count]: the sign-propagating shift. *)
Definition sar (a count : Z) : Z := Z.shiftr (toInt32 a) (count mod 32).

(** [popcount], the same function in [bestPriceDP.ts] and
    [bestPriceDPOptimized.ts]:
<<
  let count = 0;
  while (n) { count += n & 1; n >>= 1; }
  return count;
>>
    [None] is "the loop is still running when the gas is used up". *)
Fixpoint popcount_loop (gas : nat) (n count : Z) : option Z :=
  match gas with
  | O => None
  | S gas' =>
      if n =? 0 then Some count
      else popcount_loop gas' (sar n 1) (count + band n 1)
  end.

Definition popcount (gas : nat) (n : Z) : option Z := popcount_loop gas n 0.

(** ** JavaScript [Set<string>]: insertion-ordered, without duplicates *)

Definition JSet : Type := list string.

Definition set_add (x : string) (s : JSet) : JSet :=
  if decide (x ∈ s) then s else s ++ [x].

Definition set_delete (x : string) (s : JSet) : JSet :=
  filter (λ y, y ≠ x) s.

Definition set_size (s : JSet) : Z := Z.of_nat (length s).

(** [new Set(xs)] *)
Definition set_of_list (xs : list string) : JSet :=
  foldl (λ s x, set_add x s) [] xs.

(** ** Completion of code that can throw *)

Inductive Completion (A : Type) : Type :=
| Normal (a : A)
| TypeError.
Arguments Normal {A} a.
Arguments TypeError {A}.

(** ** The catalog index (section 2 of each solver)

    The loop is the one of [bestPriceDP.ts] and [bestPriceDPOptimized.ts];
    [bestPrice.ts] builds the same [itemToShops] without the field
    [shopIndex] and without [shopList] and [shopNameToIndex], which it
    never reads.

    [ShopsData] is what [Object.entries(shopsData)] yields: the shops in
    order, each with its array of item objects; an item object is given by
    its own [Object.entries].  The types of the raw price [Raw] and of its
    conversion [P] are left open, and so is the conversion [Number] itself:
    the files apply it to the price and store what it returns. *)

Section CatalogIndex.
Context {Raw P : Type} (Number : Raw → P).

Record PriceOption : Type := mkOption {
  shop : string;
  price : P;
  shopIndex : nat;
}.

Definition ItemObj : Type := list (string * Raw).
Definition ShopsData : Type := list (string * list ItemObj).

Record Index : Type := mkIndex {
  itemToShops : gmap string (list PriceOption);
  shopList : list string;
  shopNameToIndex : gmap string nat;
}.

Definition emptyIndex : Index := mkIndex ∅ [] ∅.

(** [if (!shopNameToIndex.has(shopName)) { set(shopName, shopList.length);
    shopList.push(shopName) }] *)
Definition registerShop (shopName : string) (ix : Index) : Index :=
  match shopNameToIndex ix !! shopName with
  | Some _ => ix
  | None =>
      mkIndex (itemToShops ix)
              (shopList ix ++ [shopName])
              (<[shopName := length (shopList ix)]> (shopNameToIndex ix))
  end.

(** One inventory element.  [const [id, priceStr] = Object.entries(itemObj)[0]]
    throws on an object without entries; [shopNameToIndex.get(shopName)!] is
    defined because the shop was registered just before (the default is
    never used, see [registerShop_lookup]). *)
Definition addItem (shopName : string) (ix : Index) (itemObj : ItemObj)
  : Completion Index :=
  match itemObj with
  | [] => TypeError
  | (id, priceStr) :: _ =>
      let price := Number priceStr in
      let options := default [] (itemToShops ix !! id) in
      let option :=
        mkOption shopName price (default 0%nat (shopNameToIndex ix !! shopName)) in
      Normal (mkIndex (<[id := options ++ [option]]> (itemToShops ix))
                      (shopList ix)
                      (shopNameToIndex ix))
  end.

Fixpoint addItems (shopName : string) (ix : Index) (items : list ItemObj)
  : Completion Index :=
  match items with
  | [] => Normal ix
  | itemObj :: rest =>
      match addItem shopName ix itemObj with
      | Normal ix' => addItems shopName ix' rest
      | TypeError => TypeError
      end
  end.

Fixpoint addShops (ix : Index) (entries : ShopsData) : Completion Index :=
  match entries with
  | [] => Normal ix
  | (shopName, items) :: rest =>
      match addItems shopName (registerShop shopName ix) items with
      | Normal ix' => addShops ix' rest
      | TypeError => TypeError
      end
  end.

Definition buildIndex (shopsData : ShopsData) : Completion Index :=
  addShops emptyIndex shopsData.
End CatalogIndex.

Arguments PriceOption P : clear implicits.
Arguments ItemObj Raw : clear implicits.
Arguments ShopsData Raw : clear implicits.
Arguments Index P : clear implicits.

(** ** [Number(priceStr)]

    The conversion on the strings the model covers: the empty string is 0, an
    optionally signed run of decimal digits is that integer.  On every other
    string the model answers [NaN]; that is the answer of JavaScript when the
    string is no numeric literal at all, and not when it is a fraction, has
    an exponent, a radix prefix or surrounding blanks: those are not
    modelled; nor is the rounding of a run of digits that spells an integer
    beyond 2^53, which the model keeps as it is spelled.  What holds for
    every conversion is stated over an arbitrary function instead, and
    [Number] is only evaluated on strings it covers. *)

Inductive jsnum : Type :=
| JsInt (z : Z)
| NaN.

Definition digit (c : ascii) : option Z :=
  let n := Z.of_nat (nat_of_ascii c) in
  if (48 <=? n) && (n <=? 57) then Some (n - 48) else None.

Fixpoint digits (s : string) (acc : Z) : option Z :=
  match s with
  | EmptyString => Some acc
  | String c rest =>
      match digit c with
      | Some d => digits rest (10 * acc + d)
      | None => None
      end
  end.

Definition unsignedNumber (s : string) : jsnum :=
  match s with
  | EmptyString => NaN
  | _ => match digits s 0 with Some z => JsInt z | None => NaN end
  end.

Definition Number (s : string) : jsnum :=
  match s with
  | EmptyString => JsInt 0
  | String "-" rest =>
      match unsignedNumber rest with JsInt z => JsInt (- z) | NaN => NaN end
  | String "+" rest => unsignedNumber rest
  | _ => unsignedNumber s
  end.

(** ** Selections and results *)

Record Selection : Type := mkSelection {
  itemId : string;
  selShop : string;
  selPrice : Z;
}.

(** An element of [Result.selectedItems]: [{ id, shop, price }]. *)
Record SelectedItem : Type := mkItem {
  item_id : string;
  itemShop : string;
  itemPrice : Z;
}.

Record Result : Type := mkResult {
  selectedItems : list SelectedItem;
  totalCost : number;
  shopCount : number;
  shops : list string;
}.

(** What a run of a solver ends in: the printed plan, the
    "Could not find a solution" exit, or an uncaught exception. *)
Inductive Outcome : Type :=
| Plan (r : Result)
| NoSolution
| Uncaught.

(** [selection.map((s) => ({ id: s.itemId, shop: s.shop, price: s.price }))] *)
Definition toSelectedItems (sel : list Selection) : list SelectedItem :=
  (λ s, mkItem (itemId s) (selShop s) (selPrice s)) <$> sel.

(** ** bestPrice.ts: brute-force enumeration

    [currentCost + opt.price] is the sum of integers, which is what the file
    computes on the prices of [safePrices].  [depth] bounds the recursion;
    [solve] sets it to the depth the file recurses to, and a call stack
    that overflows before is not modelled. *)

Module BestPrice.

(** The three globals [bestCost], [bestShopCount], [bestSelection]. *)
Record Best : Type := mkBest {
  bestCost : number;
  bestShopCount : number;
  bestSelection : list Selection;
}.

(** The objects every call of [backtrack] shares: the array
    [currentSelection] and the set [shopsUsedSet], both passed by
    reference and mutated in place, and the globals. *)
Record State : Type := mkState {
  currentSelection : list Selection;
  shopsUsedSet : JSet;
  best : Best;
}.

Section Solve.
Variable ix : Index Z.
Variable selectedItemIds : list string.

(** [if (index === selectedItemIds.length) { ... return; }] *)
Definition terminal (currentCost : Z) (st : State) : State :=
  let shopCount := set_size (shopsUsedSet st) in
  if num_ltb (Fin currentCost) (bestCost (best st))
     || (num_eqb (Fin currentCost) (bestCost (best st))
         && num_ltb (Fin shopCount) (bestShopCount (best st)))
  then mkState (currentSelection st) (shopsUsedSet st)
               (mkBest (Fin currentCost) (Fin shopCount) (currentSelection st))
  else st.

(** [for (const opt of options) { push; add; backtrack(...); pop; delete }] *)
Definition forOptions (rec : Z → State → option State)
    (itemId : string) (currentCost : Z)
  : list (PriceOption Z) → State → option State :=
  fix loop options st :=
    match options with
    | [] => Some st
    | opt :: rest =>
        let st1 :=
          mkState (currentSelection st ++ [mkSelection itemId (shop opt) (price opt)])
                  (set_add (shop opt) (shopsUsedSet st))
                  (best st) in
        match rec (currentCost + price opt) st1 with
        | None => None
        | Some st2 =>
            loop rest (mkState (removelast (currentSelection st2))
                               (set_delete (shop opt) (shopsUsedSet st2))
                               (best st2))
        end
    end.

Fixpoint backtrack (depth : nat) (index : nat) (currentCost : Z) (st : State)
  : option State :=
  match depth with
  | O => None
  | S depth' =>
      if decide (index = length selectedItemIds) then
        Some (terminal currentCost st)
      else
        match selectedItemIds !! index with
        | None => Some st
        | Some itemId =>
            match itemToShops ix !! itemId with
            | None => Some st
            | Some options =>
                forOptions (backtrack depth' (S index)) itemId currentCost options st
            end
        end
  end.

(** [backtrack(0, [], 0, new Set())], the check on [bestSelection.length]
    and the result. *)
Definition solve : option Outcome :=
  match backtrack (S (length selectedItemIds)) 0 0
                  (mkState [] [] (mkBest Infinity Infinity [])) with
  | None => None
  | Some st =>
      let b := best st in
      if decide (length (bestSelection b) = 0%nat) then Some NoSolution
      else
        Some (Plan (mkResult (toSelectedItems (bestSelection b))
                             (bestCost b)
                             (bestShopCount b)
                             (set_of_list (selShop <$> bestSelection b))))
  end.
End Solve.
End BestPrice.

(** ** bestPriceDP.ts: memoized search on (itemIndex, shopsBitmask)

    [option.price + futureState.cost] is the sum of integers, which is what
    the file computes on the prices of [safePrices]; [depth] is as in
    [BestPrice]. *)

Module BestPriceDP.

Record DPState : Type := mkDPState {
  cost : number;
  selection : list Selection;
  shops : Z;
}.

Record BestOption : Type := mkBestOption {
  bo_itemId : string;
  bo_shop : string;
  bo_price : Z;
  futureState : DPState;
  newShopsBitmask : Z;
}.

(** The loop variables [bestOption], [bestCost], [bestShopCount]. *)
Record Acc : Type := mkAcc {
  bestOption : option BestOption;
  bestCost : number;
  bestShopCount : number;
}.

(** The key is the string [itemIndex:shopsBitmask]; two keys are equal
    exactly when both integers are, so the pair stands for it. *)
Definition stateKey (itemIndex : nat) (shopsBitmask : Z) : nat * Z :=
  (itemIndex, shopsBitmask).

Section Solve.
Variable gas : nat.
Variable ix : Index Z.
Variable selectedItemIds : list string.

(** [for (const option of options) { ... }] *)
Definition forOptions
    (rec : Z → gmap (nat * Z) DPState → option (DPState * gmap (nat * Z) DPState))
    (itemId : string) (shopsBitmask : Z)
  : list (PriceOption Z) → Acc → gmap (nat * Z) DPState
    → option (Acc * gmap (nat * Z) DPState) :=
  fix loop options acc memo :=
    match options with
    | [] => Some (acc, memo)
    | opt :: rest =>
        let newShopsBitmask := bor shopsBitmask (shl 1 (Z.of_nat (shopIndex opt))) in
        match rec newShopsBitmask memo with
        | None => None
        | Some (futureState, memo') =>
            match cost futureState with
            | Infinity => loop rest acc memo'
            | Fin futureCost =>
                let totalCost := price opt + futureCost in
                match popcount gas newShopsBitmask with
                | None => None
                | Some shopCount =>
                    if num_ltb (Fin totalCost) (bestCost acc)
                       || (num_eqb (Fin totalCost) (bestCost acc)
                           && num_ltb (Fin shopCount) (bestShopCount acc))
                    then
                      loop rest
                           (mkAcc (Some (mkBestOption itemId (shop opt) (price opt)
                                                      futureState newShopsBitmask))
                                  (Fin totalCost) (Fin shopCount))
                           memo'
                    else loop rest acc memo'
                end
            end
        end
    end.

Fixpoint dp (depth : nat) (itemIndex : nat) (shopsBitmask : Z)
    (memo : gmap (nat * Z) DPState)
  : option (DPState * gmap (nat * Z) DPState) :=
  match depth with
  | O => None
  | S depth' =>
      if decide (itemIndex = length selectedItemIds) then
        Some (mkDPState (Fin 0) [] shopsBitmask, memo)
      else
        let key := stateKey itemIndex shopsBitmask in
        match memo !! key with
        | Some st => Some (st, memo)
        | None =>
            let none := mkDPState Infinity [] shopsBitmask in
            match selectedItemIds !! itemIndex with
            | None => Some (none, <[key := none]> memo)
            | Some itemId =>
                match itemToShops ix !! itemId with
                | None | Some [] => Some (none, <[key := none]> memo)
                | Some options =>
                    match forOptions (dp depth' (S itemIndex)) itemId shopsBitmask
                                     options (mkAcc None Infinity Infinity) memo with
                    | None => None
                    | Some (acc, memo') =>
                        match bestOption acc with
                        | None => Some (none, <[key := none]> memo')
                        | Some bo =>
                            let result :=
                              mkDPState (bestCost acc)
                                        (mkSelection (bo_itemId bo) (bo_shop bo) (bo_price bo)
                                           :: selection (futureState bo))
                                        (newShopsBitmask bo) in
                            Some (result, <[key := result]> memo')
                        end
                    end
                end
            end
        end
  end.

(** [for (let i = 0; i < shopList.length; i++)
      if (dpResult.shops & (1 << i)) shopsUsed.push(shopList[i])] *)
Fixpoint shopsUsedFrom (i : nat) (names : list string) (mask : Z) : list string :=
  match names with
  | [] => []
  | name :: rest =>
      if band mask (shl 1 (Z.of_nat i)) =? 0 then shopsUsedFrom (S i) rest mask
      else name :: shopsUsedFrom (S i) rest mask
  end.

(** [dp(0, 0)], the check on [dpResult.cost] and the result. *)
Definition solve : option Outcome :=
  match dp (S (length selectedItemIds)) 0 0 ∅ with
  | None => None
  | Some (dpResult, _) =>
      match cost dpResult with
      | Infinity => Some NoSolution
      | Fin _ =>
          match popcount gas (shops dpResult) with
          | None => None
          | Some shopCount =>
              Some (Plan (mkResult (toSelectedItems (selection dpResult))
                                   (cost dpResult)
                                   (Fin shopCount)
                                   (shopsUsedFrom 0 (shopList ix) (shops dpResult))))
          end
      end
  end.
End Solve.
End BestPriceDP.

(** ** bestPriceDPOptimized.ts: branch and bound with pruning

    The sums and comparisons of the two bounds, of [dp] and of the replay
    are those of integers, which is what the file computes on the prices of
    [safePrices]: there [Math.min] and [<] never see [NaN], and no sum is
    rounded.  [depth] is as in [BestPrice]. *)

Module BestPriceDPOptimized.

(** [dpState]; the memo key is as in [BestPriceDP.stateKey]. *)
Record DP : Type := mkDP {
  memo : gmap (nat * Z) number;
  bestCost : number;
  bestShopCount : number;
  statesExplored : nat;
  statesPruned : nat;
  memoHits : nat;
}.

Definition stateKey (itemIndex : nat) (shopsBitmask : Z) : nat * Z :=
  (itemIndex, shopsBitmask).

(** [dpState.statesPruned++] *)
Definition pruned (st : DP) : DP :=
  mkDP (memo st) (bestCost st) (bestShopCount st)
       (statesExplored st) (S (statesPruned st)) (memoHits st).

(** [dpState.memoHits++] *)
Definition hit (st : DP) : DP :=
  mkDP (memo st) (bestCost st) (bestShopCount st)
       (statesExplored st) (statesPruned st) (S (memoHits st)).

(** [dpState.statesExplored++] *)
Definition explored (st : DP) : DP :=
  mkDP (memo st) (bestCost st) (bestShopCount st)
       (S (statesExplored st)) (statesPruned st) (memoHits st).

(** [dpState.memo.set(key, value)] *)
Definition memoSet (key : nat * Z) (value : number) (st : DP) : DP :=
  mkDP (<[key := value]> (memo st)) (bestCost st) (bestShopCount st)
       (statesExplored st) (statesPruned st) (memoHits st).

(** [dpState.bestCost = currentCost; dpState.bestShopCount = shopCount] *)
Definition improve (currentCost shopCount : Z) (st : DP) : DP :=
  mkDP (memo st) (Fin currentCost) (Fin shopCount)
       (statesExplored st) (statesPruned st) (memoHits st).

(** What [getGreedyUpperBound] returns. *)
Record Bound : Type := mkBound {
  cost : Z;
  shopCount : Z;
}.

(** [[...options].sort((a, b) => a.price - b.price)]: the sort is stable,
    options of equal price keep their order. *)
Fixpoint insertByPrice (x : PriceOption Z) (sorted : list (PriceOption Z))
  : list (PriceOption Z) :=
  match sorted with
  | [] => [x]
  | y :: rest =>
      if price x <=? price y then x :: y :: rest
      else y :: insertByPrice x rest
  end.

Definition sortByPrice (options : list (PriceOption Z)) : list (PriceOption Z) :=
  foldr insertByPrice [] options.

(** [let cheapest = options[0];
     for (const opt of options) if (opt.price < cheapest.price) cheapest = opt;] *)
Definition cheapestOption (first : PriceOption Z) (options : list (PriceOption Z))
  : PriceOption Z :=
  foldl (λ cheapest opt, if price opt <? price cheapest then opt else cheapest)
        first options.

(** [Math.min(...options.map((o) => o.price))] on a non-empty array. *)
Definition minPrice (first : PriceOption Z) (rest : list (PriceOption Z)) : Z :=
  foldl Z.min (price first) (price <$> rest).

(** The three pruning rules of [dp], for the variants of the search in
    which some of them are switched off. *)
Record Rules : Type := mkRules {
  costPrune : bool;
  lowerBoundPrune : bool;
  optionPrune : bool;
}.

Definition allRules : Rules := mkRules true true true.
Definition noRules : Rules := mkRules false false false.

(** [testCost + remainingLower <= dpState.bestCost + 0.01], compared in
    hundredths. *)
Definition withinTolerance (total : Z) (best : number) : bool :=
  match best with
  | Fin b => 100 * total <=? 100 * b + 1
  | Infinity => true
  end.

Section Solve.
Variable gas : nat.
Variable ix : Index Z.
Variable selectedItemIds : list string.

Definition getGreedyUpperBound (itemIds : list string) : Bound :=
  let '(totalCost, shopsUsed) :=
    foldl (λ '(totalCost, shopsUsed) itemId,
             match itemToShops ix !! itemId with
             | None | Some [] => (totalCost, shopsUsed)
             | Some ((first :: _) as options) =>
                 let cheapest := cheapestOption first options in
                 (totalCost + price cheapest, set_add (shop cheapest) shopsUsed)
             end)
          (0, []) itemIds in
  mkBound totalCost (set_size shopsUsed).

Definition getLowerBound (itemIds : list string) (startIndex : nat) : Z :=
  foldl (λ minCost itemId,
           match itemToShops ix !! itemId with
           | None | Some [] => minCost
           | Some (first :: rest) => minCost + minPrice first rest
           end)
        0 (drop startIndex itemIds).

(** [for (const option of sortedOptions) { ... }] *)
Definition forOptions (rec : Z → Z → DP → option (number * DP))
    (shopsBitmask currentCost : Z)
  : list (PriceOption Z) → number → DP → option (number * DP) :=
  fix loop sortedOptions bestFutureCost st :=
    match sortedOptions with
    | [] => Some (bestFutureCost, st)
    | opt :: rest =>
        let optionCost := currentCost + price opt in
        if num_geb (Fin optionCost) (bestCost st) then
          loop rest bestFutureCost (pruned st)
        else
          let newShopsBitmask := bor shopsBitmask (shl 1 (Z.of_nat (shopIndex opt))) in
          match rec newShopsBitmask optionCost st with
          | None => None
          | Some (Infinity, st') => loop rest bestFutureCost st'
          | Some (futureCost, st') =>
              loop rest (Math_min bestFutureCost futureCost) st'
          end
    end.

Fixpoint dp (depth : nat) (itemIndex : nat) (shopsBitmask currentCost : Z) (st : DP)
  : option (number * DP) :=
  match depth with
  | O => None
  | S depth' =>
      if num_geb (Fin currentCost) (bestCost st) then Some (Infinity, pruned st)
      else if decide (itemIndex = length selectedItemIds) then
        match popcount gas shopsBitmask with
        | None => None
        | Some shopCount =>
            if num_ltb (Fin currentCost) (bestCost st)
               || (num_eqb (Fin currentCost) (bestCost st)
                   && num_ltb (Fin shopCount) (bestShopCount st))
            then Some (Fin 0, improve currentCost shopCount st)
            else Some (Fin 0, st)
        end
      else
        let key := stateKey itemIndex shopsBitmask in
        match memo st !! key with
        | Some value => Some (value, hit st)
        | None =>
            let st := explored st in
            match selectedItemIds !! itemIndex ≫= (itemToShops ix !!.) with
            | None | Some [] => Some (Infinity, memoSet key Infinity st)
            | Some options =>
                let lowerBound := getLowerBound selectedItemIds itemIndex in
                if num_geb (Fin (currentCost + lowerBound)) (bestCost st) then
                  Some (Infinity, memoSet key Infinity (pruned st))
                else
                  match forOptions (dp depth' (S itemIndex)) shopsBitmask currentCost
                                   (sortByPrice options) Infinity st with
                  | None => None
                  | Some (bestFutureCost, st') =>
                      Some (bestFutureCost, memoSet key bestFutureCost st')
                  end
            end
        end
  end.

(** The search with only the rules of [rules] in force: a rule that is
    off never fires, everything else is [dp]. *)
Definition forOptionsAblated (rules : Rules) (rec : Z → Z → DP → option (number * DP))
    (shopsBitmask currentCost : Z)
  : list (PriceOption Z) → number → DP → option (number * DP) :=
  fix loop sortedOptions bestFutureCost st :=
    match sortedOptions with
    | [] => Some (bestFutureCost, st)
    | opt :: rest =>
        let optionCost := currentCost + price opt in
        if optionPrune rules && num_geb (Fin optionCost) (bestCost st) then
          loop rest bestFutureCost (pruned st)
        else
          let newShopsBitmask := bor shopsBitmask (shl 1 (Z.of_nat (shopIndex opt))) in
          match rec newShopsBitmask optionCost st with
          | None => None
          | Some (Infinity, st') => loop rest bestFutureCost st'
          | Some (futureCost, st') =>
              loop rest (Math_min bestFutureCost futureCost) st'
          end
    end.

Fixpoint dpAblated (rules : Rules) (depth : nat) (itemIndex : nat)
    (shopsBitmask currentCost : Z) (st : DP) : option (number * DP) :=
  match depth with
  | O => None
  | S depth' =>
      if costPrune rules && num_geb (Fin currentCost) (bestCost st) then
        Some (Infinity, pruned st)
      else if decide (itemIndex = length selectedItemIds) then
        match popcount gas shopsBitmask with
        | None => None
        | Some shopCount =>
            if num_ltb (Fin currentCost) (bestCost st)
               || (num_eqb (Fin currentCost) (bestCost st)
                   && num_ltb (Fin shopCount) (bestShopCount st))
            then Some (Fin 0, improve currentCost shopCount st)
            else Some (Fin 0, st)
        end
      else
        let key := stateKey itemIndex shopsBitmask in
        match memo st !! key with
        | Some value => Some (value, hit st)
        | None =>
            let st := explored st in
            match selectedItemIds !! itemIndex ≫= (itemToShops ix !!.) with
            | None | Some [] => Some (Infinity, memoSet key Infinity st)
            | Some options =>
                let lowerBound := getLowerBound selectedItemIds itemIndex in
                if lowerBoundPrune rules
                   && num_geb (Fin (currentCost + lowerBound)) (bestCost st) then
                  Some (Infinity, memoSet key Infinity (pruned st))
                else
                  match forOptionsAblated rules (dpAblated rules depth' (S itemIndex))
                                          shopsBitmask currentCost
                                          (sortByPrice options) Infinity st with
                  | None => None
                  | Some (bestFutureCost, st') =>
                      Some (bestFutureCost, memoSet key bestFutureCost st')
                  end
            end
        end
  end.

(** The two mutable variables of the reconstruction:
    [optimalSelection] and [currentMask]. *)
Record Replay : Type := mkReplay {
  optimalSelection : list Selection;
  currentMask : Z;
}.

(** [reconstruct(index, mask, cost)]: the first option, in price order,
    that passes the test is pushed and the replay moves on; spreading
    [options] throws when the item has no entry in [itemToShops]. *)
Fixpoint reconstruct (depth : nat) (best : number) (index : nat) (mask cost : Z)
    (r : Replay) : option (Completion Replay) :=
  match depth with
  | O => None
  | S depth' =>
      if decide (index = length selectedItemIds) then Some (Normal r)
      else
        match selectedItemIds !! index with
        | None => Some TypeError
        | Some itemId =>
            match itemToShops ix !! itemId with
            | None => Some TypeError
            | Some options =>
                let remainingLower := getLowerBound selectedItemIds (S index) in
                match find (λ opt, withinTolerance (cost + price opt + remainingLower) best)
                           (sortByPrice options) with
                | None => Some (Normal r)
                | Some opt =>
                    let newMask := bor mask (shl 1 (Z.of_nat (shopIndex opt))) in
                    reconstruct depth' best (S index) newMask (cost + price opt)
                      (mkReplay (optimalSelection r
                                   ++ [mkSelection itemId (shop opt) (price opt)])
                                newMask)
                end
            end
        end
  end.

(** Sections 7 and 8 of the file, from the state the search ended in:
    the check on [bestCost], the replay and the result.  Left out are
    values that are computed and never read (the [popcount] of the shop
    count, the array [shopsUsed]) and the [stats] field of the result. *)
Definition finish (st : DP) : option Outcome :=
  match bestCost st with
  | Infinity => Some NoSolution
  | Fin _ =>
      match reconstruct (S (length selectedItemIds)) (bestCost st) 0 0 0
                        (mkReplay [] 0) with
      | None => None
      | Some TypeError => Some Uncaught
      | Some (Normal r) =>
          let chosen := optimalSelection r in
          let shopSet := set_of_list (selShop <$> chosen) in
          Some (Plan (mkResult (toSelectedItems chosen)
                               (bestCost st)
                               (Fin (if decide (0 < length chosen)%nat
                                     then set_size shopSet else 0))
                               shopSet))
      end
  end.

(** The state the search starts in: [bestCost] and [bestShopCount]
    primed from the greedy bound. *)
Definition primed : DP :=
  let greedyBound := getGreedyUpperBound selectedItemIds in
  mkDP ∅ (Fin (cost greedyBound)) (Fin (shopCount greedyBound)) 0 0 0.

Definition search : option (number * DP) :=
  dp (S (length selectedItemIds)) 0 0 0 primed.

Definition solve : option Outcome :=
  match search with
  | None => None
  | Some (_, st) => finish st
  end.

Definition solveAblated (rules : Rules) : option Outcome :=
  match dpAblated rules (S (length selectedItemIds)) 0 0 0 primed with
  | None => None
  | Some (_, st) => finish st
  end.
End Solve.
End BestPriceDPOptimized.

(** ** The oracle of the specification

    Exhaustive enumeration of every combination of vendor choices, written
    from the specification's words and not from any of the solvers. *)

Section Oracle.
Variable ix : Index Z.

(** One option per requested item, in every possible way. *)
Fixpoint allCombinations (ids : list string) : list (list (PriceOption Z)) :=
  match ids with
  | [] => [[]]
  | id :: rest =>
      opt ← default [] (itemToShops ix !! id);
      (λ c, opt :: c) <$> allCombinations rest
  end.

Definition combinationCost (c : list (PriceOption Z)) : Z :=
  foldr Z.add 0 (price <$> c).

(** The number of distinct vendors a combination buys from. *)
Definition vendorCount (c : list (PriceOption Z)) : Z :=
  Z.of_nat (length (remove_dups (shop <$> c))).

(** The requested item has at least one price option. *)
Definition hasOption (id : string) : Prop :=
  ∃ first rest, itemToShops ix !! id = Some (first :: rest).

(** [t] is the minimum cost over all combinations. *)
Definition minimumCost (ids : list string) (t : Z) : Prop :=
  (∃ c, c ∈ allCombinations ids ∧ combinationCost c = t)
  ∧ ∀ c, c ∈ allCombinations ids → t ≤ combinationCost c.

(** [n] is the minimum vendor count among the combinations of cost [t]. *)
Definition minimumVendors (ids : list string) (t n : Z) : Prop :=
  (∃ c, c ∈ allCombinations ids ∧ combinationCost c = t ∧ vendorCount c = n)
  ∧ ∀ c, c ∈ allCombinations ids → combinationCost c = t → n ≤ vendorCount c.
End Oracle.

(** ** Properties of an index *)

Section IndexProperties.
Context {P : Type}.

(** Every option carries a vendor index below [n]. *)
Definition vendorsBelow (n : nat) (ix : Index P) : Prop :=
  ∀ id opts o, itemToShops ix !! id = Some opts → o ∈ opts → (shopIndex o < n)%nat.

(** The indices handed out are positions of [shopList], and an item that
    has an entry has an option. *)
Definition wfIndex (ix : Index P) : Prop :=
  (∀ name i, shopNameToIndex ix !! name = Some i → shopList ix !! i = Some name)
  ∧ (∀ i name, shopList ix !! i = Some name → shopNameToIndex ix !! name = Some i)
  ∧ vendorsBelow (length (shopList ix)) ix
  ∧ (∀ id, itemToShops ix !! id ≠ Some []).

(** The index lists [id] at vendor [shopName] for the price [p]. *)
Definition listed (ix : Index P) (id shopName : string) (p : P) : Prop :=
  ∃ opts o, itemToShops ix !! id = Some opts ∧ o ∈ opts
            ∧ shop o = shopName ∧ price o = p.
End IndexProperties.


(** ** The cheapest price of every item

    The value the specification gives for the optimum and for both bounds:
    the sum, over the items, of each item's cheapest listed price. *)

Section Cheapest.
Variable ix : Index Z.

(** [m] is the cheapest price listed for [id]. *)
Definition cheapest (id : string) (m : Z) : Prop :=
  (∃ o, o ∈ default [] (itemToShops ix !! id) ∧ price o = m)
  ∧ ∀ o, o ∈ default [] (itemToShops ix !! id) → m ≤ price o.

(** The cheapest listed price of [id]; an item nobody lists counts 0. *)
Definition cheapestPrice (id : string) : Z :=
  match default [] (itemToShops ix !! id) with
  | [] => 0
  | first :: rest => foldr (λ o m, Z.min (price o) m) (price first) rest
  end.

Definition cheapestSum (ids : list string) : Z :=
  foldr (λ id total, cheapestPrice id + total) 0 ids.

(** [id] has at least one price option (the test of [hasOption]). *)
Definition available (id : string) : bool :=
  match itemToShops ix !! id with
  | Some (_ :: _) => true
  | _ => false
  end.

(** The cost of the best plan for [ids]: [Infinity] when there is none. *)
Definition bestTotal (ids : list string) : number :=
  if forallb available ids then Fin (cheapestSum ids) else Infinity.
End Cheapest.


(** ** The prices the integer model is exact for

    The files compute with JavaScript numbers, that is with doubles, and the
    model computes with integers.  A double holds every integer between
    -2^53 and 2^53 exactly, and the sum of two of them is exact when it is
    in that range too.  Every sum a solver forms adds one listed price for
    each of some requested items (the two bounds add cheapest prices, the
    searches the prices of the options chosen so far, the replay both), so
    it is exact when the largest absolute prices of the requested items add
    up to less than 2^53; [x <= bestCost + 0.01] then holds of two such
    integers exactly when [x <= bestCost] does, and the sort compares two
    prices by the sign of their difference, which rounding does not
    change.  [safePrices] is that condition on a request. *)

(** The largest absolute value of a price listed for [id]. *)
Definition largestPrice (ix : Index Z) (id : string) : Z :=
  foldr (λ o m, Z.max (Z.abs (price o)) m) 0 (default [] (itemToShops ix !! id)).

(** The sum of the largest absolute prices of the requested items. *)
Definition largestSum (ix : Index Z) (ids : list string) : Z :=
  foldr (λ id total, largestPrice ix id + total) 0 ids.

(** Every sum of listed prices, one for each of some requested items, is
    below 2^53 in absolute value. *)
Definition safePrices (ix : Index Z) (ids : list string) : Prop :=
  largestSum ix ids < 2 ^ 53.


(** What a call of [backtrack] at [index] with cost [c] does, given the
    cheapest total [low] of the items from [index] on and their number
    [todo]. *)
Definition explores (run : Z → BestPrice.State → option BestPrice.State)
    (low : Z) (todo : nat) : Prop :=
  ∀ c st, ∃ st',
    run c st = Some st'
    ∧ BestPrice.currentSelection st' = BestPrice.currentSelection st
    ∧ BestPrice.bestCost (BestPrice.best st')
      = Math_min (BestPrice.bestCost (BestPrice.best st)) (Fin (c + low))
    ∧ (BestPrice.best st' = BestPrice.best st
       ∨ length (BestPrice.bestSelection (BestPrice.best st'))
         = (length (BestPrice.currentSelection st) + todo)%nat).


(** ** Invariants of the memoized search *)

(** A mask a vendor below 31 can be added to and [popcount] returns on. *)
Definition maskInRange (mask : Z) : Prop := 0 ≤ mask < 2 ^ 31.

(** Every memo entry of the memoized search holds the best total of its
    suffix, and a mask in range. *)
Definition memoSound (ix : Index Z) (ids : list string)
    (memo : gmap (nat * Z) BestPriceDP.DPState) : Prop :=
  ∀ j mask st, memo !! (j, mask) = Some st →
    BestPriceDP.cost st = bestTotal ix (drop j ids) ∧ maskInRange (BestPriceDP.shops st).

(** What a call of [BestPriceDP.dp] at item [i] does. *)
Definition solves (ix : Index Z) (ids : list string)
    (run : Z → gmap (nat * Z) BestPriceDP.DPState
           → option (BestPriceDP.DPState * gmap (nat * Z) BestPriceDP.DPState))
    (i : nat) : Prop :=
  ∀ mask memo, maskInRange mask → memoSound ix ids memo →
    ∃ st memo',
      run mask memo = Some (st, memo')
      ∧ BestPriceDP.cost st = bestTotal ix (drop i ids)
      ∧ maskInRange (BestPriceDP.shops st)
      ∧ memoSound ix ids memo'.

(** The loop variables of [BestPriceDP.dp]: no cost before the first
    option, and a mask in range with the best option found so far. *)
Definition accInRange (acc : BestPriceDP.Acc) : Prop :=
  (BestPriceDP.bestOption acc = None → BestPriceDP.bestCost acc = Infinity)
  ∧ ∀ bo, BestPriceDP.bestOption acc = Some bo → maskInRange (BestPriceDP.newShopsBitmask bo).


(** ** Invariants of the branch-and-bound search *)

(** The ceiling is the sum of the cheapest prices and the memo holds
    nothing but [Infinity]. *)
Definition searchInvariant (ix : Index Z) (ids : list string)
    (st : BestPriceDPOptimized.DP) : Prop :=
  BestPriceDPOptimized.bestCost st = Fin (cheapestSum ix ids)
  ∧ ∀ key value, BestPriceDPOptimized.memo st !! key = Some value → value = Infinity.

(** A visit of item [i] with the cost [c] of choices made for the items
    before [i]. *)
Definition visit (ix : Index Z) (ids : list string) (i : nat) (c : Z) : Prop :=
  (i ≤ length ids)%nat
  ∧ ∃ chosen, chosen ∈ allCombinations ix (take i ids) ∧ combinationCost chosen = c.


(** ** Invariants of the search with rules switched off *)

(** The calls [dpAblated] can make at item [i]: the cost and the lower
    bound of what is left reach the ceiling; a call that can get to the
    [popcount] of the terminal case has a mask in range; and so has every
    call once all three rules are off. *)
Definition admissible (rules : BestPriceDPOptimized.Rules) (ix : Index Z)
    (ids : list string) (i : nat) (mask c : Z) : Prop :=
  (i ≤ length ids)%nat
  ∧ cheapestSum ix ids ≤ c + cheapestSum ix (drop i ids)
  ∧ ((i < length ids)%nat ∨ BestPriceDPOptimized.costPrune rules = true ∨ maskInRange mask)
  ∧ (rules = BestPriceDPOptimized.noRules → maskInRange mask).

(** A call that returns and leaves the ceiling where it is. *)
Definition keepsCeiling (rules : BestPriceDPOptimized.Rules) (ix : Index Z)
    (ids : list string)
    (run : Z → Z → BestPriceDPOptimized.DP → option (number * BestPriceDPOptimized.DP))
    (i : nat) : Prop :=
  ∀ mask c st,
    BestPriceDPOptimized.bestCost st = Fin (cheapestSum ix ids) →
    admissible rules ix ids i mask c →
    ∃ v st', run mask c st = Some (v, st')
             ∧ BestPriceDPOptimized.bestCost st' = Fin (cheapestSum ix ids).


(** ** Reading a printed plan *)

(** The number of distinct shops among the selected items. *)
Definition distinctShops (r : Result) : Z :=
  Z.of_nat (length (remove_dups (itemShop <$> selectedItems r))).

(** ** Sample catalogs *)

(** The index of a catalog the construction accepts. *)
Definition indexOf (shopsData : ShopsData Z) : Index Z :=
  match buildIndex (λ p : Z, p) shopsData with
  | Normal ix => ix
  | TypeError => emptyIndex
  end.

(** Two shops; the cheapest "B" is not where "A" is. *)
Definition twoShops : ShopsData Z :=
  [("V1", [[("A", 10)]; [("B", 20)]]);
   ("V2", [[("B", 5)]])].

(** Two shops that tie on "A"; only the second has "B". *)
Definition tiedShops : ShopsData Z :=
  [("V1", [[("A", 100)]]);
   ("V2", [[("A", 100)]; [("B", 50)]])].

(** The names [generateShops.ts] gives its shops: "shop_a", "shop_b", ... *)
Definition shopName (i : nat) : string :=
  "shop_" +:+ String (ascii_of_nat (97 + i)) EmptyString.

(** [n] shops that all list "C", followed by the given ones. *)
Definition manyShops (n : nat) (last : ShopsData Z) : ShopsData Z :=
  ((λ i, (shopName i, [[("C", 10 + Z.of_nat i)]])) <$> seq 0 n) ++ last.

(** 32 shops; only the last one lists "A". *)
Definition shops32 : ShopsData Z :=
  manyShops 31 [(shopName 31, [[("A", 5)]])].

(** 33 shops; the first lists "A", the last lists "B". *)
Definition shops33 : ShopsData Z :=
  (shopName 0, [[("A", 5)]; [("C", 10)]])
    :: ((λ i, (shopName i, [[("C", 10 + Z.of_nat i)]])) <$> seq 1 31)
    ++ [(shopName 32, [[("B", 7)]])].

(** A price that is no number, and a negative one. *)
Definition badPrice : ShopsData string := [("V1", [[("A", "abc")]])].
Definition negativePrice : ShopsData string := [("V1", [[("A", "-5")]])].


(** One shop with a negative price, after the conversion. *)
Definition negativeShop : ShopsData Z := [("V1", [[("A", -5)]])].


(** ** What [popcount] counts, and the string of a memo key *)

(** The positions, among the 31 value bits, at which a mask has a one. *)
Definition setBits (n : Z) : list nat :=
  filter (λ i, Z.testbit n (Z.of_nat i)) (seq 0 31).

(** [`${itemIndex}:${shopsBitmask}`], the string [stateKey] returns in
    [bestPriceDP.ts] and [bestPriceDPOptimized.ts]: both integers in
    decimal, the mask with its sign. *)
Definition stateKeyString (itemIndex : nat) (shopsBitmask : Z) : string :=
  pretty itemIndex +:+ ":" +:+ pretty shopsBitmask.


(** No character of the string is the separator of a memo key. *)
Fixpoint separatorFree (s : string) : Prop :=
  match s with
  | EmptyString => True
  | String c rest => c ≠ ":"%char ∧ separatorFree rest
  end.


(** ** Reading the catalog *)

(** What the catalog offers for [id]: the shop and the raw price of every
    inventory object whose first entry is [id], in the order of the two
    loops over [shopsData]. *)
Definition offerOf {Raw : Type} (shopName : string) (id : string) (itemObj : ItemObj Raw)
  : list (string * Raw) :=
  match itemObj with
  | (id', priceStr) :: _ => if decide (id' = id) then [(shopName, priceStr)] else []
  | [] => []
  end.

Definition offersOf {Raw : Type} (shopsData : ShopsData Raw) (id : string)
  : list (string * Raw) :=
  '(shopName, items) ← shopsData; items ≫= offerOf shopName id.

(** The item ids in the order the two loops meet them. *)
Definition itemIds {Raw : Type} (shopsData : ShopsData Raw) : list string :=
  '(_, items) ← shopsData;
  itemObj ← items;
  match itemObj with
  | (id, _) :: _ => [id]
  | [] => []
  end.

(** [Array.from(itemToShops.keys())]: a [Map] hands out its keys in the
    order in which they were first set, here the order in which the loops
    first meet each id. *)
Definition allItemIds {Raw : Type} (shopsData : ShopsData Raw) : list string :=
  set_of_list (itemIds shopsData).

(** The shop and the price of the options stored for [id], in order. *)
Definition storedFor {P : Type} (ix : Index P) (id : string) : list (string * P) :=
  (λ o, (shop o, price o)) <$> default [] (itemToShops ix !! id).

(** Every stored option carries the index its shop is registered with. *)
Definition indexedByShop {P : Type} (ix : Index P) : Prop :=
  ∀ id opts o, itemToShops ix !! id = Some opts → o ∈ opts →
    shopNameToIndex ix !! shop o = Some (shopIndex o).


(** ** Sections 3 and 4 of each file: the item count and the random pick *)

(** [itemCount], from the value [parsed] of [Number(arg)] when there is an
    argument; [None] is the [process.exit(1)] of an invalid count.
    [Number.isInteger] answers false on [NaN], and on every other value
    that is no integer, which goes the same way. *)
Definition readItemCount (parsed : option jsnum) : option Z :=
  match parsed with
  | None => Some 5
  | Some NaN => None
  | Some (JsInt z) => if z <=? 0 then None else Some z
  end.

(** [pickRandomItems(n, sourceArray)].  [draws] holds the values that
    [Math.floor(Math.random() * sourceArray.length)] takes, one for each
    turn of the loop; [Math.random()] is below 1, so each of them is a
    position of [sourceArray].  [None] is "the loop is still running when
    the draws are used up" (or a draw is no position). *)
Fixpoint pickRandomItems_loop (n : Z) (sourceArray : list string) (draws : list nat)
    (result : list string) (used : JSet) : option (list string) :=
  if (Z.of_nat (length result) <? n) && (set_size used <? Z.of_nat (length sourceArray))
  then
    match draws with
    | [] => None
    | idx :: draws' =>
        match sourceArray !! idx with
        | None => None
        | Some id =>
            if decide (id ∈ used) then
              pickRandomItems_loop n sourceArray draws' result used
            else
              pickRandomItems_loop n sourceArray draws' (result ++ [id]) (set_add id used)
        end
    end
  else Some result.

Definition pickRandomItems (n : Z) (sourceArray : list string) (draws : list nat)
  : option (list string) :=
  pickRandomItems_loop n sourceArray draws [] [].

(** How a run of one of the three files ends: [process.exit(1)] before
    the search, an exception while the index is built, or the outcome of
    the solver on the items picked. *)
Inductive Ended : Type :=
| Exited
| Threw
| Solved (selectedItemIds : list string) (outcome : Outcome).

(** Sections 2 to 4 of a file, followed by its solver. *)
Definition run {Raw : Type} (solve : Index Z → list string → option Outcome)
    (Number : Raw → Z) (shopsData : ShopsData Raw)
    (parsed : option jsnum) (draws : list nat) : option Ended :=
  match buildIndex Number shopsData with
  | TypeError => Some Threw
  | Normal ix =>
      match readItemCount parsed with
      | None => Some Exited
      | Some itemCount =>
          if Z.of_nat (length (allItemIds shopsData)) <? itemCount then Some Exited
          else
            match pickRandomItems itemCount (allItemIds shopsData) draws with
            | None => None
            | Some selectedItemIds =>
                match solve ix selectedItemIds with
                | None => None
                | Some outcome => Some (Solved selectedItemIds outcome)
                end
            end
      end
  end.


(** ** Reading a selection *)

(** The selection gives every id of [ids], in order, a shop and a price
    that the index lists for it. *)
Definition selectionFor (ix : Index Z) (ids : list string) (sel : list Selection) : Prop :=
  Forall2 (λ id s, itemId s = id ∧ listed ix id (selShop s) (selPrice s)) ids sel.

Definition selectionCost (sel : list Selection) : Z :=
  foldr Z.add 0 (selPrice <$> sel).

(** The printed plan names the requested ids in order, each with a shop
    and a price the index lists for it, and its [totalCost] is the sum of
    the prices of its items. *)
Definition pricedPlan (ix : Index Z) (ids : list string) (r : Result) : Prop :=
  item_id <$> selectedItems r = ids
  ∧ (∀ it, it ∈ selectedItems r → listed ix (item_id it) (itemShop it) (itemPrice it))
  ∧ totalCost r = Fin (foldr Z.add 0 (itemPrice <$> selectedItems r)).

(** ** Invariants of the brute force *)

(** The three globals are untouched, or hold a complete selection, its
    cost, and a shop count between 1 and the number of its shops. *)
Definition validBest (ix : Index Z) (ids : list string) (b : BestPrice.Best) : Prop :=
  b = BestPrice.mkBest Infinity Infinity []
  ∨ (selectionFor ix ids (BestPrice.bestSelection b)
     ∧ BestPrice.bestCost b = Fin (selectionCost (BestPrice.bestSelection b))
     ∧ ∃ k, BestPrice.bestShopCount b = Fin k
            ∧ k ≤ Z.of_nat (length (remove_dups (selShop <$> BestPrice.bestSelection b)))
            ∧ (ids ≠ [] → 1 ≤ k)).

(** The state in which the options of item [i] are tried. *)
Definition trying (ix : Index Z) (ids : list string) (i : nat) (c : Z)
    (st : BestPrice.State) : Prop :=
  selectionFor ix (take i ids) (BestPrice.currentSelection st)
  ∧ selectionCost (BestPrice.currentSelection st) = c
  ∧ NoDup (BestPrice.shopsUsedSet st)
  ∧ (∀ s, s ∈ BestPrice.shopsUsedSet st → s ∈ selShop <$> BestPrice.currentSelection st)
  ∧ validBest ix ids (BestPrice.best st).

(** What the calls for the items from [i] on leave behind. *)
Definition leaving (ix : Index Z) (ids : list string) (i : nat)
    (st st' : BestPrice.State) : Prop :=
  BestPrice.currentSelection st' = BestPrice.currentSelection st
  ∧ NoDup (BestPrice.shopsUsedSet st')
  ∧ (∀ s, s ∈ BestPrice.shopsUsedSet st' → s ∈ BestPrice.shopsUsedSet st)
  ∧ validBest ix ids (BestPrice.best st')
  ∧ (forallb (available ix) (drop i ids) = false → BestPrice.best st' = BestPrice.best st).

(** A call of [backtrack] at item [i]. *)
Definition keepsPlans (ix : Index Z) (ids : list string)
    (run : Z → BestPrice.State → option BestPrice.State) (i : nat) : Prop :=
  ∀ c st, trying ix ids i c st →
    ((0 < i)%nat → BestPrice.shopsUsedSet st ≠ []) →
    ∃ st', run c st = Some st' ∧ leaving ix ids i st st'.


(** ** Invariants of the memoized search: the selection *)

(** A state returned for item [i] and mask [mask]: without a cost, or with
    a selection for the items from [i] on, the sum of its prices as cost
    and, as [shops], the mask it was called with and the bit of the shop
    chosen for item [i]. *)
Definition statePlan (ix : Index Z) (ids : list string) (i : nat) (mask : Z)
    (st : BestPriceDP.DPState) : Prop :=
  BestPriceDP.cost st = Infinity
  ∨ (selectionFor ix (drop i ids) (BestPriceDP.selection st)
     ∧ BestPriceDP.cost st = Fin (selectionCost (BestPriceDP.selection st))
     ∧ match BestPriceDP.selection st with
       | [] => BestPriceDP.shops st = mask
       | s :: _ =>
           ∃ id o, ids !! i = Some id
                   ∧ o ∈ default [] (itemToShops ix !! id)
                   ∧ selShop s = shop o
                   ∧ BestPriceDP.shops st = bor mask (shl 1 (Z.of_nat (shopIndex o)))
       end).

Definition memoPlans (ix : Index Z) (ids : list string)
    (memo : gmap (nat * Z) BestPriceDP.DPState) : Prop :=
  ∀ j mask st, memo !! (j, mask) = Some st → statePlan ix ids j mask st.

(** The best option found so far for item [i], called with [mask]. *)
Definition accPlan (ix : Index Z) (ids : list string) (i : nat) (id : string) (mask : Z)
    (acc : BestPriceDP.Acc) : Prop :=
  ∀ bo, BestPriceDP.bestOption acc = Some bo →
    BestPriceDP.bo_itemId bo = id
    ∧ (∃ o, o ∈ default [] (itemToShops ix !! id)
            ∧ BestPriceDP.bo_shop bo = shop o
            ∧ BestPriceDP.bo_price bo = price o
            ∧ BestPriceDP.newShopsBitmask bo
              = bor mask (shl 1 (Z.of_nat (shopIndex o))))
    ∧ selectionFor ix (drop (S i) ids)
        (BestPriceDP.selection (BestPriceDP.futureState bo))
    ∧ BestPriceDP.bestCost acc
      = Fin (BestPriceDP.bo_price bo
             + selectionCost (BestPriceDP.selection (BestPriceDP.futureState bo))).

(** What a call of [BestPriceDP.dp] at item [i] returns, when it returns. *)
Definition returnsPlans (ix : Index Z) (ids : list string)
    (run : Z → gmap (nat * Z) BestPriceDP.DPState
           → option (BestPriceDP.DPState * gmap (nat * Z) BestPriceDP.DPState))
    (i : nat) : Prop :=
  ∀ mask memo st memo',
    memoPlans ix ids memo → run mask memo = Some (st, memo') →
    statePlan ix ids i mask st ∧ memoPlans ix ids memo'.

(** The memo only grows: entries for items before [i] are as they were,
    and no entry is overwritten. *)
Definition memoExtends (i : nat) (memo memo' : gmap (nat * Z) BestPriceDP.DPState) : Prop :=
  (∀ j m, (j < i)%nat → memo' !! (j, m) = memo !! (j, m))
  ∧ ∀ key st, memo !! key = Some st → memo' !! key = Some st.


(** ** The greedy choice *)

(** Of two options the cheaper one, the first one when the prices are
    equal. *)
Definition cheaper (a b : PriceOption Z) : PriceOption Z :=
  if price b <? price a then b else a.

(** The option [getGreedyUpperBound] takes for [id]: the first of its
    cheapest options; none when the item has no option. *)
Definition greedyOption (ix : Index Z) (id : string) : option (PriceOption Z) :=
  match itemToShops ix !! id with
  | Some ((first :: _) as options) =>
      Some (BestPriceDPOptimized.cheapestOption first options)
  | _ => None
  end.

Definition greedyOptions (ix : Index Z) (ids : list string) : list (PriceOption Z) :=
  omap (greedyOption ix) ids.

Definition greedySelection (ix : Index Z) (ids : list string) : list Selection :=
  omap (λ id, (λ o, mkSelection id (shop o) (price o)) <$> greedyOption ix id) ids.

(** A value that is [Infinity] or 0, and a memo that holds no other. *)
Definition zeroOrInfinity (v : number) : Prop := v = Infinity ∨ v = Fin 0.

Definition memoZero (st : BestPriceDPOptimized.DP) : Prop :=
  ∀ key v, BestPriceDPOptimized.memo st !! key = Some v → zeroOrInfinity v.


(** ** The shops of a mask *)

(** The names of the positions whose bit, counted modulo 32, is set in the
    32-bit value of the mask; [i] is the position of the first name. *)
Definition shopsOfMask (i : nat) (names : list string) (mask : Z) : list string :=
  (filter (λ p, Z.testbit (toInt32 mask) (Z.of_nat p.1 mod 32))
          (zip (seq i (length names)) names)).*2.


(** [popcount(dpState.bestShopCount === Infinity ? 0 : dpState.bestShopCount)]:
    the constant [shopCount] of section 7 of [bestPriceDPOptimized.ts],
    which the result never reads. *)
Definition unusedShopCount (gas : nat) (st : BestPriceDPOptimized.DP) : option Z :=
  popcount gas (match BestPriceDPOptimized.bestShopCount st with
                | Infinity => 0
                | Fin k => k
                end).


(** ** The ceiling of the branch and bound *)

(** From [st] to [st'] the ceiling and its shop count are the same, or the
    ceiling is strictly lower. *)
Definition ceilingKept (st st' : BestPriceDPOptimized.DP) : Prop :=
  (BestPriceDPOptimized.bestCost st' = BestPriceDPOptimized.bestCost st
   ∧ BestPriceDPOptimized.bestShopCount st' = BestPriceDPOptimized.bestShopCount st)
  ∨ num_ltb (BestPriceDPOptimized.bestCost st') (BestPriceDPOptimized.bestCost st) = true.

(** ** Vendors with the sign bit *)

(** The bit [1 << shopIndex] of the option is the sign bit of a mask: its
    vendor is at position 31, 63, ... of [shopList]. *)
Definition signBit (o : PriceOption Z) : Prop := Z.of_nat (shopIndex o) mod 32 = 31.

(** No vendor that lists a requested item has the sign bit. *)
Definition noSignBit (ix : Index Z) (ids : list string) : Prop :=
  ∀ id opts o, id ∈ ids → itemToShops ix !! id = Some opts → o ∈ opts → ¬ signBit o.

(** A vendor with the sign bit lists the item at position [i] of the
    request, or at a later one. *)
Definition signBitFrom (ix : Index Z) (ids : list string) (i : nat) : Prop :=
  ∃ j id opts o, (i ≤ j)%nat ∧ ids !! j = Some id
                 ∧ itemToShops ix !! id = Some opts ∧ o ∈ opts ∧ signBit o.

(** A call of [BestPriceDP.dp] for an item of the request that does not
    return: its mask is negative, or a vendor with the sign bit is still
    to come.  The mask is a 32-bit integer. *)
Definition stuck (ix : Index Z) (ids : list string) (i : nat) (mask : Z) : Prop :=
  (i < length ids)%nat ∧ - 2 ^ 31 ≤ mask < 2 ^ 31
  ∧ (mask < 0 ∨ signBitFrom ix ids i).

(** Every memo entry is of a call that is not stuck, and holds a cost. *)
Definition memoFree (ix : Index Z) (ids : list string)
    (memo : gmap (nat * Z) BestPriceDP.DPState) : Prop :=
  ∀ k m st, memo !! (k, m) = Some st →
    maskInRange m ∧ ¬ signBitFrom ix ids k ∧ BestPriceDP.cost st ≠ Infinity.

(** The best option so far has a cost. *)
Definition accFinite (acc : BestPriceDP.Acc) : Prop :=
  match BestPriceDP.bestOption acc with
  | None => BestPriceDP.bestCost acc = Infinity
  | Some _ => BestPriceDP.bestCost acc ≠ Infinity
  end.

(** * Facts *)

(** ** 32-bit arithmetic *)

Lemma toInt32_small (z : Z) : - 2 ^ 31 ≤ z < 2 ^ 31 → toInt32 z = z.
Proof.
  intros Hz. unfold toInt32. rewrite Z.mod_small; lia.
Qed.

Lemma shl_1_small (k : nat) :
  (k < 31)%nat → shl 1 (Z.of_nat k) = 2 ^ Z.of_nat k.
Proof.
  intros Hk. unfold shl.
  rewrite (toInt32_small 1) by lia.
  rewrite (Z.mod_small (Z.of_nat k) 32) by lia.
  rewrite Z.shiftl_1_l.
  apply toInt32_small.
  assert (2 ^ Z.of_nat k < 2 ^ 31) by (apply Z.pow_lt_mono_r; lia).
  assert (0 < 2 ^ Z.of_nat k) by (apply Z.pow_pos_nonneg; lia).
  lia.
Qed.

(** Vendors whose indices differ by 32 get the same mask bit. *)
Lemma shl_1_alias (i : nat) :
  shl 1 (Z.of_nat (i + 32)) = shl 1 (Z.of_nat i).
Proof.
  unfold shl. f_equal. f_equal.
  rewrite Nat2Z.inj_add.
  replace (Z.of_nat i + Z.of_nat 32) with (Z.of_nat i + 1 * 32) by lia.
  apply Z.mod_add. lia.
Qed.

Lemma lor_below (a b n : Z) :
  0 < n → 0 ≤ a < 2 ^ n → 0 ≤ b < 2 ^ n → 0 ≤ Z.lor a b < 2 ^ n.
Proof.
  intros Hn Ha Hb. split.
  - apply Z.lor_nonneg. lia.
  - destruct (decide (Z.lor a b = 0)) as [->|Hne].
    + lia.
    + assert (0 ≤ Z.lor a b) by (apply Z.lor_nonneg; lia).
      apply Z.log2_lt_pow2; [lia|].
      rewrite Z.log2_lor by lia.
      assert (Z.log2 a < n).
      { destruct (decide (a = 0)) as [->|]; [simpl|apply Z.log2_lt_pow2]; lia. }
      assert (Z.log2 b < n).
      { destruct (decide (b = 0)) as [->|]; [simpl|apply Z.log2_lt_pow2]; lia. }
      lia.
Qed.

(** A mask without the sign bit stays so when a vendor below 31 is added. *)
Lemma bor_shl_mask (mask : Z) (k : nat) :
  0 ≤ mask < 2 ^ 31 → (k < 31)%nat →
  0 ≤ bor mask (shl 1 (Z.of_nat k)) < 2 ^ 31.
Proof.
  intros Hm Hk. rewrite shl_1_small by done.
  assert (0 < 2 ^ Z.of_nat k) by (apply Z.pow_pos_nonneg; lia).
  assert (2 ^ Z.of_nat k < 2 ^ 31) by (apply Z.pow_lt_mono_r; lia).
  unfold bor. rewrite !toInt32_small by lia.
  apply lor_below; lia.
Qed.

(** [popcount] returns on every mask without the sign bit ... *)
Lemma popcount_loop_returns (k gas : nat) (n count : Z) :
  (k < gas)%nat → (k ≤ 31)%nat → 0 ≤ n < 2 ^ Z.of_nat k →
  is_Some (popcount_loop gas n count).
Proof.
  revert gas n count. induction k as [|k IH]; intros gas n count Hg Hk Hn.
  - destruct gas as [|gas]; [lia|]. simpl.
    replace n with 0 by (simpl in Hn; lia). simpl. eauto.
  - destruct gas as [|gas]; [lia|]. simpl.
    destruct (n =? 0) eqn:E; [eauto|].
    apply Z.eqb_neq in E.
    apply IH; [lia|lia|].
    assert (2 ^ Z.of_nat (S k) = 2 * 2 ^ Z.of_nat k) as Hp.
    { rewrite Nat2Z.inj_succ, Z.pow_succ_r; lia. }
    assert (2 ^ Z.of_nat (S k) ≤ 2 ^ 31) by (apply Z.pow_le_mono_r; lia).
    unfold sar. rewrite toInt32_small by lia.
    change (1 mod 32) with 1. rewrite Z.shiftr_div_pow2 by lia.
    change (2 ^ 1) with 2.
    split; [apply Z.div_pos; lia|].
    apply Z.div_lt_upper_bound; lia.
Qed.

Lemma popcount_returns (gas : nat) (mask : Z) :
  (32 ≤ gas)%nat → 0 ≤ mask < 2 ^ 31 → is_Some (popcount gas mask).
Proof.
  intros Hg Hm. apply (popcount_loop_returns 31); [lia|lia|done].
Qed.

(** ... and never on a mask with the sign bit: [n >>= 1] keeps it negative. *)
Lemma popcount_loop_diverges (gas : nat) (n count : Z) :
  - 2 ^ 31 ≤ n < 0 → popcount_loop gas n count = None.
Proof.
  revert n count. induction gas as [|gas IH]; intros n count Hn; [done|].
  simpl. destruct (n =? 0) eqn:E; [apply Z.eqb_eq in E; lia|].
  apply IH. unfold sar. rewrite toInt32_small by lia.
  change (1 mod 32) with 1. rewrite Z.shiftr_div_pow2 by lia.
  change (2 ^ 1) with 2.
  split.
  - apply Z.div_le_lower_bound; lia.
  - apply Z.div_lt_upper_bound; lia.
Qed.

Lemma popcount_sign_bit (gas : nat) : popcount gas (shl 1 31) = None.
Proof.
  apply popcount_loop_diverges. vm_compute. split; [discriminate|done].
Qed.

(** ** Masks with and without the sign bit *)

Lemma shl_1_mod (k : nat) : shl 1 (Z.of_nat k) = shl 1 (Z.of_nat k mod 32).
Proof. unfold shl. by rewrite Z.mod_mod. Qed.

Lemma shl_1_sign (o : PriceOption Z) :
  signBit o → shl 1 (Z.of_nat (shopIndex o)) = - 2 ^ 31.
Proof. unfold signBit. intros Hs. rewrite shl_1_mod, Hs. by vm_compute. Qed.

Lemma shl_1_int32 (k : nat) : - 2 ^ 31 ≤ shl 1 (Z.of_nat k) < 2 ^ 31.
Proof.
  unfold shl. set (z := Z.shiftl _ _). unfold toInt32.
  pose proof (Z.mod_pos_bound (z + 2 ^ 31) (2 ^ 32)). lia.
Qed.

Lemma shl_1_clear (o : PriceOption Z) :
  ¬ signBit o → 0 ≤ shl 1 (Z.of_nat (shopIndex o)) < 2 ^ 31.
Proof.
  unfold signBit. intros Hs. rewrite shl_1_mod.
  pose proof (Z.mod_pos_bound (Z.of_nat (shopIndex o)) 32).
  rewrite <- (Z2Nat.id (Z.of_nat (shopIndex o) mod 32)) by lia.
  rewrite shl_1_small by lia.
  split; [apply Z.pow_nonneg; lia|apply Z.pow_lt_mono_r; lia].
Qed.

(** [a | b] with a negative [a] is negative, and not below [a]. *)
Lemma lor_negative (a b : Z) : a < 0 → a ≤ Z.lor a b < 0.
Proof.
  intros Ha. split; [|apply Z.lor_neg; by left].
  pose proof (Z.sub_lor_l_same_l b a) as Hsub.
  assert (0 ≤ Z.land b (Z.lnot a)); [|lia].
  apply Z.land_nonneg. right. rewrite Z.lnot_eq_pred_opp. lia.
Qed.

(** The mask after a vendor is added is a 32-bit integer; it is negative
    when the mask was, or when the vendor has the sign bit. *)
Lemma bor_int32 (mask bit : Z) :
  - 2 ^ 31 ≤ mask < 2 ^ 31 → - 2 ^ 31 ≤ bit < 2 ^ 31 →
  - 2 ^ 31 ≤ bor mask bit < 2 ^ 31
  ∧ (mask < 0 ∨ bit < 0 → bor mask bit < 0).
Proof.
  intros Hm Hb. unfold bor. rewrite !toInt32_small by done.
  destruct (Z.neg_nonneg_cases mask) as [Hneg|Hpos].
  { pose proof (lor_negative mask bit Hneg). lia. }
  destruct (Z.neg_nonneg_cases bit) as [Hneg'|Hpos'].
  { pose proof (lor_negative bit mask Hneg'). rewrite Z.lor_comm. lia. }
  pose proof (lor_below mask bit 31). lia.
Qed.

Lemma bor_shl_clear (mask : Z) (o : PriceOption Z) :
  maskInRange mask → ¬ signBit o →
  maskInRange (bor mask (shl 1 (Z.of_nat (shopIndex o)))).
Proof.
  unfold maskInRange. intros Hm Hs. pose proof (shl_1_clear o Hs) as Hb.
  unfold bor. rewrite !toInt32_small by lia. apply lor_below; lia.
Qed.

(** With at most 31 vendors there is no sign bit. *)
Lemma vendorsBelow_noSignBit (ix : Index Z) (ids : list string) :
  vendorsBelow 31 ix → noSignBit ix ids.
Proof.
  intros Hbelow id opts o _ Hopts Ho. unfold signBit.
  pose proof (Hbelow id opts o Hopts Ho). rewrite Z.mod_small; lia.
Qed.

(** ** The catalog index *)

Section IndexFacts.
Context {Raw P : Type} (Number : Raw → P).

Lemma registerShop_lookup (shopName : string) (ix : Index P) :
  is_Some (shopNameToIndex (registerShop shopName ix) !! shopName).
Proof.
  unfold registerShop.
  destruct (shopNameToIndex ix !! shopName) eqn:E; simpl.
  - rewrite E. eauto.
  - rewrite lookup_insert_eq. eauto.
Qed.

Lemma registerShop_wf (shopName : string) (ix : Index P) :
  wfIndex ix → wfIndex (registerShop shopName ix).
Proof.
  intros (Hto & Hfrom & Hbelow & Hfull). unfold registerShop.
  destruct (shopNameToIndex ix !! shopName) eqn:E; [done|].
  split; [|split; [|split; [|exact Hfull]]]; simpl.
  - intros name i. destruct (decide (shopName = name)) as [->|Hne].
    + rewrite lookup_insert_eq. intros [= <-].
      rewrite lookup_app_r by lia. by rewrite Nat.sub_diag.
    + rewrite lookup_insert_ne by done. intros Hi.
      apply Hto in Hi. by apply lookup_app_l_Some.
  - intros i name Hi. apply lookup_app_Some in Hi as [Hi|[Hlen Hi]].
    + assert (name ≠ shopName) by (intros ->; apply Hfrom in Hi; congruence).
      rewrite lookup_insert_ne by done. by apply Hfrom.
    + apply list_lookup_singleton_Some in Hi as [Hi <-].
      replace i with (length (shopList ix)) by lia.
      by rewrite lookup_insert_eq.
  - intros id opts o Hid Ho. rewrite length_app. simpl.
    specialize (Hbelow id opts o Hid Ho). lia.
Qed.

Lemma addItem_Normal (shopName : string) (ix ix' : Index P) (obj : ItemObj Raw) :
  addItem Number shopName ix obj = Normal ix' →
  ∃ id priceStr rest,
    obj = (id, priceStr) :: rest
    ∧ shopList ix' = shopList ix
    ∧ shopNameToIndex ix' = shopNameToIndex ix
    ∧ itemToShops ix' =
        <[id := default [] (itemToShops ix !! id)
                ++ [mkOption shopName (Number priceStr)
                      (default 0%nat (shopNameToIndex ix !! shopName))]]>
          (itemToShops ix).
Proof.
  destruct obj as [|[id priceStr] rest]; simpl; [done|].
  intros [= <-]. by exists id, priceStr, rest.
Qed.

Lemma addItem_wf (shopName : string) (ix ix' : Index P) (obj : ItemObj Raw) :
  wfIndex ix → is_Some (shopNameToIndex ix !! shopName) →
  addItem Number shopName ix obj = Normal ix' →
  wfIndex ix' ∧ is_Some (shopNameToIndex ix' !! shopName).
Proof.
  intros (Hto & Hfrom & Hbelow & Hfull) [k Hk] Hadd.
  apply addItem_Normal in Hadd as (id & priceStr & rest & -> & Hl & Hn & Hi).
  split; [|rewrite Hn; by eauto].
  unfold wfIndex, vendorsBelow. rewrite Hn, Hl.
  split; [done|split; [done|split]].
  - intros id' opts o. rewrite Hi.
    destruct (decide (id = id')) as [->|Hne].
    + rewrite lookup_insert_eq. intros [= <-] Ho.
      apply elem_of_app in Ho as [Ho|Ho].
      * destruct (itemToShops ix !! id') as [old|] eqn:E; simpl in Ho.
        -- by apply (Hbelow id' old).
        -- by apply elem_of_nil in Ho.
      * apply list_elem_of_singleton in Ho as ->. simpl. rewrite Hk. simpl.
        apply Hto in Hk. by apply lookup_lt_Some in Hk.
    + rewrite lookup_insert_ne by done. apply Hbelow.
  - intros id'. rewrite Hi.
    destruct (decide (id = id')) as [->|Hne].
    + rewrite lookup_insert_eq. intros [= Hnil].
      by apply app_eq_nil in Hnil as [_ ?].
    + rewrite lookup_insert_ne by done. apply Hfull.
Qed.

Lemma addItems_wf (shopName : string) (items : list (ItemObj Raw)) (ix ix' : Index P) :
  wfIndex ix → is_Some (shopNameToIndex ix !! shopName) →
  addItems Number shopName ix items = Normal ix' → wfIndex ix'.
Proof.
  revert ix. induction items as [|obj items IH]; intros ix Hwf Hs; simpl.
  - by intros [= <-].
  - destruct (addItem Number shopName ix obj) as [ix1|] eqn:E; [|done].
    destruct (addItem_wf _ _ _ _ Hwf Hs E). by apply IH.
Qed.

Lemma addShops_wf (entries : ShopsData Raw) (ix ix' : Index P) :
  wfIndex ix → addShops Number ix entries = Normal ix' → wfIndex ix'.
Proof.
  revert ix. induction entries as [|[shopName items] entries IH]; intros ix Hwf; simpl.
  - by intros [= <-].
  - destruct (addItems Number shopName (registerShop shopName ix) items) as [ix1|] eqn:E;
      [|done].
    apply IH. eapply addItems_wf; [| |exact E].
    + by apply registerShop_wf.
    + apply registerShop_lookup.
Qed.

Lemma emptyIndex_wf : wfIndex (@emptyIndex P).
Proof.
  split; [|split; [|split]].
  - intros name i. simpl. by rewrite lookup_empty.
  - intros i name. simpl. by rewrite lookup_nil.
  - intros id opts o. simpl. by rewrite lookup_empty.
  - intros id. simpl. by rewrite lookup_empty.
Qed.

(** A built index only carries vendor indices that are positions of
    [shopList]. *)
Lemma buildIndex_wf (shopsData : ShopsData Raw) (ix : Index P) :
  buildIndex Number shopsData = Normal ix → wfIndex ix.
Proof. apply addShops_wf, emptyIndex_wf. Qed.

Lemma buildIndex_vendorsBelow (shopsData : ShopsData Raw) (ix : Index P) (n : nat) :
  buildIndex Number shopsData = Normal ix → (length (shopList ix) ≤ n)%nat →
  vendorsBelow n ix.
Proof.
  intros Hb Hn id opts o Hid Ho.
  destruct (buildIndex_wf _ _ Hb) as (_ & _ & Hbelow & _).
  specialize (Hbelow id opts o Hid Ho). lia.
Qed.
End IndexFacts.


Section IndexContents.
Context {Raw P : Type} (Number : Raw → P).

Lemma addItem_listed_mono (shopName : string) (ix ix' : Index P) (obj : ItemObj Raw)
    (id name : string) (p : P) :
  addItem Number shopName ix obj = Normal ix' →
  listed ix id name p → listed ix' id name p.
Proof.
  intros Hadd (opts & o & Hid & Ho & Hs & Hp).
  apply addItem_Normal in Hadd as (id' & priceStr & rest & -> & _ & _ & Hi).
  unfold listed. rewrite Hi.
  destruct (decide (id' = id)) as [->|Hne].
  - rewrite lookup_insert_eq, Hid. simpl.
    eexists _, o. split; [done|]. split; [|done].
    apply elem_of_app. by left.
  - rewrite lookup_insert_ne by done. by exists opts, o.
Qed.

Lemma addItem_listed_new (shopName : string) (ix ix' : Index P)
    (id : string) (priceStr : Raw) (rest : ItemObj Raw) :
  addItem Number shopName ix ((id, priceStr) :: rest) = Normal ix' →
  listed ix' id shopName (Number priceStr).
Proof.
  intros Hadd.
  apply addItem_Normal in Hadd as (id' & s' & rest' & [= <- <- <-] & _ & _ & Hi).
  unfold listed. rewrite Hi, lookup_insert_eq.
  eexists _, (mkOption shopName (Number priceStr) _). split; [done|].
  split; [|done].
  apply elem_of_app. right. by apply list_elem_of_singleton.
Qed.

Lemma addItems_listed_mono (shopName : string) (items : list (ItemObj Raw))
    (ix ix' : Index P) (id name : string) (p : P) :
  addItems Number shopName ix items = Normal ix' →
  listed ix id name p → listed ix' id name p.
Proof.
  revert ix. induction items as [|obj items IH]; intros ix; simpl.
  - by intros [= <-].
  - destruct (addItem Number shopName ix obj) as [ix1|] eqn:E; [|done].
    intros Hrest Hl. apply (IH ix1 Hrest). by eapply addItem_listed_mono.
Qed.

Lemma addItems_listed (shopName : string) (items : list (ItemObj Raw))
    (ix ix' : Index P) (id : string) (priceStr : Raw) (rest : ItemObj Raw) :
  addItems Number shopName ix items = Normal ix' →
  (id, priceStr) :: rest ∈ items →
  listed ix' id shopName (Number priceStr).
Proof.
  revert ix. induction items as [|obj items IH]; intros ix; simpl.
  - intros _ Hin. by apply elem_of_nil in Hin.
  - destruct (addItem Number shopName ix obj) as [ix1|] eqn:E; [|done].
    intros Hrest Hin. apply elem_of_cons in Hin as [<-|Hin].
    + eapply addItems_listed_mono; [exact Hrest|]. by eapply addItem_listed_new.
    + by apply (IH ix1).
Qed.

Lemma addShops_listed_mono (entries : ShopsData Raw) (ix ix' : Index P)
    (id name : string) (p : P) :
  addShops Number ix entries = Normal ix' →
  listed ix id name p → listed ix' id name p.
Proof.
  revert ix. induction entries as [|[shopName items] entries IH]; intros ix; simpl.
  - by intros [= <-].
  - destruct (addItems Number shopName (registerShop shopName ix) items) as [ix1|] eqn:E;
      [|done].
    intros Hrest Hl. apply (IH ix1 Hrest).
    eapply addItems_listed_mono; [exact E|].
    unfold registerShop. by destruct (shopNameToIndex ix !! shopName).
Qed.

Lemma addShops_listed (entries : ShopsData Raw) (ix ix' : Index P)
    (shopName : string) (items : list (ItemObj Raw))
    (id : string) (priceStr : Raw) (rest : ItemObj Raw) :
  addShops Number ix entries = Normal ix' →
  (shopName, items) ∈ entries → (id, priceStr) :: rest ∈ items →
  listed ix' id shopName (Number priceStr).
Proof.
  revert ix. induction entries as [|[name its] entries IH]; intros ix; simpl.
  - intros _ Hin. by apply elem_of_nil in Hin.
  - destruct (addItems Number name (registerShop name ix) its) as [ix1|] eqn:E; [|done].
    intros Hrest Hin Hobj. apply elem_of_cons in Hin as [[= <- <-]|Hin].
    + eapply addShops_listed_mono; [exact Hrest|]. by eapply addItems_listed.
    + by apply (IH ix1).
Qed.

(** The only way the construction fails: an inventory element without
    entries. *)
Lemma addItems_TypeError (shopName : string) (items : list (ItemObj Raw)) (ix : Index P) :
  addItems Number shopName ix items = TypeError ↔ [] ∈ items.
Proof.
  revert ix. induction items as [|obj items IH]; intros ix; simpl.
  - split; [done|]. intros Hin. by apply elem_of_nil in Hin.
  - destruct obj as [|[id priceStr] rest]; simpl.
    + split; [|done]. intros _. apply elem_of_cons. by left.
    + rewrite IH. rewrite elem_of_cons. split; [by right|].
      by intros [?|?].
Qed.

Lemma addShops_TypeError (entries : ShopsData Raw) (ix : Index P) :
  addShops Number ix entries = TypeError
  ↔ ∃ shopName items, (shopName, items) ∈ entries ∧ [] ∈ items.
Proof.
  revert ix. induction entries as [|[name its] entries IH]; intros ix; simpl.
  - split; [done|]. intros (? & ? & Hin & _). by apply elem_of_nil in Hin.
  - destruct (addItems Number name (registerShop name ix) its) as [ix1|] eqn:E.
    + rewrite IH. split.
      * intros (s & items & Hin & He). exists s, items. split; [|done].
        apply elem_of_cons. by right.
      * intros (s & items & Hin & He).
        apply elem_of_cons in Hin as [[= -> ->]|Hin].
        -- pose proof (proj2 (addItems_TypeError name its (registerShop name ix)) He).
           congruence.
        -- by exists s, items.
    + split; [|done]. intros _. exists name, its. split.
      * apply elem_of_cons. by left.
      * by eapply addItems_TypeError.
Qed.

Lemma addItems_shops (shopName : string) (items : list (ItemObj Raw)) (ix ix' : Index P) :
  addItems Number shopName ix items = Normal ix' →
  shopList ix' = shopList ix ∧ shopNameToIndex ix' = shopNameToIndex ix.
Proof.
  revert ix. induction items as [|obj items IH]; intros ix; simpl.
  - by intros [= <-].
  - destruct (addItem Number shopName ix obj) as [ix1|] eqn:E; [|done].
    apply addItem_Normal in E as (? & ? & ? & _ & Hl & Hn & _).
    intros Hrest. apply IH in Hrest as [-> ->]. done.
Qed.

Lemma addShops_shopList (entries : ShopsData Raw) (ix ix' : Index P) :
  wfIndex ix → NoDup (shopList ix ++ entries.*1) →
  addShops Number ix entries = Normal ix' →
  shopList ix' = shopList ix ++ entries.*1.
Proof.
  revert ix. induction entries as [|[name its] entries IH]; intros ix Hwf Hnd; simpl.
  - intros [= <-]. by rewrite app_nil_r.
  - destruct (addItems Number name (registerShop name ix) its) as [ix1|] eqn:E; [|done].
    intros Hrest.
    assert (shopNameToIndex ix !! name = None) as Hfresh.
    { destruct (shopNameToIndex ix !! name) as [i|] eqn:Hi; [|done].
      destruct Hwf as (Hto & _). apply Hto in Hi.
      apply list_elem_of_lookup_2 in Hi.
      apply NoDup_app in Hnd as (_ & Hdis & _).
      exfalso. apply (Hdis name Hi). simpl. apply elem_of_cons. by left. }
    assert (shopList (registerShop name ix) = shopList ix ++ [name]) as Hreg.
    { unfold registerShop. by rewrite Hfresh. }
    destruct (addItems_shops _ _ _ _ E) as [Hl Hn].
    rewrite (IH ix1).
    + rewrite Hl, Hreg. by rewrite <- app_assoc.
    + eapply addItems_wf; [| |exact E].
      * by apply registerShop_wf.
      * apply registerShop_lookup.
    + rewrite Hl, Hreg. rewrite <- app_assoc. done.
    + done.
Qed.

(** With distinct shop names, as [Object.entries] yields them, every shop
    of the catalog gets its position as index, however many there are. *)
Lemma buildIndex_shopList (shopsData : ShopsData Raw) (ix : Index P) :
  NoDup shopsData.*1 → buildIndex Number shopsData = Normal ix →
  shopList ix = shopsData.*1.
Proof.
  intros Hnd Hb. by apply (addShops_shopList shopsData emptyIndex ix emptyIndex_wf).
Qed.
End IndexContents.



(** ** Cheapest prices, the bounds and the oracle *)

Section CheapestFacts.
Variable ix : Index Z.

Lemma available_hasOption (id : string) : available ix id = true ↔ hasOption ix id.
Proof.
  unfold available, hasOption.
  destruct (itemToShops ix !! id) as [[|first rest]|].
  - split; [done|]. by intros (? & ? & ?).
  - split; [|done]. intros _. by exists first, rest.
  - split; [done|]. by intros (? & ? & ?).
Qed.

Lemma forallb_available (ids : list string) :
  forallb (available ix) ids = true ↔ ∀ id, id ∈ ids → hasOption ix id.
Proof.
  rewrite forallb_forall. split; intros H id Hin.
  - apply available_hasOption, H. by apply list_elem_of_In.
  - apply available_hasOption, H. by apply list_elem_of_In.
Qed.

Lemma foldl_min_le (l : list Z) (a : Z) :
  foldl Z.min a l ≤ a ∧ ∀ x, x ∈ l → foldl Z.min a l ≤ x.
Proof.
  revert a. induction l as [|y l IH]; intros a; simpl.
  - split; [lia|]. intros x Hx. by apply elem_of_nil in Hx.
  - destruct (IH (Z.min a y)) as [Ha Hl]. split; [lia|].
    intros x Hx. apply elem_of_cons in Hx as [->|Hx]; [lia|by apply Hl].
Qed.

Lemma foldl_min_in (l : list Z) (a : Z) :
  foldl Z.min a l = a ∨ foldl Z.min a l ∈ l.
Proof.
  revert a. induction l as [|y l IH]; intros a; simpl; [by left|].
  destruct (IH (Z.min a y)) as [->|Hin].
  - destruct (Z.min_spec a y) as [[_ ->]|[_ ->]]; [by left|].
    right. apply elem_of_cons. by left.
  - right. apply elem_of_cons. by right.
Qed.

Lemma minPrice_le (first : PriceOption Z) (rest : list (PriceOption Z)) (o : PriceOption Z) :
  o ∈ first :: rest → BestPriceDPOptimized.minPrice first rest ≤ price o.
Proof.
  unfold BestPriceDPOptimized.minPrice.
  destruct (foldl_min_le (price <$> rest) (price first)) as [Ha Hl].
  intros Ho. apply elem_of_cons in Ho as [->|Ho]; [done|].
  apply Hl. by apply list_elem_of_fmap_2.
Qed.

Lemma minPrice_in (first : PriceOption Z) (rest : list (PriceOption Z)) :
  ∃ o, o ∈ first :: rest ∧ price o = BestPriceDPOptimized.minPrice first rest.
Proof.
  unfold BestPriceDPOptimized.minPrice.
  destruct (foldl_min_in (price <$> rest) (price first)) as [->|Hin].
  - exists first. split; [|done]. apply elem_of_cons. by left.
  - apply list_elem_of_fmap in Hin as (o & Ho & Hin).
    exists o. split; [|done]. apply elem_of_cons. by right.
Qed.

Lemma cheapest_unique (id : string) (m m' : Z) :
  cheapest ix id m → cheapest ix id m' → m = m'.
Proof.
  intros [(o & Ho & <-) Hle] [(o' & Ho' & <-) Hle'].
  specialize (Hle o' Ho'). specialize (Hle' o Ho). lia.
Qed.

Lemma cheapestPrice_cheapest (id : string) :
  hasOption ix id → cheapest ix id (cheapestPrice ix id).
Proof.
  intros (first & rest & Hid). unfold cheapest, cheapestPrice. rewrite Hid. simpl.
  clear Hid. induction rest as [|y rest [(o & Ho & Hp) Hle]]; simpl.
  - split.
    + exists first. split; [|done]. apply elem_of_cons. by left.
    + intros o Ho. apply list_elem_of_singleton in Ho as ->. lia.
  - split.
    + destruct (Z.min_spec (price y)
                  (foldr (λ o m, Z.min (price o) m) (price first) rest))
        as [[_ ->]|[_ ->]].
      * exists y. split; [|done]. apply elem_of_cons. right. apply elem_of_cons. by left.
      * exists o. split; [|done].
        apply elem_of_cons in Ho as [->|Ho]; apply elem_of_cons; [by left|].
        right. apply elem_of_cons. by right.
    + intros o' Ho'. apply elem_of_cons in Ho' as [->|Ho'].
      * assert (first ∈ first :: rest) as Hf by (apply elem_of_cons; by left).
        specialize (Hle first Hf). lia.
      * apply elem_of_cons in Ho' as [->|Ho']; [lia|].
        assert (o' ∈ first :: rest) as Hf by (apply elem_of_cons; by right).
        specialize (Hle o' Hf). lia.
Qed.

Lemma minPrice_cheapestPrice (id : string) (first : PriceOption Z)
    (rest : list (PriceOption Z)) :
  itemToShops ix !! id = Some (first :: rest) →
  BestPriceDPOptimized.minPrice first rest = cheapestPrice ix id.
Proof.
  intros Hid. apply (cheapest_unique id).
  - unfold cheapest. rewrite Hid. simpl. split.
    + destruct (minPrice_in first rest) as (o & Ho & Hp). by exists o.
    + intros o Ho. by apply minPrice_le.
  - apply cheapestPrice_cheapest. by exists first, rest.
Qed.

Lemma cheapestPrice_unavailable (id : string) :
  available ix id = false → cheapestPrice ix id = 0.
Proof.
  unfold available, cheapestPrice.
  by destruct (itemToShops ix !! id) as [[|first rest]|].
Qed.

Lemma cheapestOption_price (c : PriceOption Z) (options : list (PriceOption Z)) :
  price (BestPriceDPOptimized.cheapestOption c options)
  = foldl Z.min (price c) (price <$> options).
Proof.
  unfold BestPriceDPOptimized.cheapestOption.
  revert c. induction options as [|o options IH]; intros c; simpl; [done|].
  rewrite IH. f_equal.
  destruct (price o <? price c) eqn:E.
  - apply Z.ltb_lt in E. lia.
  - apply Z.ltb_ge in E. lia.
Qed.

Lemma cheapestOption_minPrice (first : PriceOption Z) (rest : list (PriceOption Z)) :
  price (BestPriceDPOptimized.cheapestOption first (first :: rest))
  = BestPriceDPOptimized.minPrice first rest.
Proof.
  rewrite cheapestOption_price. simpl. by rewrite Z.min_id.
Qed.

Lemma cheapestSum_cons (id : string) (ids : list string) :
  cheapestSum ix (id :: ids) = cheapestPrice ix id + cheapestSum ix ids.
Proof. done. Qed.

Lemma combinationCost_cons (o : PriceOption Z) (c : list (PriceOption Z)) :
  combinationCost (o :: c) = price o + combinationCost c.
Proof. done. Qed.


(** [getLowerBound] is the sum of the cheapest prices from [startIndex] on. *)
Lemma getLowerBound_cheapestSum (itemIds : list string) (startIndex : nat) :
  BestPriceDPOptimized.getLowerBound ix itemIds startIndex
  = cheapestSum ix (drop startIndex itemIds).
Proof.
  unfold BestPriceDPOptimized.getLowerBound.
  generalize (drop startIndex itemIds). intros l.
  enough (∀ a, foldl
            (λ minCost itemId,
               match itemToShops ix !! itemId with
               | Some (first :: rest) => minCost + BestPriceDPOptimized.minPrice first rest
               | _ => minCost
               end) a l = a + cheapestSum ix l) as H by (rewrite H; lia).
  induction l as [|id l IH]; intros a; simpl; [lia|].
  rewrite IH.
  destruct (itemToShops ix !! id) as [[|first rest]|] eqn:E.
  - rewrite cheapestPrice_unavailable; [lia|]. unfold available. by rewrite E.
  - rewrite (minPrice_cheapestPrice id first rest E). lia.
  - rewrite cheapestPrice_unavailable; [lia|]. unfold available. by rewrite E.
Qed.

(** The greedy bound costs the same sum. *)
Lemma getGreedyUpperBound_cost (itemIds : list string) :
  BestPriceDPOptimized.cost (BestPriceDPOptimized.getGreedyUpperBound ix itemIds)
  = cheapestSum ix itemIds.
Proof.
  unfold BestPriceDPOptimized.getGreedyUpperBound.
  enough (∀ a s,
    (foldl (λ '(totalCost, shopsUsed) itemId,
               match itemToShops ix !! itemId with
               | Some ((first :: _) as options) =>
                   let cheapest := BestPriceDPOptimized.cheapestOption first options in
                   (totalCost + price cheapest, set_add (shop cheapest) shopsUsed)
               | _ => (totalCost, shopsUsed)
               end) (a, s) itemIds).1 = a + cheapestSum ix itemIds) as H.
  { specialize (H 0 []). destruct (foldl _ _ _) as [t u]. simpl in *. lia. }
  induction itemIds as [|id l IH]; intros a s; simpl; [lia|].
  destruct (itemToShops ix !! id) as [[|first rest]|] eqn:E.
  - rewrite IH, cheapestPrice_unavailable; [lia|]. unfold available. by rewrite E.
  - rewrite IH, cheapestOption_minPrice, (minPrice_cheapestPrice id first rest E). lia.
  - rewrite IH, cheapestPrice_unavailable; [lia|]. unfold available. by rewrite E.
Qed.

Lemma elem_of_allCombinations_cons (id : string) (rest : list string)
    (c : list (PriceOption Z)) :
  c ∈ allCombinations ix (id :: rest)
  ↔ ∃ o c', c = o :: c' ∧ o ∈ default [] (itemToShops ix !! id)
            ∧ c' ∈ allCombinations ix rest.
Proof.
  simpl. rewrite list_elem_of_bind. split.
  - intros (o & Hc & Ho). apply list_elem_of_fmap in Hc as (c' & -> & Hc').
    by exists o, c'.
  - intros (o & c' & -> & Ho & Hc'). exists o. split; [|done].
    by apply list_elem_of_fmap_2.
Qed.

(** No combination is cheaper than the sum of the cheapest prices ... *)
Lemma cheapestSum_lower (ids : list string) (c : list (PriceOption Z)) :
  c ∈ allCombinations ix ids → cheapestSum ix ids ≤ combinationCost c.
Proof.
  revert c. induction ids as [|id ids IH]; intros c Hc.
  - apply list_elem_of_singleton in Hc as ->. done.
  - apply elem_of_allCombinations_cons in Hc as (o & c' & -> & Ho & Hc').
    specialize (IH c' Hc').
    assert (hasOption ix id) as Hav.
    { unfold hasOption. destruct (itemToShops ix !! id) as [[|f r]|];
        simpl in Ho; [by apply elem_of_nil in Ho|by eauto|by apply elem_of_nil in Ho]. }
    destruct (cheapestPrice_cheapest id Hav) as [_ Hle].
    specialize (Hle o Ho). rewrite combinationCost_cons, cheapestSum_cons. lia.
Qed.

(** ... and, when every item has an option, one combination costs it. *)
Lemma cheapestSum_attained (ids : list string) :
  (∀ id, id ∈ ids → hasOption ix id) →
  ∃ c, c ∈ allCombinations ix ids ∧ combinationCost c = cheapestSum ix ids.
Proof.
  induction ids as [|id ids IH]; intros Hav.
  - exists []. split; [by apply list_elem_of_singleton|done].
  - destruct IH as (c' & Hc' & Hcost).
    { intros id' Hin. apply Hav. apply elem_of_cons. by right. }
    destruct (cheapestPrice_cheapest id) as [(o & Ho & Hp) _].
    { apply Hav. apply elem_of_cons. by left. }
    exists (o :: c'). split.
    + apply elem_of_allCombinations_cons. by exists o, c'.
    + rewrite combinationCost_cons, cheapestSum_cons. lia.
Qed.

Lemma cheapestSum_minimumCost (ids : list string) :
  (∀ id, id ∈ ids → hasOption ix id) → minimumCost ix ids (cheapestSum ix ids).
Proof.
  intros Hav. split; [by apply cheapestSum_attained|].
  intros c. apply cheapestSum_lower.
Qed.

Lemma bestTotal_available (ids : list string) :
  (∀ id, id ∈ ids → hasOption ix id) → bestTotal ix ids = Fin (cheapestSum ix ids).
Proof.
  intros Hav. unfold bestTotal.
  by rewrite (proj2 (forallb_available ids) Hav).
Qed.
End CheapestFacts.


(** ** Comparisons of [number] *)

Lemma Math_min_Fin_Fin (b : number) (x y : Z) :
  Math_min (Math_min b (Fin x)) (Fin y) = Math_min b (Fin (Z.min x y)).
Proof.
  unfold Math_min. destruct b as [z|]; simpl.
  - destruct (x <? z) eqn:E1; simpl; destruct (y <? x) eqn:E2;
      destruct (y <? z) eqn:E3; destruct (Z.min x y <? z) eqn:E4;
      try apply Z.ltb_lt in E1; try apply Z.ltb_ge in E1;
      try apply Z.ltb_lt in E2; try apply Z.ltb_ge in E2;
      try apply Z.ltb_lt in E3; try apply Z.ltb_ge in E3;
      try apply Z.ltb_lt in E4; try apply Z.ltb_ge in E4;
      try (f_equal; lia); try lia.
  - destruct (y <? x) eqn:E2;
      try apply Z.ltb_lt in E2; try apply Z.ltb_ge in E2; f_equal; lia.
Qed.

(** The test of the terminal case: the lower cost wins, the shop count only
    breaks ties, so the stored cost is the minimum whatever the counts are. *)
Lemma improves_cost (currentCost shopCount : Z) (bestCost bestShopCount : number) :
  (if num_ltb (Fin currentCost) bestCost
      || (num_eqb (Fin currentCost) bestCost
          && num_ltb (Fin shopCount) bestShopCount)
   then Fin currentCost else bestCost)
  = Math_min bestCost (Fin currentCost).
Proof.
  unfold Math_min. destruct (num_ltb (Fin currentCost) bestCost) eqn:E; simpl; [done|].
  destruct bestCost as [b|]; simpl in *; [|done].
  destruct (currentCost =? b) eqn:E2; simpl; [|done].
  apply Z.eqb_eq in E2 as ->. by destruct bestShopCount as [y|]; [destruct (shopCount <? y)|].
Qed.

Lemma foldl_Math_min (f : PriceOption Z → Z) (l : list (PriceOption Z)) (b : number) (x k : Z) :
  foldl (λ b o, Math_min b (Fin (f o + k))) (Math_min b (Fin (x + k))) l
  = Math_min b (Fin (foldl Z.min x (f <$> l) + k)).
Proof.
  revert x. induction l as [|o l IH]; intros x; simpl; [done|].
  rewrite Math_min_Fin_Fin.
  replace (Z.min (x + k) (f o + k)) with (Z.min x (f o) + k) by lia.
  apply IH.
Qed.

(** ** bestPrice.ts computes the minimum cost *)

Section BruteForceFacts.
Variable ix : Index Z.
Variable ids : list string.

Lemma terminal_spec (currentCost : Z) (st : BestPrice.State) :
  BestPrice.currentSelection (BestPrice.terminal currentCost st)
    = BestPrice.currentSelection st
  ∧ BestPrice.bestCost (BestPrice.best (BestPrice.terminal currentCost st))
    = Math_min (BestPrice.bestCost (BestPrice.best st)) (Fin currentCost)
  ∧ (BestPrice.best (BestPrice.terminal currentCost st) = BestPrice.best st
     ∨ BestPrice.bestSelection (BestPrice.best (BestPrice.terminal currentCost st))
       = BestPrice.currentSelection st).
Proof.
  unfold BestPrice.terminal.
  rewrite <- (improves_cost currentCost (set_size (BestPrice.shopsUsedSet st))
                (BestPrice.bestCost (BestPrice.best st))
                (BestPrice.bestShopCount (BestPrice.best st))).
  destruct (_ || _); simpl; auto.
Qed.



Lemma forOptions_spec (rec : Z → BestPrice.State → option BestPrice.State)
    (low : Z) (todo : nat) (itemId : string) (c : Z)
    (options : list (PriceOption Z)) (st : BestPrice.State) :
  explores rec low todo →
  ∃ st',
    BestPrice.forOptions rec itemId c options st = Some st'
    ∧ BestPrice.currentSelection st' = BestPrice.currentSelection st
    ∧ BestPrice.bestCost (BestPrice.best st')
      = foldl (λ b o, Math_min b (Fin (price o + (c + low))))
              (BestPrice.bestCost (BestPrice.best st)) options
    ∧ (BestPrice.best st' = BestPrice.best st
       ∨ length (BestPrice.bestSelection (BestPrice.best st'))
         = (length (BestPrice.currentSelection st) + S todo)%nat).
Proof.
  intros Hrec. revert st.
  induction options as [|opt options IH]; intros st; simpl.
  - exists st. auto.
  - match goal with |- context [rec ?cost ?st1] =>
      destruct (Hrec cost st1) as (st2 & -> & Hsel & Hcost & Hbest) end.
    simpl in Hsel, Hcost, Hbest.
    match goal with |- context [BestPrice.forOptions _ _ _ _ ?st3] =>
      destruct (IH st3) as (st' & -> & Hsel' & Hcost' & Hbest') end.
    simpl in Hsel', Hcost', Hbest'.
    rewrite Hsel, removelast_last in Hsel', Hbest'.
    exists st'. split; [done|]. split; [done|]. split.
    + rewrite Hcost', Hcost. do 2 f_equal. f_equal. lia.
    + destruct Hbest' as [->|Hlen]; [|by right].
      destruct Hbest as [->|Hlen]; [by left|right].
      rewrite Hlen, length_app. simpl. lia.
Qed.

Lemma backtrack_spec (depth index : nat) :
  (length ids - index < depth)%nat → (index ≤ length ids)%nat →
  (∀ id, id ∈ drop index ids → hasOption ix id) →
  explores (BestPrice.backtrack ix ids depth index)
           (cheapestSum ix (drop index ids)) (length ids - index).
Proof.
  revert index. induction depth as [|depth IH]; intros index Hd Hi Hav c st; [lia|].
  simpl. destruct (decide (index = length ids)) as [->|Hne].
  - rewrite drop_all, Nat.sub_diag. simpl.
    destruct (terminal_spec c st) as (Hsel & Hcost & Hbest).
    eexists. split; [done|]. split; [done|]. split.
    + rewrite Hcost. do 2 f_equal. lia.
    + destruct Hbest as [-> | ->]; [by left|right; lia].
  - destruct (lookup_lt_is_Some_2 ids index) as [id Hid]; [lia|].
    rewrite Hid. rewrite (drop_S _ _ _ Hid) in Hav |- *.
    destruct (Hav id) as (first & rest & Hopt); [apply elem_of_cons; by left|].
    rewrite Hopt.
    destruct (forOptions_spec (BestPrice.backtrack ix ids depth (S index))
                (cheapestSum ix (drop (S index) ids)) (length ids - S index)
                id c (first :: rest) st) as (st' & -> & Hsel & Hcost & Hbest).
    { apply IH; [lia|lia|]. intros id' Hin. apply Hav, elem_of_cons. by right. }
    exists st'. split; [done|]. split; [done|]. split.
    + rewrite Hcost. cbn [foldl].
      rewrite (foldl_Math_min price rest _ (price first)).
      fold (BestPriceDPOptimized.minPrice first rest).
      rewrite (minPrice_cheapestPrice ix id first rest Hopt), cheapestSum_cons.
      do 2 f_equal. lia.
    + destruct Hbest as [->|Hlen]; [by left|right]. rewrite Hlen. lia.
Qed.

(** On every request with at least one item, each with an option, the
    brute force prints a plan whose cost is the sum of the cheapest
    prices. *)
Lemma bruteForce_solve :
  ids ≠ [] → (∀ id, id ∈ ids → hasOption ix id) →
  ∃ r, BestPrice.solve ix ids = Some (Plan r)
       ∧ totalCost r = Fin (cheapestSum ix ids).
Proof.
  intros Hne Hav. unfold BestPrice.solve.
  destruct (backtrack_spec (S (length ids)) 0) with (c := 0)
    (st := BestPrice.mkState [] [] (BestPrice.mkBest Infinity Infinity []))
    as (st' & -> & _ & Hcost & Hbest); [lia|lia|done|].
  simpl in Hcost, Hbest. rewrite Nat.sub_0_r in Hbest.
  destruct Hbest as [Hb|Hlen].
  { rewrite Hb in Hcost. done. }
  destruct (decide _) as [Hz|_].
  { destruct ids; [done|]. simpl in Hlen. lia. }
  eexists. split; [done|]. simpl. rewrite Hcost. done.
Qed.
End BruteForceFacts.



(** ** bestPriceDP.ts computes the minimum cost *)

Section MemoizedFacts.
Variable gas : nat.
Variable ix : Index Z.
Variable ids : list string.
Hypothesis Hgas : (32 ≤ gas)%nat.
Hypothesis Hbits : noSignBit ix ids.

Lemma bestTotal_cons (id : string) (l : list string) :
  bestTotal ix (id :: l)
  = if available ix id
    then match bestTotal ix l with
         | Fin t => Fin (cheapestPrice ix id + t)
         | Infinity => Infinity
         end
    else Infinity.
Proof.
  unfold bestTotal. simpl.
  destruct (available ix id); [|done]. simpl. by destruct (forallb _ l).
Qed.

Lemma memoSound_insert (memo : gmap (nat * Z) BestPriceDP.DPState)
    (i : nat) (mask : Z) (st : BestPriceDP.DPState) :
  memoSound ix ids memo →
  BestPriceDP.cost st = bestTotal ix (drop i ids) →
  maskInRange (BestPriceDP.shops st) →
  memoSound ix ids (<[BestPriceDP.stateKey i mask := st]> memo).
Proof.
  intros Hm Hc Hs j m st'. unfold BestPriceDP.stateKey.
  destruct (decide ((i, mask) = (j, m))) as [[= <- <-]|Hne].
  - rewrite lookup_insert_eq. by intros [= <-].
  - rewrite lookup_insert_ne by done. apply Hm.
Qed.

Lemma dp_forOptions_cons
    (rec : Z → gmap (nat * Z) BestPriceDP.DPState
           → option (BestPriceDP.DPState * gmap (nat * Z) BestPriceDP.DPState))
    (itemId : string) (mask : Z) (opt : PriceOption Z) (rest : list (PriceOption Z))
    (acc : BestPriceDP.Acc) (memo : gmap (nat * Z) BestPriceDP.DPState) :
  BestPriceDP.forOptions gas rec itemId mask (opt :: rest) acc memo
  = let newShopsBitmask := bor mask (shl 1 (Z.of_nat (shopIndex opt))) in
    match rec newShopsBitmask memo with
    | None => None
    | Some (futureState, memo') =>
        match BestPriceDP.cost futureState with
        | Infinity => BestPriceDP.forOptions gas rec itemId mask rest acc memo'
        | Fin futureCost =>
            let totalCost := price opt + futureCost in
            match popcount gas newShopsBitmask with
            | None => None
            | Some shopCount =>
                if num_ltb (Fin totalCost) (BestPriceDP.bestCost acc)
                   || (num_eqb (Fin totalCost) (BestPriceDP.bestCost acc)
                       && num_ltb (Fin shopCount) (BestPriceDP.bestShopCount acc))
                then
                  BestPriceDP.forOptions gas rec itemId mask rest
                    (BestPriceDP.mkAcc
                       (Some (BestPriceDP.mkBestOption itemId (shop opt) (price opt)
                                futureState newShopsBitmask))
                       (Fin totalCost) (Fin shopCount))
                    memo'
                else BestPriceDP.forOptions gas rec itemId mask rest acc memo'
            end
        end
    end.
Proof. done. Qed.

Lemma dp_forOptions_spec
    (rec : Z → gmap (nat * Z) BestPriceDP.DPState
           → option (BestPriceDP.DPState * gmap (nat * Z) BestPriceDP.DPState))
    (i : nat) (itemId : string) (mask : Z) (options : list (PriceOption Z))
    (acc : BestPriceDP.Acc) (memo : gmap (nat * Z) BestPriceDP.DPState) :
  solves ix ids rec (S i) →
  (∀ o, o ∈ options → ¬ signBit o) →
  maskInRange mask → memoSound ix ids memo → accInRange acc →
  ∃ acc' memo',
    BestPriceDP.forOptions gas rec itemId mask options acc memo = Some (acc', memo')
    ∧ memoSound ix ids memo' ∧ accInRange acc'
    ∧ match bestTotal ix (drop (S i) ids) with
      | Infinity => acc' = acc
      | Fin t =>
          BestPriceDP.bestCost acc'
          = foldl (λ b o, Math_min b (Fin (price o + t))) (BestPriceDP.bestCost acc) options
          ∧ (BestPriceDP.bestOption acc' = None →
             BestPriceDP.bestOption acc = None ∧ options = [])
      end.
Proof.
  intros Hrec. revert acc memo.
  induction options as [|opt options IH]; intros acc memo Hopts Hmask Hmemo Hacc.
  - exists acc, memo. split; [done|]. split; [done|]. split; [done|].
    by destruct (bestTotal ix (drop (S i) ids)).
  - rewrite dp_forOptions_cons. cbv zeta.
    assert (maskInRange (bor mask (shl 1 (Z.of_nat (shopIndex opt))))) as Hnew.
    { apply bor_shl_clear; [done|]. apply Hopts, elem_of_cons. by left. }
    destruct (Hrec _ memo Hnew Hmemo) as (future & memo1 & -> & Hcost & Hshops & Hmemo1).
    assert (∀ o, o ∈ options → ¬ signBit o) as Hopts'.
    { intros o Ho. apply Hopts, elem_of_cons. by right. }
    rewrite Hcost.
    destruct (bestTotal ix (drop (S i) ids)) as [t|] eqn:Ht.
    + destruct (popcount_returns gas _ Hgas Hnew) as [shopCount ->].
      pose proof (improves_cost (price opt + t) shopCount
                    (BestPriceDP.bestCost acc) (BestPriceDP.bestShopCount acc)) as Himp.
      destruct (_ || _) eqn:Etest.
      * match goal with |- context [BestPriceDP.forOptions _ _ _ _ _ ?acc1 _] =>
          destruct (IH acc1 memo1) as (acc' & memo' & -> & Hm & Ha & Hc & Hn) end;
          [done|done|done| |].
        { split; [done|]. intros bo [= <-]. done. }
        exists acc', memo'. split; [done|]. split; [done|]. split; [done|].
        split.
        -- rewrite Hc. cbn [foldl]. by rewrite <- Himp.
        -- intros Hnone. by destruct (Hn Hnone).
      * destruct (IH acc memo1) as (acc' & memo' & -> & Hm & Ha & Hc & Hn);
          [done|done|done|done|].
        exists acc', memo'. split; [done|]. split; [done|]. split; [done|].
        split.
        -- rewrite Hc. cbn [foldl]. by rewrite <- Himp.
        -- intros Hnone. destruct (Hn Hnone) as [Hb ->].
           destruct Hacc as [Hinf _]. rewrite (Hinf Hb) in Etest. done.
    + destruct (IH acc memo1) as (acc' & memo' & -> & Hm & Ha & Hc);
        [done|done|done|done|].
      by exists acc', memo'.
Qed.

Lemma dp_spec (depth i : nat) :
  (length ids - i < depth)%nat → (i ≤ length ids)%nat →
  solves ix ids (BestPriceDP.dp gas ix ids depth i) i.
Proof.
  revert i. induction depth as [|depth IH]; intros i Hd Hi mask memo Hmask Hmemo; [lia|].
  cbn [BestPriceDP.dp]. destruct (decide (i = length ids)) as [->|Hne].
  - rewrite drop_all. eexists _, memo. by split.
  - destruct (memo !! BestPriceDP.stateKey i mask) as [st|] eqn:Ememo.
    { destruct (Hmemo _ _ _ Ememo). by exists st, memo. }
    destruct (lookup_lt_is_Some_2 ids i) as [id Hid]; [lia|].
    assert (∀ memo1, memoSound ix ids memo1 →
              bestTotal ix (drop i ids) = Infinity →
              ∃ st' memo',
                Some (BestPriceDP.mkDPState Infinity [] mask,
                      <[BestPriceDP.stateKey i mask :=
                          BestPriceDP.mkDPState Infinity [] mask]> memo1)
                = Some (st', memo')
                ∧ BestPriceDP.cost st' = bestTotal ix (drop i ids)
                ∧ maskInRange (BestPriceDP.shops st')
                ∧ memoSound ix ids memo') as Hnone.
    { intros memo1 Hm1 Hbt. eexists _, _. split; [done|]. split; [by rewrite Hbt|].
      split; [done|]. apply memoSound_insert; [done|by rewrite Hbt|done]. }
    rewrite Hid. cbv zeta.
    pose proof (bestTotal_cons id (drop (S i) ids)) as Hbt.
    rewrite <- (drop_S _ _ _ Hid) in Hbt. unfold available in Hbt.
    destruct (itemToShops ix !! id) as [[|first rest]|] eqn:Eopt.
    + by apply Hnone.
    + destruct (dp_forOptions_spec (BestPriceDP.dp gas ix ids depth (S i)) i id mask
                  (first :: rest) (BestPriceDP.mkAcc None Infinity Infinity) memo)
        as (acc & memo' & -> & Hm & Ha & Hc); [| |done|done| |].
      { apply IH; lia. }
      { intros o Ho. apply (Hbits id (first :: rest)); [|done|done].
        by eapply list_elem_of_lookup_2. }
      { by split. }
      destruct (bestTotal ix (drop (S i) ids)) as [t|] eqn:Ht.
      * destruct Hc as [Hc Hn]. destruct (BestPriceDP.bestOption acc) as [bo|] eqn:Ebo.
        -- assert (BestPriceDP.bestCost acc = bestTotal ix (drop i ids)) as Hbest.
           { rewrite Hc, Hbt. cbn [foldl BestPriceDP.bestCost].
             rewrite (foldl_Math_min price rest Infinity (price first) t).
             fold (BestPriceDPOptimized.minPrice first rest).
             by rewrite (minPrice_cheapestPrice ix id first rest Eopt). }
           destruct Ha as [_ Ha]. specialize (Ha bo Ebo).
           eexists _, _. split; [done|]. split; [done|]. split; [done|].
           by apply memoSound_insert.
        -- by destruct (Hn eq_refl).
      * subst acc. cbn [BestPriceDP.bestOption]. by apply Hnone.
    + by apply Hnone.
Qed.

(** Without the sign bit the memoized search reports the best total: a
    plan of that cost when there is one, "no solution" otherwise. *)
Lemma memoized_solve :
  match bestTotal ix ids with
  | Fin t => ∃ r, BestPriceDP.solve gas ix ids = Some (Plan r) ∧ totalCost r = Fin t
  | Infinity => BestPriceDP.solve gas ix ids = Some NoSolution
  end.
Proof.
  unfold BestPriceDP.solve.
  destruct (dp_spec (S (length ids)) 0) with
    (mask := 0) (memo := (∅ : gmap (nat * Z) BestPriceDP.DPState))
    as (st & memo' & -> & Hcost & Hshops & _); [lia|lia|done| |].
  { intros j m st. by rewrite lookup_empty. }
  rewrite drop_0 in Hcost. rewrite Hcost.
  destruct (bestTotal ix ids) as [t|]; [|done].
  destruct (popcount_returns gas _ Hgas Hshops) as [shopCount ->].
  eexists. split; [done|]. done.
Qed.
End MemoizedFacts.


(** ** bestPriceDP.ts: the search and the sign bit *)

Section SignBitFacts.
Variable gas : nat.
Variable ix : Index Z.
Variable ids : list string.
Hypothesis Hav : ∀ id, id ∈ ids → hasOption ix id.

Lemma signBitFrom_S (i : nat) : signBitFrom ix ids (S i) → signBitFrom ix ids i.
Proof.
  intros (j & id & opts & o & Hj & H). exists j, id, opts, o. split; [lia|done].
Qed.

(** A sign bit from [i] on is one of the item at [i] or of a later one. *)
Lemma signBitFrom_cases (i : nat) (id : string) (opts : list (PriceOption Z)) :
  ids !! i = Some id → itemToShops ix !! id = Some opts →
  signBitFrom ix ids i → (∃ o, o ∈ opts ∧ signBit o) ∨ signBitFrom ix ids (S i).
Proof.
  intros Hid Hopts (j & id' & opts' & o & Hj & Hid' & Hopts' & Ho & Hs).
  destruct (decide (j = i)) as [->|Hne].
  - left. exists o. split; [|done]. congruence.
  - right. exists j, id', opts', o. split; [lia|done].
Qed.

Lemma signBitFrom_end (i : nat) : (length ids ≤ i)%nat → ¬ signBitFrom ix ids i.
Proof.
  intros Hi (j & id & _ & _ & Hj & Hid & _). apply lookup_lt_Some in Hid. lia.
Qed.

Lemma memoFree_insert (memo : gmap (nat * Z) BestPriceDP.DPState)
    (i : nat) (mask : Z) (st : BestPriceDP.DPState) :
  memoFree ix ids memo → maskInRange mask → ¬ signBitFrom ix ids i →
  BestPriceDP.cost st ≠ Infinity →
  memoFree ix ids (<[BestPriceDP.stateKey i mask := st]> memo).
Proof.
  intros Hm Hmask Hno Hc k m st'. unfold BestPriceDP.stateKey.
  destruct (decide ((i, mask) = (k, m))) as [[= <- <-]|Hne].
  - rewrite lookup_insert_eq. by intros [= <-].
  - rewrite lookup_insert_ne by done. apply Hm.
Qed.

(** *** Calls that are not stuck *)

Lemma dp_forOptions_free
    (rec : Z → gmap (nat * Z) BestPriceDP.DPState
           → option (BestPriceDP.DPState * gmap (nat * Z) BestPriceDP.DPState))
    (id : string) (mask : Z) (options : list (PriceOption Z)) :
  (∀ m memo st memo', maskInRange m → memoFree ix ids memo →
     rec m memo = Some (st, memo') →
     BestPriceDP.cost st ≠ Infinity ∧ memoFree ix ids memo') →
  maskInRange mask → (∀ o, o ∈ options → ¬ signBit o) →
  ∀ acc memo acc' memo',
    memoFree ix ids memo → accFinite acc →
    BestPriceDP.forOptions gas rec id mask options acc memo = Some (acc', memo') →
    memoFree ix ids memo' ∧ accFinite acc'
    ∧ (options ≠ [] ∨ BestPriceDP.bestOption acc ≠ None →
       BestPriceDP.bestOption acc' ≠ None).
Proof.
  intros Hrec Hmask.
  induction options as [|opt options IH]; intros Hclear acc memo acc' memo' Hmemo Hacc.
  - intros [= <- <-]. split; [done|]. split; [done|]. by intros [?|?].
  - rewrite dp_forOptions_cons. cbv zeta.
    assert (Hnew : maskInRange (bor mask (shl 1 (Z.of_nat (shopIndex opt))))).
    { apply bor_shl_clear; [done|]. apply Hclear, elem_of_cons. by left. }
    assert (Hclear' : ∀ o, o ∈ options → ¬ signBit o).
    { intros o Ho. apply Hclear, elem_of_cons. by right. }
    destruct (rec _ memo) as [[future memo1]|] eqn:Erec; [|done].
    destruct (Hrec _ _ _ _ Hnew Hmemo Erec) as [Hfin Hmemo1].
    destruct (BestPriceDP.cost future) as [futureCost|] eqn:Ecost; [|done].
    destruct (popcount gas _) as [shopCount|]; [|done].
    destruct (_ || _) eqn:Etest.
    + intros Hloop. apply IH in Hloop as (Hm & Ha & Hsome); [|done|done|done].
      split; [done|]. split; [done|]. intros _. apply Hsome. by right.
    + intros Hloop. apply IH in Hloop as (Hm & Ha & Hsome); [|done|done|done].
      split; [done|]. split; [done|]. intros _. apply Hsome. right.
      unfold accFinite in Hacc. destruct (BestPriceDP.bestOption acc); [done|].
      rewrite Hacc in Etest. done.
Qed.

Lemma dp_free (depth i : nat) (mask : Z)
    (memo memo' : gmap (nat * Z) BestPriceDP.DPState) (st : BestPriceDP.DPState) :
  (i ≤ length ids)%nat → maskInRange mask → ¬ signBitFrom ix ids i →
  memoFree ix ids memo →
  BestPriceDP.dp gas ix ids depth i mask memo = Some (st, memo') →
  BestPriceDP.cost st ≠ Infinity ∧ memoFree ix ids memo'.
Proof.
  revert i mask memo memo' st.
  induction depth as [|depth IH]; intros i mask memo memo' st Hi Hmask Hno Hmemo; [done|].
  cbn [BestPriceDP.dp]. destruct (decide (i = length ids)) as [->|Hne].
  { by intros [= <- <-]. }
  destruct (memo !! BestPriceDP.stateKey i mask) as [hit|] eqn:Ememo.
  { intros [= <- <-]. split; [|done]. by destruct (Hmemo _ _ _ Ememo) as (_ & _ & ?). }
  destruct (lookup_lt_is_Some_2 ids i) as [id Hid]; [lia|].
  rewrite Hid. cbv zeta.
  destruct (Hav id) as (first & rest & Eopt); [by eapply list_elem_of_lookup_2|].
  rewrite Eopt.
  destruct (BestPriceDP.forOptions gas _ id mask (first :: rest) _ memo)
    as [[acc memo1]|] eqn:Eloop; [|done].
  apply (dp_forOptions_free (BestPriceDP.dp gas ix ids depth (S i)) id mask (first :: rest))
    in Eloop as (Hmemo1 & Hacc & Hsome); [| |done| |done|done].
  - destruct (BestPriceDP.bestOption acc) as [bo|] eqn:Ebo; [|by destruct Hsome; [left|]].
    intros [= <- <-]. unfold accFinite in Hacc. rewrite Ebo in Hacc.
    split; [done|]. by apply memoFree_insert.
  - intros m memo2 st2 memo2' Hm Hmemo2. apply IH; [lia|done| |done].
    intros Hs. by apply Hno, signBitFrom_S.
  - intros o Ho Hs. apply Hno. by exists i, id, (first :: rest), o.
Qed.

(** *** Calls that are stuck *)

(** The call for the next item with a negative mask does not get past
    [popcount]. *)
Lemma dp_forOptions_negative
    (rec : Z → gmap (nat * Z) BestPriceDP.DPState
           → option (BestPriceDP.DPState * gmap (nat * Z) BestPriceDP.DPState))
    (id : string) (mask : Z) (opt : PriceOption Z) (rest : list (PriceOption Z))
    (acc : BestPriceDP.Acc) (memo : gmap (nat * Z) BestPriceDP.DPState) :
  - 2 ^ 31 ≤ mask < 2 ^ 31 →
  (mask < 0 ∨ signBit opt) →
  (∀ st memo', rec (bor mask (shl 1 (Z.of_nat (shopIndex opt)))) memo = Some (st, memo') →
     BestPriceDP.cost st ≠ Infinity) →
  BestPriceDP.forOptions gas rec id mask (opt :: rest) acc memo = None.
Proof.
  intros Hmask Hneg Hrec. rewrite dp_forOptions_cons. cbv zeta.
  destruct (rec _ memo) as [[future memo1]|] eqn:Erec; [|done].
  specialize (Hrec _ _ eq_refl).
  destruct (BestPriceDP.cost future) as [futureCost|]; [|done].
  destruct (bor_int32 mask (shl 1 (Z.of_nat (shopIndex opt))) Hmask (shl_1_int32 _))
    as [Hrange Hsign].
  unfold popcount. rewrite popcount_loop_diverges; [done|].
  split; [lia|]. apply Hsign.
  destruct Hneg as [?|Hs]; [by left|right]. rewrite (shl_1_sign opt Hs). lia.
Qed.

Lemma dp_stuck (depth i : nat) (mask : Z) (memo : gmap (nat * Z) BestPriceDP.DPState) :
  stuck ix ids i mask → memoFree ix ids memo →
  BestPriceDP.dp gas ix ids depth i mask memo = None.
Proof.
  revert i mask memo.
  induction depth as [|depth IH]; intros i mask memo (Hi & Hmask & Hwhy) Hmemo; [done|].
  cbn [BestPriceDP.dp]. destruct (decide (i = length ids)) as [->|_]; [lia|].
  destruct (memo !! BestPriceDP.stateKey i mask) as [hit|] eqn:Ememo.
  { destruct (Hmemo _ _ _ Ememo) as (Hm & Hno & _). unfold maskInRange in Hm.
    destruct Hwhy as [?|?]; [lia|done]. }
  destruct (lookup_lt_is_Some_2 ids i Hi) as [id Hid]. rewrite Hid. cbv zeta.
  destruct (Hav id) as (first & rest & Eopt); [by eapply list_elem_of_lookup_2|].
  rewrite Eopt.
  (* what the call for the next item returns, when it returns *)
  assert (Hnext : ∀ m memo1 st memo',
            - 2 ^ 31 ≤ m < 2 ^ 31 → memoFree ix ids memo1 →
            BestPriceDP.dp gas ix ids depth (S i) m memo1 = Some (st, memo') →
            BestPriceDP.cost st ≠ Infinity ∧ memoFree ix ids memo').
  { intros m memo1 st memo' Hm Hmemo1 Hdp.
    destruct (decide (S i = length ids)) as [Hend|Hmore].
    - destruct depth as [|depth']; [done|]. cbn [BestPriceDP.dp] in Hdp.
      destruct (decide (S i = length ids)); [|done]. by injection Hdp as <- <-.
    - assert (Hns : ¬ stuck ix ids (S i) m).
      { intros Hst. by rewrite (IH _ _ _ Hst Hmemo1) in Hdp. }
      apply (dp_free depth (S i) m memo1 memo' st); [lia| | |done|done].
      + split; [|lia]. destruct (Z.neg_nonneg_cases m) as [Hn|?]; [|done].
        destruct Hns. split; [lia|]. split; [done|by left].
      + intros Hs. destruct Hns. split; [lia|]. split; [done|by right]. }
  (* a negative mask, or a sign bit still to come: the first option *)
  assert (Hfirst : mask < 0 ∨ signBitFrom ix ids (S i) →
            BestPriceDP.forOptions gas (BestPriceDP.dp gas ix ids depth (S i))
              id mask (first :: rest) (BestPriceDP.mkAcc None Infinity Infinity) memo
            = None).
  { intros Hcase.
    destruct (bor_int32 mask (shl 1 (Z.of_nat (shopIndex first))) Hmask (shl_1_int32 _))
      as [Hrange Hsign].
    destruct (decide (S i = length ids)) as [Hend|Hmore].
    - destruct Hcase as [Hneg|Hs]; [|by apply signBitFrom_end in Hs; [|lia]].
      apply dp_forOptions_negative; [done|by left|].
      intros st memo' Hdp. by destruct (Hnext _ _ _ _ Hrange Hmemo Hdp).
    - rewrite dp_forOptions_cons. cbv zeta. rewrite IH; [done| |done].
      split; [lia|]. split; [done|].
      destruct Hcase as [Hneg|Hs]; [left; apply Hsign; by left|by right]. }
  (* the sign bit is one of this item: the loop gets to it *)
  assert (Hloop : ∀ options, (∃ o, o ∈ options ∧ signBit o) →
            ∀ acc memo1, memoFree ix ids memo1 →
              BestPriceDP.forOptions gas (BestPriceDP.dp gas ix ids depth (S i))
                id mask options acc memo1 = None).
  { induction options as [|opt options IHo]; intros (o & Ho & Hs) acc memo1 Hmemo1.
    { by apply elem_of_nil in Ho. }
    destruct (bor_int32 mask (shl 1 (Z.of_nat (shopIndex opt))) Hmask (shl_1_int32 _))
      as [Hrange _].
    destruct (decide (signBit opt)) as [Hopt|Hopt].
    - apply dp_forOptions_negative; [done|by right|].
      intros st memo' Hdp. by destruct (Hnext _ _ _ _ Hrange Hmemo1 Hdp).
    - assert (Hrest : ∃ o, o ∈ options ∧ signBit o).
      { exists o. split; [|done]. apply elem_of_cons in Ho as [->|?]; [done|done]. }
      rewrite dp_forOptions_cons. cbv zeta.
      destruct (BestPriceDP.dp gas ix ids depth (S i) _ memo1)
        as [[future memo2]|] eqn:Erec; [|done].
      destruct (Hnext _ _ _ _ Hrange Hmemo1 Erec) as [Hfin Hmemo2].
      destruct (BestPriceDP.cost future) as [futureCost|]; [|done].
      destruct (popcount gas _) as [shopCount|]; [|done].
      destruct (_ || _); by apply IHo. }
  destruct (Z.neg_nonneg_cases mask) as [Hneg|Hpos].
  { rewrite Hfirst; [done|by left]. }
  destruct Hwhy as [?|Hfrom]; [lia|].
  destruct (signBitFrom_cases i id (first :: rest) Hid Eopt Hfrom) as [Hhere|Hlater].
  - by rewrite Hloop.
  - rewrite Hfirst; [done|by right].
Qed.

(** With an option for every requested item, the memoized search never
    returns when a vendor with the sign bit lists a requested item. *)
Lemma memoized_stuck :
  signBitFrom ix ids 0 → BestPriceDP.solve gas ix ids = None.
Proof.
  intros Hfrom. unfold BestPriceDP.solve. rewrite dp_stuck; [done| |].
  - destruct Hfrom as (j & id & opts & o & Hj & Hid & H).
    split; [apply lookup_lt_Some in Hid; lia|]. split; [lia|]. right.
    by exists j, id, opts, o.
  - intros k m st. by rewrite lookup_empty.
Qed.
End SignBitFacts.



(** ** bestPriceDPOptimized.ts: the search never moves the ceiling *)

Section SortFacts.
Lemma elem_of_insertByPrice (x o : PriceOption Z) (l : list (PriceOption Z)) :
  o ∈ BestPriceDPOptimized.insertByPrice x l ↔ o = x ∨ o ∈ l.
Proof.
  induction l as [|y l IH]; simpl.
  - rewrite list_elem_of_singleton, elem_of_nil. tauto.
  - destruct (price x <=? price y).
    + by rewrite elem_of_cons.
    + rewrite !elem_of_cons, IH. tauto.
Qed.

Lemma elem_of_sortByPrice (o : PriceOption Z) (l : list (PriceOption Z)) :
  o ∈ BestPriceDPOptimized.sortByPrice l ↔ o ∈ l.
Proof.
  induction l as [|x l IH]; simpl; [done|].
  by rewrite elem_of_insertByPrice, elem_of_cons, IH.
Qed.

(** The sorted array starts with a cheapest option. *)
Lemma sortByPrice_head (l : list (PriceOption Z)) (h : PriceOption Z)
    (t : list (PriceOption Z)) :
  BestPriceDPOptimized.sortByPrice l = h :: t → ∀ o, o ∈ l → price h ≤ price o.
Proof.
  revert h t. induction l as [|x l IH]; intros h t Hs o Ho.
  - by apply elem_of_nil in Ho.
  - simpl in Hs.
    destruct (BestPriceDPOptimized.sortByPrice l) as [|y s] eqn:E.
    + simpl in Hs. injection Hs as <- <-.
      apply elem_of_cons in Ho as [->|Ho]; [done|].
      apply elem_of_sortByPrice in Ho. rewrite E in Ho. by apply elem_of_nil in Ho.
    + simpl in Hs. destruct (price x <=? price y) eqn:Hle.
      * injection Hs as <- <-. apply Z.leb_le in Hle.
        apply elem_of_cons in Ho as [->|Ho]; [done|].
        specialize (IH y s eq_refl o Ho). lia.
      * injection Hs as <- <-. apply Z.leb_gt in Hle.
        apply elem_of_cons in Ho as [->|Ho]; [lia|].
        by apply (IH y s eq_refl).
Qed.

Lemma sortByPrice_cons (first : PriceOption Z) (rest : list (PriceOption Z)) :
  ∃ h t, BestPriceDPOptimized.sortByPrice (first :: rest) = h :: t
         ∧ price h = BestPriceDPOptimized.minPrice first rest.
Proof.
  destruct (BestPriceDPOptimized.sortByPrice (first :: rest)) as [|h t] eqn:E.
  - assert (first ∈ BestPriceDPOptimized.sortByPrice (first :: rest)) as Hin.
    { apply elem_of_sortByPrice, elem_of_cons. by left. }
    rewrite E in Hin. by apply elem_of_nil in Hin.
  - exists h, t. split; [done|].
    assert (h ∈ first :: rest) as Hh.
    { apply elem_of_sortByPrice. rewrite E. apply elem_of_cons. by left. }
    destruct (minPrice_in first rest) as (m & Hm & Hpm).
    pose proof (sortByPrice_head _ _ _ E m Hm).
    pose proof (minPrice_le first rest h Hh). lia.
Qed.
End SortFacts.

Section BranchAndBoundFacts.
Variable gas : nat.
Variable ix : Index Z.
Variable ids : list string.



Lemma primed_invariant : searchInvariant ix ids (BestPriceDPOptimized.primed ix ids).
Proof.
  split.
  - unfold BestPriceDPOptimized.primed. simpl. by rewrite getGreedyUpperBound_cost.
  - intros key value. unfold BestPriceDPOptimized.primed. simpl.
    by rewrite lookup_empty.
Qed.

Lemma visit_root : visit ix ids 0 0.
Proof.
  split; [lia|]. exists []. rewrite take_0. split; [|done].
  by apply list_elem_of_singleton.
Qed.

(** Every call of [dp] whose cost and lower bound reach the ceiling
    returns [Infinity] without recursing: the ceiling and the shop count
    stay, and the memo gains at most the entry [Infinity] of the state. *)
Lemma dp_pruned (depth i : nat) (mask c : Z) (st : BestPriceDPOptimized.DP) :
  searchInvariant ix ids st → (i ≤ length ids)%nat →
  cheapestSum ix ids ≤ c + cheapestSum ix (drop i ids) →
  ∃ st',
    BestPriceDPOptimized.dp gas ix ids (S depth) i mask c st = Some (Infinity, st')
    ∧ searchInvariant ix ids st'
    ∧ BestPriceDPOptimized.bestCost st' = BestPriceDPOptimized.bestCost st
    ∧ BestPriceDPOptimized.bestShopCount st' = BestPriceDPOptimized.bestShopCount st
    ∧ (BestPriceDPOptimized.memo st' = BestPriceDPOptimized.memo st
       ∨ BestPriceDPOptimized.memo st'
         = <[BestPriceDPOptimized.stateKey i mask := Infinity]>
             (BestPriceDPOptimized.memo st))
    ∧ (BestPriceDPOptimized.memoHits st' = BestPriceDPOptimized.memoHits st
       ∨ is_Some (BestPriceDPOptimized.memo st !! BestPriceDPOptimized.stateKey i mask)).
Proof.
  intros [Hbest Hmemo] Hi Hreach.
  assert (∀ st1, BestPriceDPOptimized.bestCost st1 = BestPriceDPOptimized.bestCost st →
            BestPriceDPOptimized.memo st1
            = <[BestPriceDPOptimized.stateKey i mask := Infinity]>
                (BestPriceDPOptimized.memo st) →
            searchInvariant ix ids st1) as Hset.
  { intros st1 Hb Hm. split; [by rewrite Hb|]. intros key value. rewrite Hm.
    destruct (decide (BestPriceDPOptimized.stateKey i mask = key)) as [<-|Hne].
    - rewrite lookup_insert_eq. by intros [= <-].
    - rewrite lookup_insert_ne by done. apply Hmemo. }
  cbn [BestPriceDPOptimized.dp]. rewrite Hbest.
  destruct (num_geb (Fin c) (Fin (cheapestSum ix ids))) eqn:Egeb.
  { eexists. split; [done|]. split; [by split|]. simpl. auto 10. }
  destruct (decide (i = length ids)) as [->|Hne].
  { rewrite drop_all in Hreach. simpl in Hreach, Egeb.
    apply Z.leb_gt in Egeb. lia. }
  destruct (BestPriceDPOptimized.memo st !! BestPriceDPOptimized.stateKey i mask)
    as [value|] eqn:Ememo.
  { rewrite (Hmemo _ _ Ememo). eexists. split; [done|]. split; [by split|].
    simpl. eauto 10. }
  cbv zeta. cbn [BestPriceDPOptimized.bestCost BestPriceDPOptimized.explored].
  destruct (ids !! i ≫= (itemToShops ix !!.)) as [[|first rest]|].
  - eexists. split; [done|]. split; [by apply Hset|]. simpl. auto 10.
  - rewrite Hbest, getLowerBound_cheapestSum.
    destruct (num_geb (Fin (c + cheapestSum ix (drop i ids)))
                      (Fin (cheapestSum ix ids))) eqn:Elb.
    + eexists. split; [done|]. split; [by apply Hset|]. simpl. auto 10.
    + simpl in Elb. apply Z.leb_gt in Elb. lia.
  - eexists. split; [done|]. split; [by apply Hset|]. simpl. auto 10.
Qed.

(** The search as the file starts it: one call, pruned at the root. *)
Lemma search_pruned :
  ∃ st,
    BestPriceDPOptimized.search gas ix ids = Some (Infinity, st)
    ∧ searchInvariant ix ids st
    ∧ BestPriceDPOptimized.bestCost st
      = Fin (BestPriceDPOptimized.cost (BestPriceDPOptimized.getGreedyUpperBound ix ids))
    ∧ BestPriceDPOptimized.bestShopCount st
      = Fin (BestPriceDPOptimized.shopCount
               (BestPriceDPOptimized.getGreedyUpperBound ix ids))
    ∧ BestPriceDPOptimized.memoHits st = 0%nat
    ∧ (BestPriceDPOptimized.memo st = ∅
       ∨ BestPriceDPOptimized.memo st
         = {[BestPriceDPOptimized.stateKey 0 0 := Infinity]}).
Proof.
  unfold BestPriceDPOptimized.search.
  destruct (dp_pruned (length ids) 0 0 0 (BestPriceDPOptimized.primed ix ids))
    as (st & -> & Hinv & Hb & Hs & Hm & Hh).
  - apply primed_invariant.
  - lia.
  - rewrite drop_0. lia.
  - exists st. split; [done|]. split; [done|]. split; [by rewrite Hb|].
    split; [by rewrite Hs|]. split.
    + destruct Hh as [->|[v Hv]]; [done|]. simpl in Hv. by rewrite lookup_empty in Hv.
    + destruct Hm as [-> | ->]; [by left|by right].
Qed.
End BranchAndBoundFacts.



(** ** bestPriceDPOptimized.ts: the replay and the result *)

Section ReplayFacts.
Variable ix : Index Z.
Variable ids : list string.

Lemma withinTolerance_le (total best : Z) :
  total ≤ best → BestPriceDPOptimized.withinTolerance total (Fin best) = true.
Proof. intros H. unfold BestPriceDPOptimized.withinTolerance. apply Z.leb_le. lia. Qed.

(** The replay takes the cheapest option of every item, and throws at the
    first item without an entry. *)
Lemma reconstruct_spec (depth index : nat) (mask cost : Z)
    (r : BestPriceDPOptimized.Replay) :
  (length ids - index < depth)%nat → (index ≤ length ids)%nat →
  cost + cheapestSum ix (drop index ids) ≤ cheapestSum ix ids →
  ∃ res,
    BestPriceDPOptimized.reconstruct ix ids depth (Fin (cheapestSum ix ids))
      index mask cost r = Some res
    ∧ (forallb (available ix) (drop index ids) = true → ∃ r', res = Normal r')
    ∧ (forallb (available ix) (drop index ids) = false →
       (∀ id, itemToShops ix !! id ≠ Some []) → res = TypeError).
Proof.
  revert index mask cost r.
  induction depth as [|depth IH]; intros index mask cost r Hd Hi Hcost; [lia|].
  cbn [BestPriceDPOptimized.reconstruct].
  destruct (decide (index = length ids)) as [->|Hne].
  - rewrite drop_all. exists (Normal r). split; [done|]. split; [by eauto|done].
  - destruct (lookup_lt_is_Some_2 ids index) as [id Hid]; [lia|].
    rewrite Hid. rewrite (drop_S _ _ _ Hid) in Hcost |- *.
    rewrite cheapestSum_cons in Hcost. cbn [forallb]. unfold available at 1 3.
    destruct (itemToShops ix !! id) as [[|first rest]|] eqn:Eopt.
    + exists (Normal r). split; [done|]. split; [done|].
      intros _ Hfull. by destruct (Hfull id).
    + rewrite getLowerBound_cheapestSum.
      destruct (sortByPrice_cons first rest) as (h & t & -> & Hh).
      rewrite (minPrice_cheapestPrice ix id first rest Eopt) in Hh.
      cbn [find]. rewrite withinTolerance_le by lia.
      apply IH; [lia|lia|lia].
    + exists TypeError. split; [done|]. split; [done|done].
Qed.

(** What the file prints depends on the search through the ceiling only. *)
Lemma finish_ceiling (st st' : BestPriceDPOptimized.DP) :
  BestPriceDPOptimized.bestCost st = BestPriceDPOptimized.bestCost st' →
  BestPriceDPOptimized.finish ix ids st = BestPriceDPOptimized.finish ix ids st'.
Proof. intros H. unfold BestPriceDPOptimized.finish. by rewrite H. Qed.

Lemma finish_spec (st : BestPriceDPOptimized.DP) :
  BestPriceDPOptimized.bestCost st = Fin (cheapestSum ix ids) →
  (forallb (available ix) ids = true →
   ∃ r, BestPriceDPOptimized.finish ix ids st = Some (Plan r)
        ∧ totalCost r = Fin (cheapestSum ix ids))
  ∧ (forallb (available ix) ids = false →
     (∀ id, itemToShops ix !! id ≠ Some []) →
     BestPriceDPOptimized.finish ix ids st = Some Uncaught).
Proof.
  intros Hbest. unfold BestPriceDPOptimized.finish. rewrite Hbest.
  destruct (reconstruct_spec (S (length ids)) 0 0 0 (BestPriceDPOptimized.mkReplay [] 0))
    as (res & -> & Hyes & Hno); [lia|lia|rewrite drop_0; lia|].
  rewrite drop_0 in Hyes, Hno. split.
  - intros Hall. destruct (Hyes Hall) as [r' ->]. eexists. by split.
  - intros Hsome Hfull. by rewrite (Hno Hsome Hfull).
Qed.
End ReplayFacts.

(** ** bestPriceDPOptimized.ts: what the search reports *)

Section BoundedSearchFacts.
Variable gas : nat.
Variable ix : Index Z.
Variable ids : list string.

Lemma solve_finish :
  BestPriceDPOptimized.solve gas ix ids
  = BestPriceDPOptimized.finish ix ids (BestPriceDPOptimized.primed ix ids).
Proof.
  unfold BestPriceDPOptimized.solve.
  destruct (search_pruned gas ix ids) as (st & -> & _ & Hb & _).
  apply finish_ceiling. by rewrite Hb.
Qed.

(** On every request whose items all have an option, the file prints a
    plan whose cost is the greedy bound, the sum of the cheapest prices. *)
Lemma boundedSearch_solve :
  (∀ id, id ∈ ids → hasOption ix id) →
  ∃ r, BestPriceDPOptimized.solve gas ix ids = Some (Plan r)
       ∧ totalCost r = Fin (cheapestSum ix ids).
Proof.
  intros Hav. rewrite solve_finish.
  destruct (finish_spec ix ids (BestPriceDPOptimized.primed ix ids)) as [Hyes _].
  { apply primed_invariant. }
  apply Hyes. by apply forallb_available.
Qed.

(** With an item nobody lists, the replay throws. *)
Lemma boundedSearch_uncaught :
  (∀ id, itemToShops ix !! id ≠ Some []) →
  forallb (available ix) ids = false →
  BestPriceDPOptimized.solve gas ix ids = Some Uncaught.
Proof.
  intros Hfull Hsome. rewrite solve_finish.
  destruct (finish_spec ix ids (BestPriceDPOptimized.primed ix ids)) as [_ Hno].
  { apply primed_invariant. }
  by apply Hno.
Qed.
End BoundedSearchFacts.

(** ** The search with rules switched off *)

Section AblationFacts.
Variable gas : nat.
Variable ix : Index Z.
Variable ids : list string.
Variable rules : BestPriceDPOptimized.Rules.
Hypothesis Hgas : (32 ≤ gas)%nat.
Hypothesis Hvendors : rules = BestPriceDPOptimized.noRules → vendorsBelow 31 ix.

Lemma forOptionsAblated_cons
    (rec : Z → Z → BestPriceDPOptimized.DP → option (number * BestPriceDPOptimized.DP))
    (mask c : Z) (opt : PriceOption Z) (rest : list (PriceOption Z))
    (bestFutureCost : number) (st : BestPriceDPOptimized.DP) :
  BestPriceDPOptimized.forOptionsAblated rules rec mask c (opt :: rest) bestFutureCost st
  = if BestPriceDPOptimized.optionPrune rules
       && num_geb (Fin (c + price opt)) (BestPriceDPOptimized.bestCost st)
    then BestPriceDPOptimized.forOptionsAblated rules rec mask c rest bestFutureCost
           (BestPriceDPOptimized.pruned st)
    else
      match rec (bor mask (shl 1 (Z.of_nat (shopIndex opt)))) (c + price opt) st with
      | None => None
      | Some (Infinity, st') =>
          BestPriceDPOptimized.forOptionsAblated rules rec mask c rest bestFutureCost st'
      | Some (futureCost, st') =>
          BestPriceDPOptimized.forOptionsAblated rules rec mask c rest
            (Math_min bestFutureCost futureCost) st'
      end.
Proof. done. Qed.

Lemma all_off :
  BestPriceDPOptimized.costPrune rules = false →
  BestPriceDPOptimized.lowerBoundPrune rules = false →
  BestPriceDPOptimized.optionPrune rules = false →
  rules = BestPriceDPOptimized.noRules.
Proof. destruct rules. simpl. by intros -> -> ->. Qed.

Lemma forOptionsAblated_keeps
    (rec : Z → Z → BestPriceDPOptimized.DP → option (number * BestPriceDPOptimized.DP))
    (i : nat) (id : string) (mask c : Z) (options sorted : list (PriceOption Z))
    (bestFutureCost : number) (st : BestPriceDPOptimized.DP) :
  keepsCeiling rules ix ids rec (S i) →
  ids !! i = Some id → itemToShops ix !! id = Some options →
  (∀ o, o ∈ sorted → o ∈ options) →
  admissible rules ix ids i mask c →
  BestPriceDPOptimized.lowerBoundPrune rules = false →
  BestPriceDPOptimized.bestCost st = Fin (cheapestSum ix ids) →
  ∃ v st',
    BestPriceDPOptimized.forOptionsAblated rules rec mask c sorted bestFutureCost st
    = Some (v, st')
    ∧ BestPriceDPOptimized.bestCost st' = Fin (cheapestSum ix ids).
Proof.
  intros Hrec Hid Hopt Hsub (Hi & Hreach & Hterm & Hall) Hlb.
  assert (i < length ids)%nat as Hlt by (by apply lookup_lt_Some in Hid).
  revert bestFutureCost st.
  induction sorted as [|opt sorted IH]; intros bestFutureCost st Hbest.
  - by exists bestFutureCost, st.
  - rewrite forOptionsAblated_cons.
    assert (∀ o, o ∈ sorted → o ∈ options) as Hsub'.
    { intros o Ho. apply Hsub, elem_of_cons. by right. }
    destruct (_ && _) eqn:Eprune.
    { by apply IH. }
    assert (opt ∈ options) as Hin by (apply Hsub, elem_of_cons; by left).
    assert (cheapestPrice ix id ≤ price opt) as Hcheap.
    { destruct (cheapestPrice_cheapest ix id) as [_ Hle].
      - unfold hasOption. rewrite Hopt. destruct options; [by apply elem_of_nil in Hin|eauto].
      - apply Hle. by rewrite Hopt. }
    rewrite (drop_S _ _ _ Hid), cheapestSum_cons in Hreach.
    destruct (Hrec (bor mask (shl 1 (Z.of_nat (shopIndex opt)))) (c + price opt) st Hbest)
      as (v & st' & -> & Hbest').
    { assert (rules = BestPriceDPOptimized.noRules →
              maskInRange (bor mask (shl 1 (Z.of_nat (shopIndex opt))))) as Hnew.
      { intros Hoff. apply bor_shl_mask; [by apply Hall|].
        by apply (Hvendors Hoff id options). }
      split; [lia|]. split; [lia|]. split; [|done].
      destruct (BestPriceDPOptimized.costPrune rules) eqn:Ecost; [by auto|].
      destruct (BestPriceDPOptimized.optionPrune rules) eqn:Eopt.
      - left. rewrite Hbest in Eprune. simpl in Eprune. apply Z.leb_gt in Eprune.
        destruct (decide (S i = length ids)) as [Heq|]; [|lia].
        rewrite Heq, drop_all in Hreach. simpl in Hreach. lia.
      - right. right. apply Hnew. by apply all_off. }
    destruct v as [z|]; by apply IH.
Qed.

Lemma dpAblated_keeps (depth i : nat) :
  (length ids - i < depth)%nat →
  keepsCeiling rules ix ids (BestPriceDPOptimized.dpAblated gas ix ids rules depth i) i.
Proof.
  revert i. induction depth as [|depth IH]; intros i Hd mask c st Hbest Hadm; [lia|].
  pose proof Hadm as (Hi & Hreach & Hterm & Hall).
  cbn [BestPriceDPOptimized.dpAblated].
  destruct (BestPriceDPOptimized.costPrune rules
            && num_geb (Fin c) (BestPriceDPOptimized.bestCost st)) eqn:Ecost.
  { by eexists _, _. }
  destruct (decide (i = length ids)) as [->|Hne].
  - assert (maskInRange mask) as Hmask.
    { destruct Hterm as [?|[Hc|?]]; [lia| |done].
      rewrite Hc, Hbest in Ecost. rewrite drop_all in Hreach. simpl in Hreach, Ecost.
      apply Z.leb_gt in Ecost. lia. }
    destruct (popcount_returns gas mask Hgas Hmask) as [shopCount ->].
    destruct (_ || _) eqn:Etest; [|by eexists _, _].
    eexists _, _. split; [done|]. simpl.
    rewrite Hbest in Etest. rewrite drop_all in Hreach. simpl in Hreach, Etest.
    apply orb_true_iff in Etest as [Elt|Eeq].
    + apply Z.ltb_lt in Elt. lia.
    + apply andb_true_iff in Eeq as [Eeq _]. apply Z.eqb_eq in Eeq. by rewrite Eeq.
  - destruct (BestPriceDPOptimized.memo st !! BestPriceDPOptimized.stateKey i mask)
      as [value|].
    { by eexists _, _. }
    cbv zeta.
    destruct (lookup_lt_is_Some_2 ids i) as [id Hid]; [lia|].
    rewrite Hid. cbn [mbind option_bind].
    destruct (itemToShops ix !! id) as [[|first rest]|] eqn:Eopt.
    + by eexists _, _.
    + destruct (BestPriceDPOptimized.lowerBoundPrune rules && _) eqn:Elb.
      { by eexists _, _. }
      destruct (forOptionsAblated_keeps
                  (BestPriceDPOptimized.dpAblated gas ix ids rules depth (S i))
                  i id mask c (first :: rest)
                  (BestPriceDPOptimized.sortByPrice (first :: rest)) Infinity
                  (BestPriceDPOptimized.explored st))
        as (v & st' & -> & Hbest'); [apply IH; lia|done|done| |done| |done|].
      * intros o. by rewrite elem_of_sortByPrice.
      * destruct (BestPriceDPOptimized.lowerBoundPrune rules); [|done].
        cbn [BestPriceDPOptimized.bestCost BestPriceDPOptimized.explored] in Elb.
        rewrite Hbest, getLowerBound_cheapestSum in Elb. simpl in Elb.
        apply Z.leb_gt in Elb. lia.
      * by eexists _, _.
    + by eexists _, _.
Qed.

(** Whatever rules are off, the file prints what it prints with all of
    them on. *)
Lemma solveAblated_solve :
  BestPriceDPOptimized.solveAblated gas ix ids rules
  = BestPriceDPOptimized.solve gas ix ids.
Proof.
  rewrite solve_finish. unfold BestPriceDPOptimized.solveAblated.
  destruct (dpAblated_keeps (S (length ids)) 0) with
    (mask := 0) (c := 0) (st := BestPriceDPOptimized.primed ix ids)
    as (v & st' & -> & Hbest); [lia|apply primed_invariant| |].
  - split; [lia|]. split; [rewrite drop_0; lia|]. split; [|done].
    right. right. done.
  - apply finish_ceiling. rewrite Hbest. symmetry. apply primed_invariant.
Qed.
End AblationFacts.

(** With every rule on, the variant is the search of the file. *)
Section AllRules.
Variable gas : nat.
Variable ix : Index Z.
Variable ids : list string.

Lemma bb_forOptions_cons
    (rec : Z → Z → BestPriceDPOptimized.DP → option (number * BestPriceDPOptimized.DP))
    (mask c : Z) (opt : PriceOption Z) (rest : list (PriceOption Z))
    (bestFutureCost : number) (st : BestPriceDPOptimized.DP) :
  BestPriceDPOptimized.forOptions rec mask c (opt :: rest) bestFutureCost st
  = if num_geb (Fin (c + price opt)) (BestPriceDPOptimized.bestCost st)
    then BestPriceDPOptimized.forOptions rec mask c rest bestFutureCost
           (BestPriceDPOptimized.pruned st)
    else
      match rec (bor mask (shl 1 (Z.of_nat (shopIndex opt)))) (c + price opt) st with
      | None => None
      | Some (Infinity, st') =>
          BestPriceDPOptimized.forOptions rec mask c rest bestFutureCost st'
      | Some (futureCost, st') =>
          BestPriceDPOptimized.forOptions rec mask c rest
            (Math_min bestFutureCost futureCost) st'
      end.
Proof. done. Qed.

Lemma forOptionsAblated_allRules
    (rec rec' : Z → Z → BestPriceDPOptimized.DP
                → option (number * BestPriceDPOptimized.DP))
    (mask c : Z) (sorted : list (PriceOption Z))
    (bestFutureCost : number) (st : BestPriceDPOptimized.DP) :
  (∀ m k s, rec m k s = rec' m k s) →
  BestPriceDPOptimized.forOptionsAblated BestPriceDPOptimized.allRules rec mask c
    sorted bestFutureCost st
  = BestPriceDPOptimized.forOptions rec' mask c sorted bestFutureCost st.
Proof.
  intros Hrec. revert bestFutureCost st.
  induction sorted as [|opt sorted IH]; intros bestFutureCost st; [done|].
  rewrite forOptionsAblated_cons, bb_forOptions_cons.
  cbn [BestPriceDPOptimized.optionPrune BestPriceDPOptimized.allRules andb].
  destruct (num_geb (Fin (c + price opt)) (BestPriceDPOptimized.bestCost st)); [apply IH|].
  rewrite Hrec.
  destruct (rec' (bor mask (shl 1 (Z.of_nat (shopIndex opt)))) (c + price opt) st)
    as [[[z|] st']|]; [apply IH|apply IH|done].
Qed.

Lemma dpAblated_allRules (depth i : nat) (mask c : Z) (st : BestPriceDPOptimized.DP) :
  BestPriceDPOptimized.dpAblated gas ix ids BestPriceDPOptimized.allRules depth i mask c st
  = BestPriceDPOptimized.dp gas ix ids depth i mask c st.
Proof.
  revert i mask c st. induction depth as [|depth IH]; intros i mask c st; [done|].
  cbn [BestPriceDPOptimized.dpAblated BestPriceDPOptimized.dp
       BestPriceDPOptimized.costPrune BestPriceDPOptimized.lowerBoundPrune
       BestPriceDPOptimized.allRules andb].
  destruct (num_geb (Fin c) (BestPriceDPOptimized.bestCost st)); [done|].
  destruct (decide (i = length ids)); [done|].
  destruct (BestPriceDPOptimized.memo st !! BestPriceDPOptimized.stateKey i mask); [done|].
  cbv zeta.
  destruct (ids !! i ≫= (itemToShops ix !!.)) as [[|first rest]|]; [done| |done].
  destruct (num_geb _ (BestPriceDPOptimized.bestCost (BestPriceDPOptimized.explored st)));
    [done|].
  by rewrite (forOptionsAblated_allRules _ (BestPriceDPOptimized.dp gas ix ids depth (S i))).
Qed.
End AllRules.



(** ** Sums of safe prices *)

Section SafePrices.
Variable ix : Index Z.

Lemma largestPrice_nonneg (id : string) : 0 ≤ largestPrice ix id.
Proof.
  unfold largestPrice. induction (default [] (itemToShops ix !! id)) as [|o l IH]; simpl; lia.
Qed.

Lemma largestPrice_bound (id : string) (o : PriceOption Z) :
  o ∈ default [] (itemToShops ix !! id) → Z.abs (price o) ≤ largestPrice ix id.
Proof.
  unfold largestPrice. induction (default [] (itemToShops ix !! id)) as [|o' l IH]; simpl.
  - intros Ho. by apply elem_of_nil in Ho.
  - intros Ho. apply elem_of_cons in Ho as [->|Ho]; [lia|]. specialize (IH Ho). lia.
Qed.

Lemma largestSum_nonneg (ids : list string) : 0 ≤ largestSum ix ids.
Proof.
  induction ids as [|id ids IH]; simpl; [done|].
  pose proof (largestPrice_nonneg id). lia.
Qed.

Lemma largestSum_app (l1 l2 : list string) :
  largestSum ix (l1 ++ l2) = largestSum ix l1 + largestSum ix l2.
Proof. induction l1 as [|id l1 IH]; simpl; [done|]. rewrite IH. lia. Qed.

(** The cost of a combination for [ids] is at most the sum of the largest
    prices, in absolute value. *)
Lemma combinationCost_bound (ids : list string) (c : list (PriceOption Z)) :
  c ∈ allCombinations ix ids → Z.abs (combinationCost c) ≤ largestSum ix ids.
Proof.
  revert c. induction ids as [|id ids IH]; intros c Hc.
  - apply list_elem_of_singleton in Hc as ->. done.
  - apply elem_of_allCombinations_cons in Hc as (o & c' & -> & Ho & Hc').
    specialize (IH c' Hc'). pose proof (largestPrice_bound id o Ho).
    rewrite combinationCost_cons. simpl. lia.
Qed.

Lemma cheapestPrice_bound (id : string) : Z.abs (cheapestPrice ix id) ≤ largestPrice ix id.
Proof.
  destruct (itemToShops ix !! id) as [[|first rest]|] eqn:Eid.
  - unfold cheapestPrice. rewrite Eid. simpl. apply largestPrice_nonneg.
  - destruct (cheapestPrice_cheapest ix id) as [(o & Ho & <-) _]; [by exists first, rest|].
    by apply largestPrice_bound.
  - unfold cheapestPrice. rewrite Eid. simpl. apply largestPrice_nonneg.
Qed.

Lemma cheapestSum_bound (ids : list string) : Z.abs (cheapestSum ix ids) ≤ largestSum ix ids.
Proof.
  induction ids as [|id ids IH]; [done|].
  rewrite cheapestSum_cons. simpl. pose proof (cheapestPrice_bound id). lia.
Qed.

(** With safe prices, the cost of the choices made for the items before
    [i], the lower bound of the items from [i] on and the cost of any
    choices for them, and the sums of the first with either of the others,
    are integers a double holds exactly. *)
Lemma safePrices_exact (ids : list string) (i : nat) (chosen : list (PriceOption Z)) :
  safePrices ix ids → chosen ∈ allCombinations ix (take i ids) →
  Z.abs (combinationCost chosen) + Z.abs (cheapestSum ix (drop i ids)) < 2 ^ 53
  ∧ ∀ rest, rest ∈ allCombinations ix (drop i ids) →
      Z.abs (combinationCost chosen) + Z.abs (combinationCost rest) < 2 ^ 53.
Proof.
  unfold safePrices. rewrite <- (take_drop i ids) at 1. rewrite largestSum_app.
  intros Hsafe Hchosen. pose proof (combinationCost_bound _ _ Hchosen).
  pose proof (cheapestSum_bound (drop i ids)). split; [lia|].
  intros rest Hrest. pose proof (combinationCost_bound _ _ Hrest). lia.
Qed.

(** Safe prices stay safe for the items from [i] on. *)
Lemma safePrices_drop (ids : list string) (i : nat) :
  safePrices ix ids → safePrices ix (drop i ids).
Proof.
  unfold safePrices. rewrite <- (take_drop i ids) at 1. rewrite largestSum_app.
  pose proof (largestSum_nonneg (take i ids)). lia.
Qed.
End SafePrices.

Lemma largestSum_submseteq (ix : Index Z) (l1 l2 : list string) :
  l1 ⊆+ l2 → largestSum ix l1 ≤ largestSum ix l2.
Proof.
  induction 1 as [|x l1 l2 _ IH|x y l|x l1 l2 _ IH|l1 l2 l3 _ IH1 _ IH2]; simpl.
  - done.
  - lia.
  - lia.
  - pose proof (largestPrice_nonneg ix x). lia.
  - lia.
Qed.

(** A request of distinct items of [all] has safe prices when [all] has. *)
Lemma safePrices_request (ix : Index Z) (all ids : list string) :
  NoDup ids → (∀ id, id ∈ ids → id ∈ all) →
  safePrices ix all → safePrices ix ids.
Proof.
  intros Hnd Hsub. unfold safePrices.
  pose proof (largestSum_submseteq ix ids all (NoDup_submseteq _ _ Hnd Hsub)). lia.
Qed.


(** * The claims *)

(** ** Evaluations *)

Lemma twoShops_index : buildIndex (λ p : Z, p) twoShops = Normal (indexOf twoShops).
Proof. by vm_compute. Qed.

Lemma tiedShops_index : buildIndex (λ p : Z, p) tiedShops = Normal (indexOf tiedShops).
Proof. by vm_compute. Qed.

Lemma shops32_index : buildIndex (λ p : Z, p) shops32 = Normal (indexOf shops32).
Proof. by vm_compute. Qed.

Lemma shops33_index : buildIndex (λ p : Z, p) shops33 = Normal (indexOf shops33).
Proof. by vm_compute. Qed.

Lemma twoShops_hasOption (id : string) :
  id ∈ ["A"; "B"] → hasOption (indexOf twoShops) id.
Proof.
  intros Hin. apply available_hasOption.
  repeat (apply elem_of_cons in Hin as [->|Hin]; [by vm_compute|]).
  by apply elem_of_nil in Hin.
Qed.

(** ** The sign bit of the mask *)

(** The memoized search on a request for one item that only the vendor of
    index 31 lists: [popcount] is called on a negative mask. *)
Lemma memoized_sign_bit (gas : nat) (ix : Index Z) (id : string) (opt : PriceOption Z) :
  itemToShops ix !! id = Some [opt] → shopIndex opt = 31%nat →
  BestPriceDP.solve gas ix [id] = None.
Proof.
  intros Hopt Hidx. unfold BestPriceDP.solve.
  cbn [BestPriceDP.dp length].
  destruct (decide (0%nat = 1%nat)) as [|_]; [done|].
  rewrite lookup_empty. cbn [lookup list_lookup]. rewrite Hopt.
  rewrite dp_forOptions_cons. cbv zeta. cbn [BestPriceDP.dp].
  destruct (decide (1%nat = length [id])) as [_|Hne]; [|done].
  cbn [BestPriceDP.cost]. rewrite Hidx.
  replace (bor 0 (shl 1 (Z.of_nat 31))) with (shl 1 31) by (by vm_compute).
  by rewrite popcount_sign_bit.
Qed.


Lemma shops32_option :
  itemToShops (indexOf shops32) !! "A" = Some [mkOption (shopName 31) 5 31].
Proof. by vm_compute. Qed.

Lemma shops32_combinations :
  allCombinations (indexOf shops32) ["A"] = [[mkOption (shopName 31) 5 31]].
Proof. by vm_compute. Qed.


(** ** C1: optimality *)

(** C1 at its failing input.  In the catalog [shops32] only the last of 32
    vendors lists "A", for 5, and a run with the argument 1 whose draw is
    position 1 requests ["A"].  The minimum cost is 5; [bestPrice.ts] and
    [bestPriceDPOptimized.ts] print a plan of that cost; [bestPriceDP.ts]
    prints nothing: its [popcount] is called on [1 << 31], which is
    negative, and [n >>= 1] never brings a negative number to 0, whatever
    gas the loop is given. *)
Theorem optimality_fails_with_32_vendors :
  buildIndex (λ p : Z, p) shops32 = Normal (indexOf shops32)
  ∧ length (shopList (indexOf shops32)) = 32%nat
  ∧ pickRandomItems 1 (allItemIds shops32) [1%nat] = Some ["A"]
  ∧ hasOption (indexOf shops32) "A"
  ∧ minimumCost (indexOf shops32) ["A"] 5
  ∧ (∃ r, run BestPrice.solve (λ p : Z, p) shops32 (Some (JsInt 1)) [1%nat]
          = Some (Solved ["A"] (Plan r))
          ∧ totalCost r = Fin 5)
  ∧ (∃ r, run (BestPriceDPOptimized.solve 32) (λ p : Z, p) shops32 (Some (JsInt 1)) [1%nat]
          = Some (Solved ["A"] (Plan r))
          ∧ totalCost r = Fin 5)
  ∧ (¬ ∃ gas outcome, BestPriceDP.solve gas (indexOf shops32) ["A"] = Some outcome)
  ∧ ∀ gas, run (BestPriceDP.solve gas) (λ p : Z, p) shops32 (Some (JsInt 1)) [1%nat] = None.
Proof.
  assert (Hnone : ∀ gas, BestPriceDP.solve gas (indexOf shops32) ["A"] = None).
  { intros gas. apply (memoized_sign_bit gas _ _ _ shops32_option eq_refl). }
  split; [apply shops32_index|]. split; [by vm_compute|]. split; [by vm_compute|].
  split; [apply available_hasOption; by vm_compute|].
  split; [|split; [|split; [|split]]].
  - unfold minimumCost. rewrite shops32_combinations. split.
    + exists [mkOption (shopName 31) 5 31]. split; [by apply list_elem_of_singleton|].
      by vm_compute.
    + intros c Hc. apply list_elem_of_singleton in Hc as ->. by vm_compute.
  - eexists. split; [vm_compute; reflexivity|done].
  - eexists. split; [vm_compute; reflexivity|done].
  - intros (gas & outcome & Hsolve). by rewrite Hnone in Hsolve.
  - intros gas. unfold run. rewrite shops32_index.
    change (readItemCount (Some (JsInt 1))) with (Some 1).
    replace (allItemIds shops32) with ["C"; "A"] by (by vm_compute).
    change (pickRandomItems 1 ["C"; "A"] [1%nat]) with (Some ["A"]).
    cbn [length Z.of_nat]. by rewrite Hnone.
Qed.

(** ** The minimum cost *)

(** X25 the three solvers: for safe prices and every request of at least
    one item, each with a price option, the brute force and the branch and
    bound print a plan whose [totalCost] is the minimum over all
    combinations of vendor choices, an integer a double holds exactly; so
    does the memoized search when no vendor with the sign bit (a vendor at
    position 31, 63, ...) lists a requested item. *)
Theorem solvers_report_minimum_cost (ix : Index Z) (ids : list string) (gas : nat) :
  safePrices ix ids →
  ids ≠ [] →
  (∀ id, id ∈ ids → hasOption ix id) →
  (32 ≤ gas)%nat →
  ∃ t, minimumCost ix ids t
       ∧ Z.abs t < 2 ^ 53
       ∧ (∃ r, BestPrice.solve ix ids = Some (Plan r) ∧ totalCost r = Fin t)
       ∧ (∃ r, BestPriceDPOptimized.solve gas ix ids = Some (Plan r) ∧ totalCost r = Fin t)
       ∧ (noSignBit ix ids →
          ∃ r, BestPriceDP.solve gas ix ids = Some (Plan r) ∧ totalCost r = Fin t).
Proof.
  intros Hsafe Hne Hav Hgas. exists (cheapestSum ix ids).
  split; [by apply cheapestSum_minimumCost|].
  split; [pose proof (cheapestSum_bound ix ids); unfold safePrices in Hsafe; lia|].
  split; [by apply bruteForce_solve|].
  split; [by apply boundedSearch_solve|].
  intros Hbits. pose proof (memoized_solve gas ix ids Hgas Hbits) as Hdp.
  by rewrite (bestTotal_available ix ids Hav) in Hdp.
Qed.

Lemma twoShops_noSignBit (ids : list string) : noSignBit (indexOf twoShops) ids.
Proof.
  apply vendorsBelow_noSignBit.
  apply (buildIndex_vendorsBelow (λ p : Z, p) twoShops _ 31 twoShops_index).
  vm_compute. lia.
Qed.

Lemma solvers_report_minimum_cost_witness :
  safePrices (indexOf twoShops) ["A"; "B"]
  ∧ (∀ id, id ∈ ["A"; "B"] → hasOption (indexOf twoShops) id)
  ∧ noSignBit (indexOf twoShops) ["A"; "B"]
  ∧ ∃ t, minimumCost (indexOf twoShops) ["A"; "B"] t
         ∧ (∃ r, BestPrice.solve (indexOf twoShops) ["A"; "B"] = Some (Plan r)
                 ∧ totalCost r = Fin t)
         ∧ (∃ r, BestPriceDPOptimized.solve 32 (indexOf twoShops) ["A"; "B"]
                 = Some (Plan r)
                 ∧ totalCost r = Fin t)
         ∧ (∃ r, BestPriceDP.solve 32 (indexOf twoShops) ["A"; "B"] = Some (Plan r)
                 ∧ totalCost r = Fin t).
Proof.
  assert (Hsafe : safePrices (indexOf twoShops) ["A"; "B"]) by (by vm_compute).
  split; [exact Hsafe|]. split; [apply twoShops_hasOption|].
  split; [apply twoShops_noSignBit|].
  destruct (solvers_report_minimum_cost (indexOf twoShops) ["A"; "B"] 32)
    as (t & Hmin & _ & Hbf & Hbb & Hdp).
  - exact Hsafe.
  - discriminate.
  - apply twoShops_hasOption.
  - lia.
  - exists t. split; [done|]. split; [done|]. split; [done|].
    apply Hdp, twoShops_noSignBit.
Defined.

(** ** The memoized search and the sign bit *)

Lemma shops33_A : itemToShops (indexOf shops33) !! "A" = Some [mkOption (shopName 0) 5 0].
Proof. by vm_compute. Qed.

Lemma shops33_B : itemToShops (indexOf shops33) !! "B" = Some [mkOption (shopName 32) 7 32].
Proof. by vm_compute. Qed.

(** The vendors of "A" and "B" are at the positions 0 and 32. *)
Lemma shops33_noSignBit : noSignBit (indexOf shops33) ["A"; "B"].
Proof.
  intros id opts o Hid Hopts Ho.
  apply elem_of_cons in Hid as [->|Hid].
  { rewrite shops33_A in Hopts. injection Hopts as <-.
    apply list_elem_of_singleton in Ho as ->. unfold signBit. cbn [shopIndex]. discriminate. }
  apply list_elem_of_singleton in Hid as ->.
  rewrite shops33_B in Hopts. injection Hopts as <-.
  apply list_elem_of_singleton in Ho as ->. unfold signBit. cbn [shopIndex]. discriminate.
Qed.

Lemma shops33_hasOption (id : string) : id ∈ ["A"; "B"] → hasOption (indexOf shops33) id.
Proof.
  intros Hid. apply elem_of_cons in Hid as [->|Hid].
  - eexists _, _. apply shops33_A.
  - apply list_elem_of_singleton in Hid as ->. eexists _, _. apply shops33_B.
Qed.

Lemma shops33_safe : safePrices (indexOf shops33) ["A"; "B"].
Proof. by vm_compute. Qed.

Lemma shops32_safe : safePrices (indexOf shops32) ["A"].
Proof. by vm_compute. Qed.

Lemma shops33_cheapestSum : cheapestSum (indexOf shops33) ["A"; "B"] = 12.
Proof. by vm_compute. Qed.

(** X26 [bestPriceDP.ts]: on a request whose items all have an option, with
    safe prices, the memoized search returns exactly when no vendor with
    the sign bit lists a requested item, that is no vendor at position 31,
    63, ... of [shopList].  Without one it prints a plan of minimum cost;
    with one it never returns, whatever gas its [popcount] is given: the
    search gets to an option of that vendor, its mask is negative from
    there on, and the first [popcount] of a negative mask does not end. *)
Theorem memoized_returns_without_sign_bit (ix : Index Z) (ids : list string) :
  safePrices ix ids →
  (∀ id, id ∈ ids → hasOption ix id) →
  (noSignBit ix ids →
   ∀ gas, (32 ≤ gas)%nat →
     ∃ r, BestPriceDP.solve gas ix ids = Some (Plan r)
          ∧ totalCost r = Fin (cheapestSum ix ids)
          ∧ minimumCost ix ids (cheapestSum ix ids))
  ∧ ((∃ id opts o, id ∈ ids ∧ itemToShops ix !! id = Some opts ∧ o ∈ opts ∧ signBit o) →
     ∀ gas, BestPriceDP.solve gas ix ids = None).
Proof.
  intros _ Hav. split.
  - intros Hbits gas Hgas. pose proof (memoized_solve gas ix ids Hgas Hbits) as Hdp.
    rewrite (bestTotal_available ix ids Hav) in Hdp. destruct Hdp as (r & Hr & Hcost).
    exists r. split; [done|]. split; [done|]. by apply cheapestSum_minimumCost.
  - intros (id & opts & o & Hid & Hopts & Ho & Hs) gas.
    apply memoized_stuck; [done|].
    apply list_elem_of_lookup in Hid as [j Hj]. exists j, id, opts, o.
    split; [lia|done].
Qed.

Lemma memoized_returns_without_sign_bit_witness :
  (∃ r, BestPriceDP.solve 32 (indexOf shops33) ["A"; "B"] = Some (Plan r)
        ∧ totalCost r = Fin 12)
  ∧ ∀ gas, BestPriceDP.solve gas (indexOf shops32) ["A"] = None.
Proof.
  split.
  - destruct (memoized_returns_without_sign_bit (indexOf shops33) ["A"; "B"]
                shops33_safe shops33_hasOption) as [Hyes _].
    destruct (Hyes shops33_noSignBit 32%nat) as (r & Hr & Hcost & _); [lia|].
    exists r. split; [exact Hr|]. by rewrite Hcost, shops33_cheapestSum.
  - assert (Hav : ∀ id, id ∈ ["A"] → hasOption (indexOf shops32) id).
    { intros id Hid. apply list_elem_of_singleton in Hid as ->.
      eexists _, _. apply shops32_option. }
    destruct (memoized_returns_without_sign_bit (indexOf shops32) ["A"] shops32_safe Hav)
      as [_ Hno].
    apply Hno. exists "A", [mkOption (shopName 31) 5 31], (mkOption (shopName 31) 5 31).
    split; [by apply list_elem_of_singleton|]. split; [apply shops32_option|].
    split; [by apply list_elem_of_singleton|]. unfold signBit. cbn [shopIndex]. reflexivity.
Defined.

(** ** C7: the lower bound *)

(** C7: for safe prices, [getLowerBound(items, fromIndex)] is the sum,
    over the items from [fromIndex] on, of each item's cheapest price (an
    item nobody lists is skipped and counts 0), an integer a double holds
    exactly, and no assignment of vendors to these items costs less. *)
Theorem getLowerBound_is_lower_bound (ix : Index Z) (itemIds : list string)
    (fromIndex : nat) :
  safePrices ix itemIds →
  BestPriceDPOptimized.getLowerBound ix itemIds fromIndex
  = cheapestSum ix (drop fromIndex itemIds)
  ∧ Z.abs (BestPriceDPOptimized.getLowerBound ix itemIds fromIndex) < 2 ^ 53
  ∧ (∀ id, id ∈ drop fromIndex itemIds → hasOption ix id →
       cheapest ix id (cheapestPrice ix id))
  ∧ (∀ c, c ∈ allCombinations ix (drop fromIndex itemIds) →
       BestPriceDPOptimized.getLowerBound ix itemIds fromIndex ≤ combinationCost c).
Proof.
  intros Hsafe. split; [apply getLowerBound_cheapestSum|]. split; [|split].
  - rewrite getLowerBound_cheapestSum.
    pose proof (cheapestSum_bound ix (drop fromIndex itemIds)).
    pose proof (safePrices_drop ix itemIds fromIndex Hsafe). unfold safePrices in *. lia.
  - intros id _. apply cheapestPrice_cheapest.
  - intros c Hc. rewrite getLowerBound_cheapestSum. by apply cheapestSum_lower.
Qed.

Lemma getLowerBound_is_lower_bound_witness :
  safePrices (indexOf twoShops) ["A"; "B"]
  ∧ BestPriceDPOptimized.getLowerBound (indexOf twoShops) ["A"; "B"] 1 = 5
  ∧ cheapest (indexOf twoShops) "B" 5
  ∧ 5 ≤ combinationCost [mkOption "V1" 20 0].
Proof.
  assert (Hsafe : safePrices (indexOf twoShops) ["A"; "B"]) by (by vm_compute).
  split; [exact Hsafe|].
  destruct (getLowerBound_is_lower_bound (indexOf twoShops) ["A"; "B"] 1 Hsafe)
    as (Heq & _ & Hmin & Hlow).
  split; [exact Heq|]. split.
  - apply (Hmin "B").
    + apply elem_of_cons. by left.
    + apply twoShops_hasOption. apply elem_of_cons. right. apply elem_of_cons. by left.
  - apply (Hlow [mkOption "V1" 20 0]).
    apply elem_of_cons. by left.
Defined.

(** ** C10: the branch and bound reports the greedy bound *)

(** C10: for safe prices and every request whose items all have a price
    option, the search ends with the ceiling it was primed with, and the
    [totalCost] of the printed plan is [getGreedyUpperBound(ids).cost], the
    sum of each requested item's cheapest price, an integer a double holds
    exactly. *)
Theorem branch_and_bound_reports_greedy_bound (gas : nat) (ix : Index Z)
    (ids : list string) :
  safePrices ix ids →
  (∀ id, id ∈ ids → hasOption ix id) →
  let greedy := BestPriceDPOptimized.getGreedyUpperBound ix ids in
  BestPriceDPOptimized.cost greedy = cheapestSum ix ids
  ∧ Z.abs (BestPriceDPOptimized.cost greedy) < 2 ^ 53
  ∧ (∀ id, id ∈ ids → cheapest ix id (cheapestPrice ix id))
  ∧ (∃ st, BestPriceDPOptimized.search gas ix ids = Some (Infinity, st)
           ∧ BestPriceDPOptimized.bestCost st = Fin (BestPriceDPOptimized.cost greedy))
  ∧ (∃ r, BestPriceDPOptimized.solve gas ix ids = Some (Plan r)
          ∧ totalCost r = Fin (BestPriceDPOptimized.cost greedy)).
Proof.
  intros Hsafe Hav greedy. subst greedy.
  split; [apply getGreedyUpperBound_cost|]. split; [|split; [|split]].
  - rewrite getGreedyUpperBound_cost. pose proof (cheapestSum_bound ix ids).
    unfold safePrices in Hsafe. lia.
  - intros id Hin. by apply cheapestPrice_cheapest, Hav.
  - destruct (search_pruned gas ix ids) as (st & Hs & _ & Hb & _). by exists st.
  - rewrite getGreedyUpperBound_cost. by apply boundedSearch_solve.
Qed.

Lemma branch_and_bound_reports_greedy_bound_witness :
  safePrices (indexOf twoShops) ["A"; "B"]
  ∧ (∀ id, id ∈ ["A"; "B"] → hasOption (indexOf twoShops) id)
  ∧ ∃ r, BestPriceDPOptimized.solve 32 (indexOf twoShops) ["A"; "B"] = Some (Plan r)
         ∧ totalCost r
           = Fin (BestPriceDPOptimized.cost
                    (BestPriceDPOptimized.getGreedyUpperBound (indexOf twoShops)
                       ["A"; "B"])).
Proof.
  assert (Hsafe : safePrices (indexOf twoShops) ["A"; "B"]) by (by vm_compute).
  split; [exact Hsafe|]. split; [apply twoShops_hasOption|].
  apply (branch_and_bound_reports_greedy_bound 32 (indexOf twoShops) ["A"; "B"] Hsafe).
  apply twoShops_hasOption.
Defined.


(** ** C2: the tie-break on the number of vendors *)

Lemma twoShops_combinations :
  allCombinations (indexOf twoShops) ["A"; "B"]
  = [[mkOption "V1" 10 0; mkOption "V1" 20 0];
     [mkOption "V1" 10 0; mkOption "V2" 5 1]].
Proof. by vm_compute. Qed.

Lemma tiedShops_combinations :
  allCombinations (indexOf tiedShops) ["A"; "B"]
  = [[mkOption "V1" 100 0; mkOption "V2" 50 1];
     [mkOption "V2" 100 1; mkOption "V2" 50 1]].
Proof. by vm_compute. Qed.

(** C2 at its failing inputs.  With the shops [twoShops] the one
    combination of minimum cost 15 buys from two vendors, and both the brute
    force and the memoized search report one; with the shops [tiedShops] a
    combination of minimum cost 150 buys from one vendor, and the branch and
    bound reports two. *)
Theorem tie_break_evaluation :
  minimumVendors (indexOf twoShops) ["A"; "B"] 15 2
  ∧ (∃ r, BestPrice.solve (indexOf twoShops) ["A"; "B"] = Some (Plan r)
          ∧ totalCost r = Fin 15 ∧ shopCount r = Fin 1)
  ∧ (∃ r, BestPriceDP.solve 32 (indexOf twoShops) ["A"; "B"] = Some (Plan r)
          ∧ totalCost r = Fin 15 ∧ shopCount r = Fin 1)
  ∧ minimumVendors (indexOf tiedShops) ["A"; "B"] 150 1
  ∧ (∃ r, BestPriceDPOptimized.solve 32 (indexOf tiedShops) ["A"; "B"] = Some (Plan r)
          ∧ totalCost r = Fin 150 ∧ shopCount r = Fin 2).
Proof.
  split; [|split; [|split; [|split]]].
  - unfold minimumVendors. rewrite twoShops_combinations. split.
    + exists [mkOption "V1" 10 0; mkOption "V2" 5 1]. split; [|by vm_compute].
      apply elem_of_cons. right. apply elem_of_cons. by left.
    + intros c Hc Hcost.
      repeat (apply elem_of_cons in Hc as [->|Hc]; [by vm_compute in Hcost |- *|]).
      by apply elem_of_nil in Hc.
  - eexists. split; [by vm_compute|]. by split.
  - eexists. split; [by vm_compute|]. by split.
  - unfold minimumVendors. rewrite tiedShops_combinations. split.
    + exists [mkOption "V2" 100 1; mkOption "V2" 50 1]. split; [|by vm_compute].
      apply elem_of_cons. right. apply elem_of_cons. by left.
    + intros c Hc Hcost.
      repeat (apply elem_of_cons in Hc as [->|Hc]; [by vm_compute|]).
      by apply elem_of_nil in Hc.
  - eexists. split; [by vm_compute|]. by split.
Qed.

(** ** C3: consistency of the printed plan *)

(** C3 at its failing input.  With the shops [twoShops] both the brute force
    and the memoized search print a plan that buys from two shops and
    reports [shopCount] 1; the memoized search lists one shop only. *)
Theorem plan_consistency_evaluation :
  (∃ r, BestPrice.solve (indexOf twoShops) ["A"; "B"] = Some (Plan r)
        ∧ shopCount r = Fin 1 ∧ distinctShops r = 2 ∧ shops r = ["V1"; "V2"])
  ∧ (∃ r, BestPriceDP.solve 32 (indexOf twoShops) ["A"; "B"] = Some (Plan r)
          ∧ shopCount r = Fin 1 ∧ distinctShops r = 2 ∧ shops r = ["V1"]).
Proof.
  split.
  - eexists. split; [by vm_compute|]. split; [done|]. split; [by vm_compute|done].
  - eexists. split; [by vm_compute|]. split; [done|]. split; [by vm_compute|done].
Qed.

(** ** A request that names an item nobody lists

    No run makes such a request: the items are drawn from the keys of
    [itemToShops].  This is what the code after the pick does with one.
    Nobody lists "C".  The brute force and the memoized search end in "no
    solution"; the branch and bound primes its ceiling with 0 for the item,
    never sees [Infinity], and ends in the exception of the replay. *)
Example unlisted_item_evaluation :
  ¬ hasOption (indexOf twoShops) "C"
  ∧ ("C" ∉ allItemIds twoShops)
  ∧ BestPrice.solve (indexOf twoShops) ["C"] = Some NoSolution
  ∧ BestPriceDP.solve 32 (indexOf twoShops) ["C"] = Some NoSolution
  ∧ BestPriceDPOptimized.cost
      (BestPriceDPOptimized.getGreedyUpperBound (indexOf twoShops) ["C"]) = 0
  ∧ ∀ gas, BestPriceDPOptimized.solve gas (indexOf twoShops) ["C"] = Some Uncaught.
Proof.
  split; [|split; [|split; [|split; [|split]]]].
  - intros Hav. apply available_hasOption in Hav. by vm_compute in Hav.
  - intros Hin. apply list_elem_of_In in Hin. vm_compute in Hin. by destruct Hin as [|[|]].
  - by vm_compute.
  - by vm_compute.
  - by vm_compute.
  - intros gas. apply boundedSearch_uncaught; [|by vm_compute].
    by destruct (buildIndex_wf _ _ _ twoShops_index) as (_ & _ & _ & Hfull).
Qed.

(** ** C5: switching pruning rules off *)




(** ** C6: the memo of the branch and bound *)



(** ** C8: more vendors than mask bits *)

Lemma toInt32_mod (z : Z) : toInt32 z mod 2 ^ 32 = z mod 2 ^ 32.
Proof.
  unfold toInt32.
  rewrite (Z.mod_eq (z + 2 ^ 31) (2 ^ 32)) by lia.
  replace (z + 2 ^ 31 - 2 ^ 32 * ((z + 2 ^ 31) / 2 ^ 32) - 2 ^ 31)
    with (z + (- ((z + 2 ^ 31) / 2 ^ 32)) * 2 ^ 32) by lia.
  apply Z.mod_add. lia.
Qed.

(** Vendors below 32 have mask bits of their own. *)
Lemma shl_1_inj (i j : nat) :
  (i < 32)%nat → (j < 32)%nat →
  shl 1 (Z.of_nat i) = shl 1 (Z.of_nat j) → i = j.
Proof.
  intros Hi Hj Heq.
  assert (∀ k, (k < 32)%nat → shl 1 (Z.of_nat k) mod 2 ^ 32 = 2 ^ Z.of_nat k) as Hbit.
  { intros k Hk. unfold shl. rewrite toInt32_mod.
    rewrite (toInt32_small 1) by lia.
    rewrite (Z.mod_small (Z.of_nat k) 32) by lia.
    rewrite Z.shiftl_1_l. apply Z.mod_small.
    split; [apply Z.pow_nonneg; lia|].
    apply Z.pow_lt_mono_r; lia. }
  pose proof (Hbit i Hi) as Hbi. rewrite Heq, (Hbit j Hj) in Hbi.
  apply Z.pow_inj_r in Hbi; lia.
Qed.

(** C8, as stated, fails: a catalog of 33 vendors is indexed, the first and
    the last vendor get the same mask bit, and the memoized search goes on
    to print a plan that buys from both. *)
Lemma vendors_beyond_the_mask_accepted :
  buildIndex (λ p : Z, p) shops33 = Normal (indexOf shops33)
  ∧ length (shopList (indexOf shops33)) = 33%nat
  ∧ itemToShops (indexOf shops33) !! "A" = Some [mkOption (shopName 0) 5 0]
  ∧ itemToShops (indexOf shops33) !! "B" = Some [mkOption (shopName 32) 7 32]
  ∧ shopName 0 ≠ shopName 32
  ∧ shl 1 (Z.of_nat 0) = shl 1 (Z.of_nat 32)
  ∧ ∃ r, BestPriceDP.solve 32 (indexOf shops33) ["A"; "B"] = Some (Plan r)
         ∧ totalCost r = Fin 12
         ∧ itemShop <$> selectedItems r = [shopName 0; shopName 32].
Proof.
  split; [apply shops33_index|].
  split; [by vm_compute|]. split; [by vm_compute|]. split; [by vm_compute|].
  split; [by vm_compute|]. split; [by vm_compute|].
  eexists. split; [vm_compute; reflexivity|]. by split.
Qed.

(** C8, amended: the construction of the index never checks the number of
    vendors.  Whenever the shop names are distinct and no inventory element
    is an object without entries, the index is built, every shop of the
    catalog is in [shopList] at the position that is its index, and the
    mask bit of index [i] is that of index [i + 32]; below 32 the bits are
    distinct. *)
Theorem index_accepts_any_number_of_vendors {Raw P : Type} (Number : Raw → P)
    (shopsData : ShopsData Raw) :
  NoDup shopsData.*1 →
  (∀ name items, (name, items) ∈ shopsData → [] ∉ items) →
  ∃ ix,
    buildIndex Number shopsData = Normal ix
    ∧ shopList ix = shopsData.*1
    ∧ (∀ i name, shopList ix !! i = Some name ↔ shopNameToIndex ix !! name = Some i)
    ∧ (∀ i, shl 1 (Z.of_nat (i + 32)) = shl 1 (Z.of_nat i))
    ∧ (∀ i j, (i < 32)%nat → (j < 32)%nat →
         shl 1 (Z.of_nat i) = shl 1 (Z.of_nat j) → i = j).
Proof.
  intros Hnd Hfull.
  destruct (buildIndex Number shopsData) as [ix|] eqn:Hbuild.
  - exists ix. split; [done|].
    split; [by apply (buildIndex_shopList Number)|].
    split; [|split; [apply shl_1_alias|apply shl_1_inj]].
    destruct (buildIndex_wf Number _ _ Hbuild) as (Hto & Hfrom & _).
    intros i name. split; [apply Hfrom|apply Hto].
  - apply addShops_TypeError in Hbuild as (name & items & Hin & Hempty).
    by destruct (Hfull name items Hin).
Qed.

Lemma index_accepts_any_number_of_vendors_witness :
  NoDup shops33.*1
  ∧ ∃ ix, buildIndex (λ p : Z, p) shops33 = Normal ix
          ∧ length (shopList ix) = 33%nat.
Proof.
  assert (NoDup shops33.*1) as Hnd.
  { refine (bool_decide_unpack _ _). by vm_compute. }
  split; [exact Hnd|].
  destruct (index_accepts_any_number_of_vendors (λ p : Z, p) shops33 Hnd)
    as (ix & Hbuild & Hlist & _).
  - intros name items Hin Hempty.
    assert (Forall (λ entry, [] ∉ entry.2) shops33) as Hall.
    { refine (bool_decide_unpack _ _). by vm_compute. }
    rewrite Forall_forall in Hall. by apply (Hall (name, items)).
  - exists ix. split; [done|]. rewrite Hlist. by vm_compute.
Defined.

(** ** C9: prices that do not parse *)

(** C9, as stated, fails: a price that is no number is stored as [NaN], a
    negative price is stored as it is, no error is raised, and the solvers
    go on to print a plan of negative cost. *)
Lemma unparseable_price_accepted :
  Number "abc" = NaN
  ∧ (∃ ix, buildIndex Number badPrice = Normal ix
           ∧ itemToShops ix !! "A" = Some [mkOption "V1" NaN 0])
  ∧ Number "-5" = JsInt (-5)
  ∧ (∃ ix, buildIndex Number negativePrice = Normal ix
           ∧ itemToShops ix !! "A" = Some [mkOption "V1" (JsInt (-5)) 0])
  ∧ (∃ r, BestPrice.solve (indexOf negativeShop) ["A"] = Some (Plan r)
          ∧ totalCost r = Fin (-5))
  ∧ (∃ r, BestPriceDP.solve 32 (indexOf negativeShop) ["A"] = Some (Plan r)
          ∧ totalCost r = Fin (-5))
  ∧ (∃ r, BestPriceDPOptimized.solve 32 (indexOf negativeShop) ["A"] = Some (Plan r)
          ∧ totalCost r = Fin (-5)).
Proof.
  split; [done|]. split.
  { eexists. split; [vm_compute; reflexivity|by vm_compute]. }
  split; [done|]. split.
  { eexists. split; [vm_compute; reflexivity|by vm_compute]. }
  split; [|split]; (eexists; split; [vm_compute; reflexivity|done]).
Qed.

(** C9, amended: every price of the catalog goes through [Number] and is
    stored as converted, whatever the conversion returns.  The construction
    fails on an inventory element without entries and on nothing else, so a
    price that does not parse, or a negative one, never stops it. *)
Theorem prices_are_stored_unvalidated {Raw P : Type} (Number : Raw → P)
    (shopsData : ShopsData Raw) :
  (buildIndex Number shopsData = TypeError
   ↔ ∃ name items, (name, items) ∈ shopsData ∧ [] ∈ items)
  ∧ ∀ ix name items id priceStr rest,
      buildIndex Number shopsData = Normal ix →
      (name, items) ∈ shopsData → (id, priceStr) :: rest ∈ items →
      listed ix id name (Number priceStr).
Proof.
  split; [apply addShops_TypeError|].
  intros ix name items id priceStr rest Hbuild Hin Hobj.
  by apply (addShops_listed Number shopsData emptyIndex ix name items id priceStr rest).
Qed.

Lemma prices_are_stored_unvalidated_witness :
  ∃ ix, buildIndex Number badPrice = Normal ix ∧ listed ix "A" "V1" (Number "abc").
Proof.
  destruct (buildIndex Number badPrice) as [ix|] eqn:Hbuild; [|by vm_compute in Hbuild].
  exists ix. split; [done|].
  destruct (prices_are_stored_unvalidated Number badPrice) as [_ Hstored].
  apply (Hstored ix "V1" [[("A", "abc")]] "A" "abc" []); [done| |].
  - apply elem_of_cons. by left.
  - apply elem_of_cons. by left.
Defined.




(** ** [popcount] *)

Lemma filter_testbit_succ (n : Z) (k : nat) :
  0 ≤ n →
  length (filter (λ i, Z.testbit n (Z.of_nat i)) (seq 0 (S k)))
  = (Z.to_nat (n mod 2)
     + length (filter (λ i, Z.testbit (n / 2) (Z.of_nat i)) (seq 0 k)))%nat.
Proof.
  intros Hn.
  change (seq 0 (S k)) with (0%nat :: seq 1 k).
  rewrite <- (fmap_S_seq 0 k).
  rewrite filter_cons.
  assert (Htail :
    length (filter (λ i, Z.testbit n (Z.of_nat i)) (S <$> seq 0 k))
    = length (filter (λ i, Z.testbit (n / 2) (Z.of_nat i)) (seq 0 k))).
  { induction (seq 0 k) as [|i l IH]; [done|].
    rewrite fmap_cons, !filter_cons.
    assert (Hbit : Z.testbit n (Z.of_nat (S i)) = Z.testbit (n / 2) (Z.of_nat i)).
    { rewrite Nat2Z.inj_succ, <- Z.div2_div, Z.div2_spec, Z.shiftr_spec by lia.
      f_equal; lia. }
    rewrite Hbit.
    destruct (decide (Z.testbit (n / 2) (Z.of_nat i))); simpl; by rewrite IH. }
  change (Z.of_nat 0) with 0. rewrite Z.bit0_odd, Zmod_odd.
  destruct (Z.odd n); simpl.
  - destruct (decide (Is_true true)) as [_|H]; [|by destruct H]. simpl. by rewrite Htail.
  - destruct (decide (Is_true false)) as [H|_]; [by destruct H|]. by rewrite Htail.
Qed.

Lemma popcount_loop_counts (k : nat) :
  ∀ (gas : nat) (n count : Z),
    (k < gas)%nat → (k ≤ 31)%nat → 0 ≤ n < 2 ^ Z.of_nat k →
    popcount_loop gas n count
    = Some (count
            + Z.of_nat (length (filter (λ i, Z.testbit n (Z.of_nat i)) (seq 0 k)))).
Proof.
  induction k as [|k IH]; intros gas n count Hgas Hk Hn.
  - destruct gas as [|gas]; [lia|]. simpl in *.
    assert (n = 0) as -> by lia. simpl. f_equal. lia.
  - destruct gas as [|gas]; [lia|].
    rewrite filter_testbit_succ by lia.
    cbn [popcount_loop].
    destruct (n =? 0) eqn:Hz.
    + apply Z.eqb_eq in Hz. subst n. f_equal.
      change (0 / 2) with 0.
      assert (Hnil : filter (λ i, Z.testbit 0 (Z.of_nat i)) (seq 0 k) = []).
      { clear IH. induction (seq 0 k) as [|i l IHl]; [done|].
        rewrite filter_cons, Z.bits_0.
        destruct (decide (Is_true false)) as [H|_]; [by destruct H|]. done. }
      rewrite Hnil. simpl. lia.
    + assert (Hrange : 2 ^ Z.of_nat (S k) ≤ 2 ^ 31).
      { apply Z.pow_le_mono_r; lia. }
      assert (Hsar : sar n 1 = n / 2).
      { unfold sar. rewrite toInt32_small by lia.
        change (1 mod 32) with 1. by rewrite Z.shiftr_div_pow2. }
      assert (Hband : band n 1 = n mod 2).
      { unfold band. rewrite !toInt32_small by lia.
        change 1 with (Z.ones 1) at 1. by rewrite Z.land_ones. }
      rewrite Hsar, Hband.
      rewrite IH; [|lia|lia|].
      * f_equal. assert (0 ≤ n mod 2 < 2) by (apply Z.mod_pos_bound; lia). lia.
      * rewrite Nat2Z.inj_succ, Z.pow_succ_r in Hn by lia.
        split; [apply Z.div_pos; lia|].
        apply Z.div_lt_upper_bound; lia.
Qed.

(** X1 [popcount]: on a mask of the non-negative 32-bit range the loop
    returns, within 32 iterations, the number of bits that are set. *)
Theorem popcount_counts_set_bits (gas : nat) (n : Z) :
  (32 ≤ gas)%nat → 0 ≤ n < 2 ^ 31 →
  popcount gas n = Some (Z.of_nat (length (setBits n))).
Proof.
  intros Hgas Hn. unfold popcount, setBits.
  rewrite (popcount_loop_counts 31); [done|lia|lia|done].
Qed.

Lemma popcount_counts_set_bits_witness :
  popcount 32 5 = Some (Z.of_nat (length (setBits 5))) ∧ setBits 5 = [0%nat; 2%nat].
Proof.
  split; [|by vm_compute].
  apply (popcount_counts_set_bits 32 5); [lia|].
  split; [lia|]. by vm_compute.
Defined.

(** X2 [popcount]: on a negative 32-bit integer [n >>= 1] keeps the sign
    bit, [n] never becomes 0 and the loop never returns. *)
Theorem popcount_never_returns_on_negative (gas : nat) (n : Z) :
  - 2 ^ 31 ≤ n < 0 → popcount gas n = None.
Proof.
  intros Hn. unfold popcount. by apply popcount_loop_diverges.
Qed.

Lemma popcount_never_returns_on_negative_witness :
  shl 1 31 = - 2 ^ 31 ∧ popcount 1000 (shl 1 31) = None.
Proof.
  split; [by vm_compute|].
  apply (popcount_never_returns_on_negative 1000 (shl 1 31)).
  by vm_compute.
Defined.



(** ** The string of a memo key *)

Lemma append_String (c : ascii) (a s : string) :
  String c a +:+ s = String c (a +:+ s).
Proof. reflexivity. Qed.

Lemma append_EmptyString (s : string) : "" +:+ s = s.
Proof. reflexivity. Qed.

Lemma separatorFree_split (a b x y : string) :
  separatorFree a → separatorFree b →
  a +:+ ":" +:+ x = b +:+ ":" +:+ y → a = b ∧ x = y.
Proof.
  revert b. induction a as [|c a IH]; intros [|d b] Ha Hb Heq;
    rewrite ?append_String, ?append_EmptyString in Heq; simpl in Ha, Hb.
  - by injection Heq as ->.
  - injection Heq as <- _. by destruct Hb.
  - injection Heq as -> _. by destruct Ha.
  - injection Heq as -> Heq. destruct Ha as [_ Ha], Hb as [_ Hb].
    destruct (IH b Ha Hb Heq) as [-> ->]. done.
Qed.

Lemma pretty_N_go_separatorFree (x : N) (s : string) :
  separatorFree s → separatorFree (pretty_N_go x s).
Proof.
  revert s. induction (N.lt_wf_0 x) as [x _ IH]; intros s Hs.
  assert (x = 0 ∨ 0 < x)%N as [-> | Hx] by lia.
  - by rewrite pretty_N_go_0.
  - rewrite pretty_N_go_step by done. apply IH.
    + by apply N.div_lt.
    + split; [|done]. unfold pretty_N_char. by repeat case_match.
Qed.

Lemma pretty_N_separatorFree (x : N) : separatorFree (pretty x).
Proof.
  unfold pretty, pretty_N. case_decide; [by split|].
  by apply pretty_N_go_separatorFree.
Qed.

(** X3 [stateKey]: two states get the same key string exactly when their
    item index and their mask are the same, so the pair the model uses as
    key stands for the string. *)
Theorem stateKey_string_injective (i j : nat) (m n : Z) :
  stateKeyString i m = stateKeyString j n
  ↔ BestPriceDP.stateKey i m = BestPriceDP.stateKey j n.
Proof.
  unfold stateKeyString, BestPriceDP.stateKey. split.
  - intros Heq.
    apply separatorFree_split in Heq as [Hi Hm];
      [|apply pretty_N_separatorFree..].
    apply (inj pretty) in Hi. apply (inj pretty) in Hm. by subst.
  - by intros [= -> ->].
Qed.




(** ** The catalog index, entry by entry *)

Section IndexOrder.
Context {Raw P : Type} (Number : Raw → P).

Lemma addItem_storedFor (shopName : string) (ix ix' : Index P) (obj : ItemObj Raw)
    (id : string) :
  addItem Number shopName ix obj = Normal ix' →
  storedFor ix' id
  = storedFor ix id ++ (prod_map (λ s, s) Number <$> offerOf shopName id obj).
Proof.
  intros Hadd.
  apply addItem_Normal in Hadd as (id' & priceStr & rest & -> & _ & _ & Hi).
  unfold storedFor. rewrite Hi. simpl.
  destruct (decide (id' = id)) as [->|Hne].
  - rewrite lookup_insert_eq. simpl. by rewrite fmap_app.
  - rewrite lookup_insert_ne by done. by rewrite app_nil_r.
Qed.

Lemma addItems_storedFor (shopName : string) (items : list (ItemObj Raw))
    (ix ix' : Index P) (id : string) :
  addItems Number shopName ix items = Normal ix' →
  storedFor ix' id
  = storedFor ix id
    ++ (prod_map (λ s, s) Number <$> (items ≫= offerOf shopName id)).
Proof.
  revert ix. induction items as [|obj items IH]; intros ix; simpl.
  - intros [= <-]. by rewrite app_nil_r.
  - destruct (addItem Number shopName ix obj) as [ix1|] eqn:E; [|done].
    intros Hrest. rewrite (IH _ Hrest), (addItem_storedFor _ _ _ _ _ E).
    by rewrite fmap_app, app_assoc.
Qed.

Lemma registerShop_storedFor (shopName : string) (ix : Index P) (id : string) :
  storedFor (registerShop shopName ix) id = storedFor ix id.
Proof.
  unfold registerShop, storedFor. by destruct (shopNameToIndex ix !! shopName).
Qed.

Lemma addShops_storedFor (entries : ShopsData Raw) (ix ix' : Index P) (id : string) :
  addShops Number ix entries = Normal ix' →
  storedFor ix' id
  = storedFor ix id ++ (prod_map (λ s, s) Number <$> offersOf entries id).
Proof.
  revert ix. induction entries as [|[shopName items] entries IH]; intros ix;
    cbn [addShops].
  - intros [= <-]. by rewrite app_nil_r.
  - destruct (addItems Number shopName (registerShop shopName ix) items) as [ix1|] eqn:E;
      [|done].
    intros Hrest. rewrite (IH _ Hrest), (addItems_storedFor _ _ _ _ _ E).
    rewrite registerShop_storedFor.
    unfold offersOf. rewrite bind_cons, fmap_app, app_assoc. done.
Qed.

Lemma registerShop_indexedByShop (shopName : string) (ix : Index P) :
  indexedByShop ix → indexedByShop (registerShop shopName ix).
Proof.
  intros Hix. unfold registerShop.
  destruct (shopNameToIndex ix !! shopName) eqn:E; [done|].
  intros id opts o Hid Ho. simpl in *.
  specialize (Hix id opts o Hid Ho).
  rewrite lookup_insert_ne; [done|]. intros Heq. rewrite <- Heq in Hix. congruence.
Qed.

Lemma addItem_indexedByShop (shopName : string) (ix ix' : Index P) (obj : ItemObj Raw) :
  indexedByShop ix → is_Some (shopNameToIndex ix !! shopName) →
  addItem Number shopName ix obj = Normal ix' →
  indexedByShop ix'.
Proof.
  intros Hix [k Hk] Hadd.
  apply addItem_Normal in Hadd as (id & priceStr & rest & -> & Hl & Hn & Hi).
  intros id' opts o. rewrite Hi, Hn.
  destruct (decide (id = id')) as [->|Hne].
  - rewrite lookup_insert_eq. intros [= <-] Ho.
    apply elem_of_app in Ho as [Ho|Ho].
    + destruct (itemToShops ix !! id') as [old|] eqn:E; simpl in Ho.
      * by apply (Hix id' old).
      * by apply elem_of_nil in Ho.
    + apply list_elem_of_singleton in Ho as ->. simpl. by rewrite Hk.
  - rewrite lookup_insert_ne by done. apply Hix.
Qed.

Lemma addItems_indexedByShop (shopName : string) (items : list (ItemObj Raw))
    (ix ix' : Index P) :
  indexedByShop ix → is_Some (shopNameToIndex ix !! shopName) →
  addItems Number shopName ix items = Normal ix' → indexedByShop ix'.
Proof.
  revert ix. induction items as [|obj items IH]; intros ix Hix Hs; simpl.
  - by intros [= <-].
  - destruct (addItem Number shopName ix obj) as [ix1|] eqn:E; [|done].
    apply IH.
    + by eapply addItem_indexedByShop.
    + apply addItem_Normal in E as (_ & _ & _ & _ & _ & -> & _). done.
Qed.

Lemma addShops_indexedByShop (entries : ShopsData Raw) (ix ix' : Index P) :
  indexedByShop ix → addShops Number ix entries = Normal ix' → indexedByShop ix'.
Proof.
  revert ix. induction entries as [|[shopName items] entries IH]; intros ix Hix; simpl.
  - by intros [= <-].
  - destruct (addItems Number shopName (registerShop shopName ix) items) as [ix1|] eqn:E;
      [|done].
    apply IH. eapply addItems_indexedByShop; [| |exact E].
    + by apply registerShop_indexedByShop.
    + apply registerShop_lookup.
Qed.

Lemma buildIndex_indexedByShop (shopsData : ShopsData Raw) (ix : Index P) :
  buildIndex Number shopsData = Normal ix → indexedByShop ix.
Proof.
  apply addShops_indexedByShop. intros id opts o. simpl. by rewrite lookup_empty.
Qed.

(** The shop of a stored option stands in [shopList] at the option's
    [shopIndex]. *)
Lemma buildIndex_shopAt (shopsData : ShopsData Raw) (ix : Index P)
    (id : string) (opts : list (PriceOption P)) (o : PriceOption P) :
  buildIndex Number shopsData = Normal ix →
  itemToShops ix !! id = Some opts → o ∈ opts →
  shopList ix !! shopIndex o = Some (shop o).
Proof.
  intros Hb Hid Ho.
  destruct (buildIndex_wf _ _ _ Hb) as (Hto & _).
  apply Hto. by apply (buildIndex_indexedByShop _ _ Hb id opts).
Qed.

Lemma wfIndex_NoDup (ix : Index P) : wfIndex ix → NoDup (shopList ix).
Proof.
  intros (_ & Hfrom & _). apply NoDup_alt. intros i j name Hi Hj.
  apply Hfrom in Hi, Hj. congruence.
Qed.
End IndexOrder.

(** ** The keys of [itemToShops] *)

Lemma set_add_elem_of (x y : string) (s : JSet) : y ∈ set_add x s ↔ y = x ∨ y ∈ s.
Proof.
  unfold set_add. destruct (decide (x ∈ s)) as [Hin|Hout].
  - split; [by right|]. by intros [->|?].
  - rewrite elem_of_app, list_elem_of_singleton. tauto.
Qed.

Lemma set_add_NoDup (x : string) (s : JSet) : NoDup s → NoDup (set_add x s).
Proof.
  intros Hs. unfold set_add. destruct (decide (x ∈ s)) as [Hin|Hout]; [done|].
  apply NoDup_app. split; [done|]. split; [|apply NoDup_singleton].
  intros y Hy Hy'. apply list_elem_of_singleton in Hy'. by subst.
Qed.

Lemma foldl_set_add (xs : list string) (s : JSet) :
  NoDup s →
  NoDup (foldl (λ s x, set_add x s) s xs)
  ∧ ∀ y, y ∈ foldl (λ s x, set_add x s) s xs ↔ y ∈ s ∨ y ∈ xs.
Proof.
  revert s. induction xs as [|x xs IH]; intros s Hs; simpl.
  - split; [done|]. intros y. rewrite elem_of_nil. tauto.
  - destruct (IH (set_add x s) (set_add_NoDup x s Hs)) as [Hnd Hin].
    split; [done|]. intros y. rewrite Hin, set_add_elem_of, elem_of_cons. tauto.
Qed.

Lemma set_of_list_NoDup (xs : list string) : NoDup (set_of_list xs).
Proof. apply foldl_set_add, NoDup_nil_2. Qed.

Lemma set_of_list_elem_of (xs : list string) (y : string) : y ∈ set_of_list xs ↔ y ∈ xs.
Proof.
  unfold set_of_list.
  rewrite (proj2 (foldl_set_add xs [] (NoDup_nil_2)) y), elem_of_nil. tauto.
Qed.

Lemma itemIds_offersOf {Raw : Type} (shopsData : ShopsData Raw) (id : string) :
  id ∈ itemIds shopsData ↔ offersOf shopsData id ≠ [].
Proof.
  unfold itemIds, offersOf.
  induction shopsData as [|[shopName items] rest IH].
  - by rewrite elem_of_nil.
  - rewrite !bind_cons, elem_of_app, IH. clear IH.
    assert (Hitems :
      id ∈ items ≫= (λ itemObj : ItemObj Raw,
                       match itemObj with (id0, _) :: _ => [id0] | [] => [] end)
      ↔ items ≫= offerOf shopName id ≠ []).
    { induction items as [|obj items IH]; [by rewrite elem_of_nil|].
      rewrite !bind_cons, elem_of_app, IH.
      destruct obj as [|[id' p] tl]; simpl.
      - rewrite elem_of_nil. tauto.
      - destruct (decide (id' = id)) as [->|Hne]; simpl.
        + split; [done|]. intros _. left. apply elem_of_cons. by left.
        + rewrite list_elem_of_singleton. split; [|by right].
          by intros [?|?]; [congruence|]. }
    rewrite Hitems. split.
    + intros [H|H] Hnil; apply app_eq_nil in Hnil as [? ?]; by apply H.
    + intros H. destruct (items ≫= offerOf shopName id) eqn:E; [right|left]; done.
Qed.

Lemma buildIndex_storedFor {Raw P : Type} (Number : Raw → P)
    (shopsData : ShopsData Raw) (ix : Index P) (id : string) :
  buildIndex Number shopsData = Normal ix →
  storedFor ix id = prod_map (λ s, s) Number <$> offersOf shopsData id
  ∧ (itemToShops ix !! id = None ↔ offersOf shopsData id = []).
Proof.
  intros Hb.
  pose proof (addShops_storedFor Number shopsData emptyIndex ix id Hb) as Hst.
  assert (Hempty : storedFor (@emptyIndex P) id = []).
  { unfold storedFor. simpl. by rewrite lookup_empty. }
  rewrite Hempty in Hst. simpl in Hst. split; [done|].
  destruct (buildIndex_wf _ _ _ Hb) as (_ & _ & _ & Hfull).
  unfold storedFor in Hst. specialize (Hfull id).
  destruct (itemToShops ix !! id) as [[|o opts]|] eqn:E; simpl in Hst.
  - done.
  - split; [done|]. intros Hnil. by rewrite Hnil in Hst.
  - split; [|done]. intros _. symmetry in Hst.
    by apply fmap_nil_inv in Hst.
Qed.

Lemma allItemIds_hasOption {Raw : Type} (Number : Raw → Z)
    (shopsData : ShopsData Raw) (ix : Index Z) (id : string) :
  buildIndex Number shopsData = Normal ix →
  id ∈ allItemIds shopsData ↔ hasOption ix id.
Proof.
  intros Hb. unfold allItemIds.
  rewrite set_of_list_elem_of, itemIds_offersOf.
  destruct (buildIndex_storedFor Number shopsData ix id Hb) as [Hst Hnone].
  destruct (buildIndex_wf _ _ _ Hb) as (_ & _ & _ & Hfull). specialize (Hfull id).
  unfold hasOption. split.
  - intros Hne. destruct (itemToShops ix !! id) as [[|o opts]|] eqn:E.
    + done.
    + by exists o, opts.
    + destruct Hne. by apply Hnone.
  - intros (first & rest & Hid) Hnil. apply Hnone in Hnil. congruence.
Qed.

(** X4 the catalog index: the options stored for an item are the
    catalog's first-entry offers of that item, shop by shop in catalog
    order, each with the converted price; an item has no entry exactly
    when the catalog never offers it. *)
Theorem index_stores_offers_in_catalog_order {Raw P : Type} (Number : Raw → P)
    (shopsData : ShopsData Raw) (ix : Index P) (id : string) :
  buildIndex Number shopsData = Normal ix →
  storedFor ix id = prod_map (λ s, s) Number <$> offersOf shopsData id
  ∧ (itemToShops ix !! id = None ↔ offersOf shopsData id = []).
Proof. apply buildIndex_storedFor. Qed.

Lemma index_stores_offers_in_catalog_order_witness :
  storedFor (indexOf twoShops) "B" = [("V1", 20); ("V2", 5)]
  ∧ (itemToShops (indexOf twoShops) !! "C" = None ↔ offersOf twoShops "C" = []).
Proof.
  split.
  - exact (proj1 (index_stores_offers_in_catalog_order (λ p : Z, p) twoShops
                    (indexOf twoShops) "B" twoShops_index)).
  - exact (proj2 (index_stores_offers_in_catalog_order (λ p : Z, p) twoShops
                    (indexOf twoShops) "C" twoShops_index)).
Defined.

(** X5 the catalog index: [shopList] has no duplicates, [shopNameToIndex]
    is its inverse, and every stored option carries as [shopIndex] the
    position of its own shop in [shopList]. *)
Theorem option_shopIndex_is_position {Raw P : Type} (Number : Raw → P)
    (shopsData : ShopsData Raw) (ix : Index P) :
  buildIndex Number shopsData = Normal ix →
  NoDup (shopList ix)
  ∧ (∀ name i, shopNameToIndex ix !! name = Some i ↔ shopList ix !! i = Some name)
  ∧ ∀ id opts o, itemToShops ix !! id = Some opts → o ∈ opts →
      shopList ix !! shopIndex o = Some (shop o).
Proof.
  intros Hb. pose proof (buildIndex_wf _ _ _ Hb) as Hwf.
  split; [by apply wfIndex_NoDup|]. split.
  - destruct Hwf as (Hto & Hfrom & _). intros name i. split; [apply Hto|apply Hfrom].
  - intros id opts o. by apply (buildIndex_shopAt Number shopsData).
Qed.

Lemma option_shopIndex_is_position_witness :
  NoDup (shopList (indexOf twoShops))
  ∧ shopList (indexOf twoShops) !! shopIndex (mkOption "V2" 5 1) = Some "V2".
Proof.
  destruct (option_shopIndex_is_position (λ p : Z, p) twoShops (indexOf twoShops)
              twoShops_index) as (Hnd & _ & Hpos).
  split; [exact Hnd|].
  apply (Hpos "B" [mkOption "V1" 20 0; mkOption "V2" 5 1]).
  - by vm_compute.
  - apply elem_of_cons. right. apply elem_of_cons. by left.
Defined.

(** X6 [allItemIds]: the keys of [itemToShops] are pairwise distinct, and
    an id is among them exactly when the index stores at least one option
    for it. *)
Theorem allItemIds_are_the_items_with_options {Raw : Type} (Number : Raw → Z)
    (shopsData : ShopsData Raw) (ix : Index Z) :
  buildIndex Number shopsData = Normal ix →
  NoDup (allItemIds shopsData)
  ∧ ∀ id, id ∈ allItemIds shopsData ↔ hasOption ix id.
Proof.
  intros Hb. split; [apply set_of_list_NoDup|].
  intros id. by apply (allItemIds_hasOption Number).
Qed.

Lemma allItemIds_are_the_items_with_options_witness :
  allItemIds twoShops = ["A"; "B"]
  ∧ NoDup (allItemIds twoShops)
  ∧ ∀ id, id ∈ allItemIds twoShops ↔ hasOption (indexOf twoShops) id.
Proof.
  split; [by vm_compute|].
  apply (allItemIds_are_the_items_with_options (λ p : Z, p) twoShops).
  apply twoShops_index.
Defined.




(** ** The random pick *)

Lemma NoDup_length_le (l k : list string) :
  NoDup l → (∀ x, x ∈ l → x ∈ k) → (length l ≤ length k)%nat.
Proof. intros Hl Hin. by apply submseteq_length, NoDup_submseteq. Qed.

Lemma pickRandomItems_loop_spec (n : Z) (sourceArray : list string) (draws : list nat) :
  ∀ result out,
    NoDup result → (∀ x, x ∈ result → x ∈ sourceArray) →
    Z.of_nat (length result) ≤ Z.max 0 n →
    pickRandomItems_loop n sourceArray draws result result = Some out →
    NoDup out ∧ (∀ x, x ∈ out → x ∈ sourceArray)
    ∧ Z.of_nat (length out) = Z.min (Z.max 0 n) (Z.of_nat (length sourceArray)).
Proof.
  assert (Hexit : ∀ result,
    NoDup result → (∀ x, x ∈ result → x ∈ sourceArray) →
    Z.of_nat (length result) ≤ Z.max 0 n →
    (Z.of_nat (length result) <? n)
      && (set_size result <? Z.of_nat (length sourceArray)) = false →
    Z.of_nat (length result) = Z.min (Z.max 0 n) (Z.of_nat (length sourceArray))).
  { intros result Hnd Hsub Hlen Hguard.
    pose proof (NoDup_length_le _ _ Hnd Hsub) as Hle.
    unfold set_size in Hguard.
    apply andb_false_iff in Hguard as [Hg|Hg]; apply Z.ltb_ge in Hg; lia. }
  induction draws as [|idx draws IH]; intros result out Hnd Hsub Hlen; cbn [pickRandomItems_loop].
  - destruct ((Z.of_nat (length result) <? n)
              && (set_size result <? Z.of_nat (length sourceArray))) eqn:Hguard; [done|].
    intros [= <-]. split; [done|]. split; [done|]. by apply Hexit.
  - destruct ((Z.of_nat (length result) <? n)
              && (set_size result <? Z.of_nat (length sourceArray))) eqn:Hguard.
    + destruct (sourceArray !! idx) as [id|] eqn:Hid; [|done].
      destruct (decide _) as [Hin|Hout].
      * by apply IH.
      * assert (Hadd : set_add id result = result ++ [id]).
        { unfold set_add. by destruct (decide _). }
        rewrite Hadd. apply IH.
        -- apply NoDup_app. split; [done|]. split; [|apply NoDup_singleton].
           intros y Hy Hy'. apply list_elem_of_singleton in Hy'. by subst.
        -- intros x Hx. apply elem_of_app in Hx as [Hx|Hx]; [by apply Hsub|].
           apply list_elem_of_singleton in Hx as ->. by eapply list_elem_of_lookup_2.
        -- apply andb_true_iff in Hguard as [Hg _]. apply Z.ltb_lt in Hg.
           rewrite length_app. simpl. lia.
    + intros [= <-]. split; [done|]. split; [done|]. by apply Hexit.
Qed.

Lemma pickRandomItems_loop_returns (n : Z) (sourceArray : list string) (draws : list nat) :
  NoDup sourceArray →
  ∀ result,
    (∀ i id, sourceArray !! i = Some id → i ∈ draws ∨ id ∈ result) →
    Forall (λ i, (i < length sourceArray)%nat) draws →
    is_Some (pickRandomItems_loop n sourceArray draws result result).
Proof.
  intros Hsrc.
  induction draws as [|idx draws IH]; intros result Hcover Hrange; cbn [pickRandomItems_loop].
  - destruct ((Z.of_nat (length result) <? n)
              && (set_size result <? Z.of_nat (length sourceArray))) eqn:Hguard; [|by eauto].
    apply andb_true_iff in Hguard as [_ Hg]. apply Z.ltb_lt in Hg. unfold set_size in Hg.
    assert (length sourceArray ≤ length result)%nat; [|lia].
    apply NoDup_length_le; [done|]. intros x Hx.
    apply list_elem_of_lookup in Hx as [i Hi].
    destruct (Hcover i x Hi) as [Hnil|?]; [by apply elem_of_nil in Hnil|done].
  - destruct ((Z.of_nat (length result) <? n)
              && (set_size result <? Z.of_nat (length sourceArray))) eqn:Hguard; [|by eauto].
    apply Forall_cons in Hrange as [Hidx Hrange].
    destruct (lookup_lt_is_Some_2 sourceArray idx Hidx) as [id Hid]. rewrite Hid.
    destruct (decide _) as [Hin|Hout].
    + apply IH; [|done]. intros i x Hi.
      destruct (Hcover i x Hi) as [Hd|?]; [|by right].
      apply elem_of_cons in Hd as [->|?]; [|by left].
      right. assert (x = id) as -> by congruence. done.
    + assert (Hadd : set_add id result = result ++ [id]).
      { unfold set_add. by destruct (decide _). }
      rewrite Hadd. apply IH; [|done]. intros i x Hi.
      destruct (Hcover i x Hi) as [Hd|?]; [|right; apply elem_of_app; by left].
      apply elem_of_cons in Hd as [->|?]; [|by left].
      right. apply elem_of_app. right. apply list_elem_of_singleton. congruence.
Qed.

Lemma pickRandomItems_loop_runs (n : Z) (sourceArray : list string) (draws : list nat) :
  Z.of_nat (length (remove_dups sourceArray)) < n →
  (length (remove_dups sourceArray) < length sourceArray)%nat →
  ∀ result,
    NoDup result → (∀ x, x ∈ result → x ∈ sourceArray) →
    pickRandomItems_loop n sourceArray draws result result = None.
Proof.
  intros Hn Hdup.
  assert (Hguard : ∀ result,
    NoDup result → (∀ x, x ∈ result → x ∈ sourceArray) →
    (Z.of_nat (length result) <? n)
      && (set_size result <? Z.of_nat (length sourceArray)) = true).
  { intros result Hnd Hsub.
    assert (length result ≤ length (remove_dups sourceArray))%nat.
    { apply NoDup_length_le; [done|]. intros x Hx. by apply elem_of_remove_dups, Hsub. }
    unfold set_size. apply andb_true_iff. split; apply Z.ltb_lt; lia. }
  induction draws as [|idx draws IH]; intros result Hnd Hsub; cbn [pickRandomItems_loop];
    rewrite (Hguard result Hnd Hsub); [done|].
  destruct (sourceArray !! idx) as [id|] eqn:Hid; [|done].
  destruct (decide _) as [Hin|Hout]; [by apply IH|].
  assert (Hadd : set_add id result = result ++ [id]).
  { unfold set_add. by destruct (decide _). }
  rewrite Hadd. apply IH.
  - apply NoDup_app. split; [done|]. split; [|apply NoDup_singleton].
    intros y Hy Hy'. apply list_elem_of_singleton in Hy'. by subst.
  - intros x Hx. apply elem_of_app in Hx as [Hx|Hx]; [by apply Hsub|].
    apply list_elem_of_singleton in Hx as ->. by eapply list_elem_of_lookup_2.
Qed.

(** X7 [pickRandomItems]: whatever is drawn, a pick that returns holds
    pairwise distinct elements of the source array, as many as asked for
    or, if the array is shorter, as many as the array has. *)
Theorem pickRandomItems_picks_distinct_items (n : Z) (sourceArray : list string)
    (draws : list nat) (result : list string) :
  pickRandomItems n sourceArray draws = Some result →
  NoDup result
  ∧ (∀ id, id ∈ result → id ∈ sourceArray)
  ∧ Z.of_nat (length result) = Z.min (Z.max 0 n) (Z.of_nat (length sourceArray)).
Proof.
  intros Hpick. apply (pickRandomItems_loop_spec n sourceArray draws [] result).
  - apply NoDup_nil_2.
  - intros x Hx. by apply elem_of_nil in Hx.
  - simpl. lia.
  - exact Hpick.
Qed.

Lemma pickRandomItems_picks_distinct_items_witness :
  pickRandomItems 2 ["A"; "B"; "C"] [2; 2; 0]%nat = Some ["C"; "A"]
  ∧ NoDup ["C"; "A"]
  ∧ (∀ id, id ∈ ["C"; "A"] → id ∈ ["A"; "B"; "C"])
  ∧ Z.of_nat (length ["C"; "A"]) = Z.min (Z.max 0 2) (Z.of_nat (length ["A"; "B"; "C"])).
Proof.
  split; [by vm_compute|].
  apply (pickRandomItems_picks_distinct_items 2 ["A"; "B"; "C"] [2; 2; 0]%nat).
  by vm_compute.
Defined.

(** X8 [pickRandomItems]: on a source array without duplicates the loop
    ends at the latest when every position has been drawn once. *)
Theorem pickRandomItems_returns (n : Z) (sourceArray : list string) (draws : list nat) :
  NoDup sourceArray →
  Forall (λ i, (i < length sourceArray)%nat) draws →
  (∀ i, (i < length sourceArray)%nat → i ∈ draws) →
  is_Some (pickRandomItems n sourceArray draws).
Proof.
  intros Hsrc Hrange Hcover. apply pickRandomItems_loop_returns; [done| |done].
  intros i id Hi. left. apply Hcover. by eapply lookup_lt_Some.
Qed.

Lemma pickRandomItems_returns_witness :
  is_Some (pickRandomItems 5 ["A"; "B"] [1; 1; 0]%nat).
Proof.
  apply (pickRandomItems_returns 5 ["A"; "B"] [1; 1; 0]%nat).
  - refine (bool_decide_unpack _ _). by vm_compute.
  - refine (bool_decide_unpack _ _). by vm_compute.
  - intros i Hi. simpl in Hi.
    assert (i = 0 ∨ i = 1)%nat as [-> | ->] by lia.
    + apply elem_of_cons. right. apply elem_of_cons. right. apply elem_of_cons. by left.
    + apply elem_of_cons. by left.
Defined.

(** X9 [pickRandomItems]: on a source array that repeats an id, asked for
    more items than the array has distinct ids, the loop never ends:
    neither of its two tests can fail. *)
Theorem pickRandomItems_never_returns (n : Z) (sourceArray : list string)
    (draws : list nat) :
  Z.of_nat (length (remove_dups sourceArray)) < n →
  (length (remove_dups sourceArray) < length sourceArray)%nat →
  pickRandomItems n sourceArray draws = None.
Proof.
  intros Hn Hdup. apply pickRandomItems_loop_runs; [done|done|apply NoDup_nil_2|].
  intros x Hx. by apply elem_of_nil in Hx.
Qed.

Lemma pickRandomItems_never_returns_witness :
  pickRandomItems 2 ["A"; "A"] [0; 1; 1; 0]%nat = None.
Proof.
  apply (pickRandomItems_never_returns 2 ["A"; "A"] [0; 1; 1; 0]%nat).
  - vm_compute. done.
  - vm_compute. lia.
Defined.

(** ** A whole run *)

Section ShopCount.
Context {Raw P : Type} (Number : Raw → P).

Lemma registerShop_length (shopName : string) (ix : Index P) :
  (length (shopList (registerShop shopName ix)) ≤ S (length (shopList ix)))%nat.
Proof.
  unfold registerShop. destruct (shopNameToIndex ix !! shopName); simpl; [lia|].
  rewrite length_app. simpl. lia.
Qed.

Lemma addShops_length (entries : ShopsData Raw) (ix ix' : Index P) :
  addShops Number ix entries = Normal ix' →
  (length (shopList ix') ≤ length (shopList ix) + length entries)%nat.
Proof.
  revert ix. induction entries as [|[shopName items] entries IH]; intros ix; simpl.
  - intros [= <-]. lia.
  - destruct (addItems Number shopName (registerShop shopName ix) items) as [ix1|] eqn:E;
      [|done].
    intros Hrest. apply IH in Hrest.
    apply addItems_shops in E as [E _]. rewrite E in Hrest.
    pose proof (registerShop_length shopName ix). lia.
Qed.

Lemma buildIndex_length (shopsData : ShopsData Raw) (ix : Index P) :
  buildIndex Number shopsData = Normal ix →
  (length (shopList ix) ≤ length shopsData)%nat.
Proof. intros Hb. apply addShops_length in Hb. simpl in Hb. lia. Qed.
End ShopCount.

Lemma run_Solved {Raw : Type} (solve : Index Z → list string → option Outcome)
    (Number : Raw → Z) (shopsData : ShopsData Raw) (parsed : option jsnum)
    (draws : list nat) (ids : list string) (o : Outcome) :
  run solve Number shopsData parsed draws = Some (Solved ids o) →
  ∃ ix, buildIndex Number shopsData = Normal ix
        ∧ readItemCount parsed = Some (Z.of_nat (length ids))
        ∧ ids ≠ [] ∧ NoDup ids
        ∧ (∀ id, id ∈ ids → hasOption ix id)
        ∧ solve ix ids = Some o.
Proof.
  unfold run. destruct (buildIndex Number shopsData) as [ix|] eqn:Hb; [|done].
  destruct (readItemCount parsed) as [itemCount|] eqn:Hcount; [|done].
  destruct (Z.of_nat (length (allItemIds shopsData)) <? itemCount) eqn:Hfew; [done|].
  destruct (pickRandomItems itemCount (allItemIds shopsData) draws) as [picked|] eqn:Hpick;
    [|done].
  destruct (solve ix picked) as [outcome|] eqn:Hsolve; [|done].
  intros [= -> ->]. exists ix.
  apply (pickRandomItems_loop_spec itemCount (allItemIds shopsData) draws [] ids)
    in Hpick as (Hnd & Hsub & Hlen);
    [|apply NoDup_nil_2|by intros x Hx; apply elem_of_nil in Hx|simpl; lia].
  apply Z.ltb_ge in Hfew.
  assert (0 < itemCount).
  { destruct parsed as [[z|]|]; simpl in Hcount; [|done|by injection Hcount as <-].
    destruct (z <=? 0) eqn:Hz; [done|]. injection Hcount as <-. by apply Z.leb_gt. }
  split; [done|]. split; [f_equal; lia|]. split.
  { intros ->. simpl in Hlen. lia. }
  split; [done|]. split; [|done].
  intros id Hid.
  by apply (allItemIds_hasOption Number shopsData ix id Hb), Hsub.
Qed.




(** ** The plan of the brute force *)

Lemma selectionCost_app (a b : list Selection) :
  selectionCost (a ++ b) = selectionCost a + selectionCost b.
Proof.
  unfold selectionCost. rewrite fmap_app.
  induction (selPrice <$> a) as [|x l IH]; simpl; [done|]. rewrite IH. lia.
Qed.

Lemma set_delete_NoDup (x : string) (s : JSet) : NoDup s → NoDup (set_delete x s).
Proof. apply NoDup_filter. Qed.

Lemma set_delete_elem_of (x y : string) (s : JSet) :
  y ∈ set_delete x s ↔ y ≠ x ∧ y ∈ s.
Proof. unfold set_delete. by rewrite list_elem_of_filter. Qed.

Lemma set_of_list_remove_dups (xs : list string) :
  length (set_of_list xs) = length (remove_dups xs).
Proof.
  apply Nat.le_antisymm; apply NoDup_length_le.
  - apply set_of_list_NoDup.
  - intros x. rewrite set_of_list_elem_of. apply elem_of_remove_dups.
  - apply NoDup_remove_dups.
  - intros x. rewrite set_of_list_elem_of. apply elem_of_remove_dups.
Qed.

Lemma toSelectedItems_spec (ix : Index Z) (ids : list string) (sel : list Selection) :
  selectionFor ix ids sel →
  item_id <$> toSelectedItems sel = ids
  ∧ (∀ it, it ∈ toSelectedItems sel → listed ix (item_id it) (itemShop it) (itemPrice it))
  ∧ foldr Z.add 0 (itemPrice <$> toSelectedItems sel) = selectionCost sel
  ∧ itemShop <$> toSelectedItems sel = selShop <$> sel.
Proof.
  unfold selectionFor, toSelectedItems, selectionCost.
  induction 1 as [|id s ids sel [Hid Hl] Hrest (IH1 & IH2 & IH3 & IH4)].
  - split; [done|]. split; [|done]. intros it Hit. by apply elem_of_nil in Hit.
  - rewrite !fmap_cons. cbn [foldr item_id itemShop itemPrice].
    split; [by rewrite IH1, Hid|]. split; [|by rewrite IH3, IH4].
    intros it Hit. apply elem_of_cons in Hit as [->|Hit]; [|by apply IH2].
    simpl. by rewrite Hid.
Qed.

Section BruteForcePlan.
Variable ix : Index Z.
Variable ids : list string.

Lemma terminal_keeps (c : Z) (st : BestPrice.State) :
  trying ix ids (length ids) c st →
  (ids ≠ [] → BestPrice.shopsUsedSet st ≠ []) →
  leaving ix ids (length ids) st (BestPrice.terminal c st).
Proof.
  intros (Hsel & Hcost & Hnd & Hsub & Hbest) Hne.
  rewrite firstn_all in Hsel.
  unfold BestPrice.terminal, leaving. rewrite drop_all. simpl.
  destruct (_ || _); simpl.
  - split; [done|]. split; [done|]. split; [done|]. split; [|done].
    right. simpl. split; [done|]. split; [by rewrite Hcost|].
    exists (set_size (BestPrice.shopsUsedSet st)). split; [done|]. split.
    + unfold set_size. apply inj_le. apply NoDup_length_le; [done|].
      intros s Hs. by apply elem_of_remove_dups, Hsub.
    + intros Hids. specialize (Hne Hids). unfold set_size.
      destruct (BestPrice.shopsUsedSet st); [done|]. simpl. lia.
  - done.
Qed.

Lemma forOptions_keeps (rec : Z → BestPrice.State → option BestPrice.State)
    (i : nat) (id : string) (c : Z) (all options : list (PriceOption Z)) :
  keepsPlans ix ids rec (S i) →
  ids !! i = Some id → itemToShops ix !! id = Some all →
  (∀ o, o ∈ options → o ∈ all) →
  ∀ st, trying ix ids i c st →
    ∃ st', BestPrice.forOptions rec id c options st = Some st'
           ∧ BestPrice.currentSelection st' = BestPrice.currentSelection st
           ∧ NoDup (BestPrice.shopsUsedSet st')
           ∧ (∀ s, s ∈ BestPrice.shopsUsedSet st' → s ∈ BestPrice.shopsUsedSet st)
           ∧ validBest ix ids (BestPrice.best st')
           ∧ (forallb (available ix) (drop (S i) ids) = false →
              BestPrice.best st' = BestPrice.best st).
Proof.
  intros Hrec Hid Hall.
  induction options as [|opt options IH]; intros Hin st (Hsel & Hcost & Hnd & Hsub & Hbest);
    simpl.
  - exists st. by repeat split.
  - set (st1 := BestPrice.mkState
                  (BestPrice.currentSelection st ++ [mkSelection id (shop opt) (price opt)])
                  (set_add (shop opt) (BestPrice.shopsUsedSet st))
                  (BestPrice.best st)).
    destruct (Hrec (c + price opt) st1) as (st2 & -> & Hcur2 & Hnd2 & Hsub2 & Hbest2 & Hsame2).
    { unfold trying, st1. simpl. split; [|split; [|split; [|split]]].
      - rewrite (take_S_r _ _ _ Hid). apply Forall2_app; [done|].
        constructor; [|constructor]. simpl. split; [done|].
        exists all, opt. split; [done|]. split; [|done].
        apply Hin, elem_of_cons. by left.
      - rewrite selectionCost_app, Hcost. unfold selectionCost. simpl. lia.
      - by apply set_add_NoDup.
      - intros s Hs. rewrite fmap_app, elem_of_app. apply set_add_elem_of in Hs as [->|Hs].
        + right. simpl. apply elem_of_cons. by left.
        + left. by apply Hsub.
      - done. }
    { intros _. unfold st1. simpl. unfold set_add.
      destruct (decide _) as [Hm|_].
      - intros Hnil. rewrite Hnil in Hm. by apply elem_of_nil in Hm.
      - intros Hnil. by apply app_eq_nil in Hnil as [_ ?]. }
    simpl in Hcur2, Hsub2, Hsame2.
    match goal with |- context [BestPrice.forOptions _ _ _ _ ?st3] =>
      destruct (IH (λ o Ho, Hin o (list_elem_of_further _ _ _ Ho)) st3)
        as (st' & -> & Hcur' & Hnd' & Hsub' & Hbest' & Hsame') end.
    { unfold trying. simpl. rewrite Hcur2, removelast_last.
      split; [done|]. split; [done|]. split; [by apply set_delete_NoDup|].
      split; [|done].
      intros s Hs. apply set_delete_elem_of in Hs as [Hne Hs].
      apply Hsub2, set_add_elem_of in Hs as [?|Hs]; [done|]. by apply Hsub. }
    simpl in Hcur', Hsub', Hsame'. rewrite Hcur2, removelast_last in Hcur'.
    exists st'. split; [done|]. split; [done|]. split; [done|]. split.
    + intros s Hs. apply Hsub', set_delete_elem_of in Hs as [Hne Hs].
      by apply Hsub2, set_add_elem_of in Hs as [?|Hs].
    + split; [done|]. intros Hunav. by rewrite Hsame', Hsame2.
Qed.

Lemma backtrack_keeps (depth i : nat) :
  (length ids - i < depth)%nat →
  keepsPlans ix ids (BestPrice.backtrack ix ids depth i) i.
Proof.
  revert i. induction depth as [|depth IH]; intros i Hd c st Htry Hne; [lia|].
  simpl. destruct (decide (i = length ids)) as [->|Hi].
  - eexists. split; [done|]. apply terminal_keeps; [done|].
    intros Hids. apply Hne. destruct ids; [done|]. simpl. lia.
  - assert (Hstay : leaving ix ids i st st).
    { destruct Htry as (_ & _ & Hnd & _ & Hbest). by repeat split. }
    destruct (ids !! i) as [id|] eqn:Hid; [|exists st; split; [done|exact Hstay]].
    destruct (itemToShops ix !! id) as [all|] eqn:Hall; [|exists st; split; [done|exact Hstay]].
    destruct all as [|o all'].
    { exists st. split; [done|exact Hstay]. }
    destruct (forOptions_keeps (BestPrice.backtrack ix ids depth (S i)) i id c
                (o :: all') (o :: all'))
      with (st := st) as (st' & -> & Hcur & Hnd & Hsub & Hbest & Hsame); try done.
    { apply IH. pose proof (lookup_lt_Some _ _ _ Hid). lia. }
    exists st'. split; [done|]. split; [done|]. split; [done|]. split; [done|].
    split; [done|]. rewrite (drop_S _ _ _ Hid). simpl.
    unfold available at 1. by rewrite Hall.
Qed.

Lemma backtrack_root :
  ∃ st, BestPrice.backtrack ix ids (S (length ids)) 0 0
          (BestPrice.mkState [] [] (BestPrice.mkBest Infinity Infinity [])) = Some st
        ∧ validBest ix ids (BestPrice.best st)
        ∧ (forallb (available ix) ids = false
           → BestPrice.best st = BestPrice.mkBest Infinity Infinity []).
Proof.
  set (st0 := BestPrice.mkState [] [] (BestPrice.mkBest Infinity Infinity [])).
  assert (Htry : trying ix ids 0 0 st0).
  { unfold trying. simpl. rewrite take_0. split; [constructor|]. split; [done|].
    split; [apply NoDup_nil_2|]. split; [|by left].
    intros s Hs. by apply elem_of_nil in Hs. }
  assert (Hdepth : (length ids - 0 < S (length ids))%nat) by lia.
  destruct (backtrack_keeps (S (length ids)) 0 Hdepth 0 st0 Htry)
    as (st' & Hrun & _ & _ & _ & Hbest & Hsame); [lia|].
  exists st'. split; [done|]. split; [done|]. by rewrite drop_0 in Hsame.
Qed.
End BruteForcePlan.

Lemma bruteForce_plan (ix : Index Z) (ids : list string) :
  ∃ o, BestPrice.solve ix ids = Some o
       ∧ o ≠ Uncaught
       ∧ ∀ r, o = Plan r →
           pricedPlan ix ids r
           ∧ NoDup (shops r)
           ∧ (∀ s, s ∈ shops r ↔ s ∈ itemShop <$> selectedItems r)
           ∧ ∃ k, shopCount r = Fin k ∧ 1 ≤ k ≤ distinctShops r.
Proof.
  destruct (backtrack_root ix ids) as (st & Hrun & Hbest & _).
  unfold BestPrice.solve. rewrite Hrun.
  destruct (decide _) as [Hz|Hnz]; [by exists NoSolution|].
  eexists. split; [done|]. split; [done|]. intros r [= <-].
  destruct Hbest as [Hinit|(Hsel & Hcost & k & Hk & Hle & Hge)].
  { rewrite Hinit in Hnz. done. }
  destruct (toSelectedItems_spec ix ids _ Hsel) as (Hids & Hlisted & Hsum & Hshops).
  unfold pricedPlan, distinctShops. simpl.
  split; [|split; [|split]].
  - split; [done|]. split; [done|]. by rewrite Hsum.
  - apply set_of_list_NoDup.
  - intros s. by rewrite set_of_list_elem_of, Hshops.
  - exists k. rewrite Hshops. split; [done|]. split; [|done]. apply Hge.
    intros ->. apply Forall2_nil_inv_l in Hsel. by rewrite Hsel in Hnz.
Qed.

(** X10 [bestPrice.ts]: for safe prices the brute force returns on every
    request (the model recurses as deep as the file does, one call for each
    requested item and one more, and puts no limit on the call stack), and
    a plan it prints names the requested ids in order, each with a shop and
    a price the catalog lists for it; its [totalCost] is the sum of the
    prices of its items, its [shops] are the shops of its items, each once,
    and its [shopCount] is at least 1 and at most the number of these
    shops. *)
Theorem bruteForce_prints_a_priced_plan (ix : Index Z) (ids : list string) :
  safePrices ix ids →
  ∃ o, BestPrice.solve ix ids = Some o
       ∧ ∀ r, o = Plan r →
           pricedPlan ix ids r
           ∧ NoDup (shops r)
           ∧ (∀ s, s ∈ shops r ↔ s ∈ itemShop <$> selectedItems r)
           ∧ ∃ k, shopCount r = Fin k ∧ 1 ≤ k ≤ distinctShops r.
Proof.
  intros _. destruct (bruteForce_plan ix ids) as (o & Ho & _ & Hplan). by exists o.
Qed.

Lemma bruteForce_prints_a_priced_plan_witness :
  safePrices (indexOf twoShops) ["A"; "B"]
  ∧ ∃ r, BestPrice.solve (indexOf twoShops) ["A"; "B"] = Some (Plan r)
         ∧ pricedPlan (indexOf twoShops) ["A"; "B"] r
         ∧ totalCost r = Fin 15.
Proof.
  assert (Hsafe : safePrices (indexOf twoShops) ["A"; "B"]) by (by vm_compute).
  split; [exact Hsafe|].
  destruct (bruteForce_prints_a_priced_plan (indexOf twoShops) ["A"; "B"] Hsafe)
    as (o & Ho & Hplan).
  destruct o as [r| |]; try by vm_compute in Ho.
  exists r. split; [exact Ho|]. split; [by apply Hplan|].
  vm_compute in Ho. by injection Ho as <-.
Defined.

Lemma forallb_available_false (ix : Index Z) (ids : list string) :
  forallb (available ix) ids = false ↔ ∃ id, id ∈ ids ∧ ¬ hasOption ix id.
Proof.
  split.
  - induction ids as [|id ids IH]; simpl; [done|].
    intros Hall. apply andb_false_iff in Hall as [Hid|Hrest].
    + exists id. split; [apply elem_of_cons; by left|].
      intros Hopt. apply available_hasOption in Hopt. congruence.
    + destruct (IH Hrest) as (id' & Hin & Hno). exists id'.
      split; [apply elem_of_cons; by right|done].
  - intros (id & Hid & Hno). apply not_true_iff_false. intros Hall.
    apply Hno. by apply (proj1 (forallb_available ix ids) Hall).
Qed.

(** X11 [bestPrice.ts]: for safe prices the brute force ends in "Could not
    find a solution" exactly when the request is empty or names an item
    for which the index stores no option. *)
Theorem bruteForce_no_solution_iff (ix : Index Z) (ids : list string) :
  safePrices ix ids →
  BestPrice.solve ix ids = Some NoSolution
  ↔ ids = [] ∨ ∃ id, id ∈ ids ∧ ¬ hasOption ix id.
Proof.
  intros _. split.
  - intros Hsolve.
    destruct (decide (ids = [])) as [->|Hne]; [by left|right].
    apply forallb_available_false.
    destruct (forallb (available ix) ids) eqn:Hall; [|done].
    destruct (bruteForce_solve ix ids Hne) as (r & Hr & _).
    { by apply forallb_available. }
    congruence.
  - intros [->|Hno]; [done|].
    apply forallb_available_false in Hno.
    destruct (backtrack_root ix ids) as (st & Hrun & _ & Hsame).
    unfold BestPrice.solve. rewrite Hrun, (Hsame Hno). done.
Qed.

Lemma bruteForce_no_solution_iff_witness :
  safePrices (indexOf twoShops) ["A"; "C"]
  ∧ BestPrice.solve (indexOf twoShops) ["A"; "C"] = Some NoSolution
  ∧ ∃ r, BestPrice.solve (indexOf twoShops) ["A"; "B"] = Some (Plan r).
Proof.
  assert (Hsafe : safePrices (indexOf twoShops) ["A"; "C"]) by (by vm_compute).
  split; [exact Hsafe|]. split.
  - apply (bruteForce_no_solution_iff (indexOf twoShops) ["A"; "C"] Hsafe).
    right. exists "C". split.
    + apply elem_of_cons. right. apply elem_of_cons. by left.
    + intros Hav. apply available_hasOption in Hav. by vm_compute in Hav.
  - eexists. by vm_compute.
Defined.


(** ** The plan of the memoized search *)

Section MemoizedPlan.
Variable gas : nat.
Variable ix : Index Z.
Variable ids : list string.

Lemma memoPlans_insert (memo : gmap (nat * Z) BestPriceDP.DPState)
    (i : nat) (mask : Z) (st : BestPriceDP.DPState) :
  memoPlans ix ids memo → statePlan ix ids i mask st →
  memoPlans ix ids (<[BestPriceDP.stateKey i mask := st]> memo).
Proof.
  intros Hmemo Hst j m st'. unfold BestPriceDP.stateKey.
  destruct (decide ((i, mask) = (j, m))) as [[= <- <-]|Hne].
  - rewrite lookup_insert_eq. by intros [= <-].
  - rewrite lookup_insert_ne by done. apply Hmemo.
Qed.

Lemma dp_forOptions_plans
    (rec : Z → gmap (nat * Z) BestPriceDP.DPState
           → option (BestPriceDP.DPState * gmap (nat * Z) BestPriceDP.DPState))
    (i : nat) (id : string) (mask : Z) (options : list (PriceOption Z)) :
  returnsPlans ix ids rec (S i) →
  (∀ o, o ∈ options → o ∈ default [] (itemToShops ix !! id)) →
  ∀ acc memo acc' memo',
    memoPlans ix ids memo → accPlan ix ids i id mask acc →
    BestPriceDP.forOptions gas rec id mask options acc memo = Some (acc', memo') →
    accPlan ix ids i id mask acc' ∧ memoPlans ix ids memo'.
Proof.
  intros Hrec.
  induction options as [|opt options IH]; intros Hin acc memo acc' memo' Hmemo Hacc.
  - intros [= <- <-]. done.
  - rewrite dp_forOptions_cons. cbv zeta.
    assert (Hin' : ∀ o, o ∈ options → o ∈ default [] (itemToShops ix !! id)).
    { intros o Ho. apply Hin, elem_of_cons. by right. }
    destruct (rec _ memo) as [[future memo1]|] eqn:Erec; [|done].
    destruct (Hrec _ _ _ _ Hmemo Erec) as [Hfuture Hmemo1].
    destruct (BestPriceDP.cost future) as [futureCost|] eqn:Ecost.
    + destruct (popcount gas _) as [shopCount|]; [|done].
      destruct (_ || _).
      * apply IH; [done|done|].
        intros bo [= <-]. simpl.
        destruct Hfuture as [Hinf|(Hsel & Hc & _)]; [congruence|].
        split; [done|]. split.
        -- exists opt. split; [apply Hin, elem_of_cons; by left|done].
        -- split; [done|]. rewrite Ecost in Hc. injection Hc as ->. done.
      * by apply IH.
    + by apply IH.
Qed.

Lemma dp_plans (depth i : nat) :
  returnsPlans ix ids (BestPriceDP.dp gas ix ids depth i) i.
Proof.
  revert i. induction depth as [|depth IH]; intros i mask memo st memo' Hmemo; [done|].
  cbn [BestPriceDP.dp]. destruct (decide (i = length ids)) as [->|Hne].
  - intros [= <- <-]. split; [|done]. right. rewrite drop_all. simpl.
    split; [constructor|done].
  - destruct (memo !! BestPriceDP.stateKey i mask) as [hit|] eqn:Ememo.
    { intros [= <- <-]. split; [|done]. by apply (Hmemo i mask). }
    assert (Hnone : ∀ memo1, memoPlans ix ids memo1 →
              Some (BestPriceDP.mkDPState Infinity [] mask,
                    <[BestPriceDP.stateKey i mask :=
                        BestPriceDP.mkDPState Infinity [] mask]> memo1)
              = Some (st, memo') →
              statePlan ix ids i mask st ∧ memoPlans ix ids memo').
    { intros memo1 Hm1 [= <- <-]. split; [by left|].
      apply memoPlans_insert; [done|by left]. }
    cbv zeta. destruct (ids !! i) as [id|] eqn:Hid; [|by apply Hnone].
    destruct (itemToShops ix !! id) as [[|first rest]|] eqn:Eopt; [by apply Hnone| |by apply Hnone].
    destruct (BestPriceDP.forOptions gas _ id mask (first :: rest) _ memo)
      as [[acc memo1]|] eqn:Eloop; [|done].
    apply (dp_forOptions_plans _ i id mask (first :: rest) (IH (S i))) in Eloop
      as [Hacc Hmemo1]; [|by rewrite Eopt|done|by intros bo].
    destruct (BestPriceDP.bestOption acc) as [bo|] eqn:Ebo; [|by apply Hnone].
    destruct (Hacc bo Ebo) as (Hbid & (o & Ho & Hshop & Hprice & Hbits) & Hsel & Hcost).
    intros [= <- <-].
    assert (Hst : statePlan ix ids i mask
              (BestPriceDP.mkDPState (BestPriceDP.bestCost acc)
                 (mkSelection (BestPriceDP.bo_itemId bo) (BestPriceDP.bo_shop bo)
                    (BestPriceDP.bo_price bo)
                  :: BestPriceDP.selection (BestPriceDP.futureState bo))
                 (BestPriceDP.newShopsBitmask bo))).
    { right. simpl. split; [|split].
      - rewrite (drop_S _ _ _ Hid). constructor; [|done]. simpl. split; [done|].
        rewrite Eopt in Ho. simpl in Ho. by exists (first :: rest), o.
      - rewrite Hcost. unfold selectionCost. simpl. done.
      - by exists id, o. }
    split; [done|]. by apply memoPlans_insert.
Qed.

Lemma dp_forOptions_extends
    (rec : Z → gmap (nat * Z) BestPriceDP.DPState
           → option (BestPriceDP.DPState * gmap (nat * Z) BestPriceDP.DPState))
    (i : nat) (id : string) (mask : Z) (options : list (PriceOption Z)) :
  (∀ m memo st memo', rec m memo = Some (st, memo') → memoExtends (S i) memo memo') →
  ∀ acc memo acc' memo',
    BestPriceDP.forOptions gas rec id mask options acc memo = Some (acc', memo') →
    memoExtends (S i) memo memo'.
Proof.
  intros Hrec.
  induction options as [|opt options IH]; intros acc memo acc' memo'.
  - intros [= <- <-]. by split.
  - rewrite dp_forOptions_cons. cbv zeta.
    destruct (rec _ memo) as [[future memo1]|] eqn:Erec; [|done].
    apply Hrec in Erec as [Hlow Hmono].
    assert (Hstep : ∀ acc1,
              BestPriceDP.forOptions gas rec id mask options acc1 memo1 = Some (acc', memo') →
              memoExtends (S i) memo memo').
    { intros acc1 Hloop. apply IH in Hloop as [Hlow' Hmono']. split.
      - intros j m Hj. by rewrite Hlow', Hlow.
      - intros key st Hkey. by apply Hmono', Hmono. }
    destruct (BestPriceDP.cost future); [|by apply Hstep].
    destruct (popcount gas _); [|done].
    destruct (_ || _); by apply Hstep.
Qed.

Lemma dp_extends (depth i : nat) (mask : Z)
    (memo memo' : gmap (nat * Z) BestPriceDP.DPState) (st : BestPriceDP.DPState) :
  BestPriceDP.dp gas ix ids depth i mask memo = Some (st, memo') →
  memoExtends i memo memo'
  ∧ (i ≠ length ids → memo' !! BestPriceDP.stateKey i mask = Some st).
Proof.
  revert i mask memo memo' st.
  induction depth as [|depth IH]; intros i mask memo memo' st; [done|].
  cbn [BestPriceDP.dp]. destruct (decide (i = length ids)) as [->|Hne].
  - intros [= <- <-]. by split.
  - destruct (memo !! BestPriceDP.stateKey i mask) as [hit|] eqn:Ememo.
    { intros [= <- <-]. by split. }
    assert (Hinsert : ∀ memo1 st1, memoExtends (S i) memo memo1 →
              memoExtends i memo (<[BestPriceDP.stateKey i mask := st1]> memo1)
              ∧ (i ≠ length ids →
                 <[BestPriceDP.stateKey i mask := st1]> memo1
                   !! BestPriceDP.stateKey i mask = Some st1)).
    { intros memo1 st1 [Hlow Hmono]. split; [|by rewrite lookup_insert_eq]. split.
      - intros j m Hj. unfold BestPriceDP.stateKey.
        rewrite lookup_insert_ne by (intros [= -> _]; lia). apply Hlow. lia.
      - intros key st' Hkey. unfold BestPriceDP.stateKey.
        rewrite lookup_insert_ne; [by apply Hmono|].
        intros <-. unfold BestPriceDP.stateKey in Ememo. congruence. }
    assert (Hself : memoExtends (S i) memo memo) by by split.
    cbv zeta. destruct (ids !! i) as [id|] eqn:Hid.
    2:{ intros [= <- <-]. by apply Hinsert. }
    destruct (itemToShops ix !! id) as [[|first rest]|] eqn:Eopt.
    1,3: intros [= <- <-]; by apply Hinsert.
    destruct (BestPriceDP.forOptions gas _ id mask (first :: rest) _ memo)
      as [[acc memo1]|] eqn:Eloop; [|done].
    apply (dp_forOptions_extends _ i) in Eloop.
    2:{ intros m memo2 st2 memo2' Hrec. by apply IH in Hrec as [? _]. }
    destruct (BestPriceDP.bestOption acc) as [bo|]; intros [= <- <-]; by apply Hinsert.
Qed.
End MemoizedPlan.

(** ** The shops the memoized search reports *)

Lemma land_pow2 (k p : nat) :
  Z.land (2 ^ Z.of_nat k) (2 ^ Z.of_nat p) = if decide (k = p) then 2 ^ Z.of_nat k else 0.
Proof.
  destruct (decide (k = p)) as [->|Hne]; [apply Z.land_diag|].
  apply Z.bits_inj'. intros n Hn.
  rewrite Z.land_spec, !Z.pow2_bits_eqb, Z.bits_0 by lia.
  destruct (Z.eqb_spec (Z.of_nat k) n), (Z.eqb_spec (Z.of_nat p) n); try done. lia.
Qed.

Lemma pow2_int32 (k : nat) : (k < 31)%nat → - 2 ^ 31 ≤ 2 ^ Z.of_nat k < 2 ^ 31.
Proof.
  intros Hk. split.
  - pose proof (Z.pow_pos_nonneg 2 (Z.of_nat k)). lia.
  - apply Z.pow_lt_mono_r; lia.
Qed.

Lemma band_bit (k p : nat) :
  (k < 31)%nat → (p < 31)%nat →
  band (2 ^ Z.of_nat k) (shl 1 (Z.of_nat p)) = if decide (k = p) then 2 ^ Z.of_nat k else 0.
Proof.
  intros Hk Hp. unfold band. rewrite (shl_1_small p Hp).
  rewrite !toInt32_small by by apply pow2_int32.
  apply land_pow2.
Qed.

Lemma bor_bit (k : nat) : (k < 31)%nat → bor 0 (shl 1 (Z.of_nat k)) = 2 ^ Z.of_nat k.
Proof.
  intros Hk. unfold bor. rewrite (shl_1_small k Hk).
  rewrite !toInt32_small by (by apply pow2_int32 || lia). done.
Qed.

Lemma popcount_bit (gas k : nat) :
  (32 ≤ gas)%nat → (k < 31)%nat → popcount gas (2 ^ Z.of_nat k) = Some 1.
Proof.
  intros Hgas Hk. unfold popcount.
  rewrite (popcount_loop_counts 31); [|lia|lia|].
  2:{ split; [|by apply pow2_int32]. apply Z.pow_nonneg. lia. }
  do 2 f_equal.
  assert (Hin : k ∈ seq 0 31) by (apply elem_of_seq; lia).
  repeat (apply elem_of_cons in Hin as [->|Hin]; [by vm_compute|]).
  by apply elem_of_nil in Hin.
Qed.

Lemma pow2_nonzero (k : nat) : 2 ^ Z.of_nat k ≠ 0.
Proof. pose proof (Z.pow_pos_nonneg 2 (Z.of_nat k)). lia. Qed.

Lemma shopsUsedFrom_below (names : list string) (i k : nat) :
  (i + length names ≤ 31)%nat → (k < i)%nat →
  BestPriceDP.shopsUsedFrom i names (2 ^ Z.of_nat k) = [].
Proof.
  revert i. induction names as [|name names IH]; intros i Hlen Hk; [done|].
  simpl in *. rewrite band_bit by lia.
  destruct (decide (k = i)); [lia|]. simpl. apply IH; lia.
Qed.

Lemma shopsUsedFrom_bit (names : list string) (i j : nat) (name : string) :
  (i + length names ≤ 31)%nat → names !! j = Some name →
  BestPriceDP.shopsUsedFrom i names (2 ^ Z.of_nat (i + j)) = [name].
Proof.
  revert i j. induction names as [|first names IH]; intros i j Hlen Hj; [done|].
  pose proof (lookup_lt_Some _ _ _ Hj) as Hjlt.
  simpl in Hlen, Hjlt. cbn [BestPriceDP.shopsUsedFrom]. rewrite band_bit by lia.
  destruct j as [|j]; simpl in Hj.
  - injection Hj as ->. rewrite Nat.add_0_r.
    destruct (decide (i = i)) as [_|?]; [|done].
    destruct (Z.eqb_spec (2 ^ Z.of_nat i) 0) as [Hz|_]; [by apply pow2_nonzero in Hz|].
    f_equal. apply shopsUsedFrom_below; lia.
  - destruct (decide (i + S j = i)%nat); [lia|]. simpl.
    replace (i + S j)%nat with (S i + j)%nat by lia. apply IH; [lia|done].
Qed.

Lemma memoized_result (gas : nat) (ix : Index Z) (ids : list string) (r : Result) :
  BestPriceDP.solve gas ix ids = Some (Plan r) →
  ∃ dpResult shopCount,
    statePlan ix ids 0 0 dpResult
    ∧ BestPriceDP.cost dpResult ≠ Infinity
    ∧ popcount gas (BestPriceDP.shops dpResult) = Some shopCount
    ∧ r = mkResult (toSelectedItems (BestPriceDP.selection dpResult))
                   (BestPriceDP.cost dpResult) (Fin shopCount)
                   (BestPriceDP.shopsUsedFrom 0 (shopList ix) (BestPriceDP.shops dpResult)).
Proof.
  unfold BestPriceDP.solve.
  destruct (BestPriceDP.dp gas ix ids _ 0 0 ∅) as [[dpResult memo]|] eqn:Edp; [|done].
  apply dp_plans in Edp as [Hst _].
  2:{ intros j m st. by rewrite lookup_empty. }
  destruct (BestPriceDP.cost dpResult) as [t|] eqn:Ecost; [|done].
  destruct (popcount gas _) as [shopCount|] eqn:Epop; [|done].
  intros [= <-]. exists dpResult, shopCount. rewrite Ecost. done.
Qed.

Lemma memoized_priced (gas : nat) (ix : Index Z) (ids : list string) (r : Result) :
  BestPriceDP.solve gas ix ids = Some (Plan r) → pricedPlan ix ids r.
Proof.
  intros Hsolve.
  apply memoized_result in Hsolve as (dpResult & shopCount & Hst & Hfin & _ & ->).
  destruct Hst as [Hinf|(Hsel & Hcost & _)]; [done|].
  rewrite drop_0 in Hsel.
  destruct (toSelectedItems_spec ix ids _ Hsel) as (Hids & Hlisted & Hsum & _).
  unfold pricedPlan. simpl. by rewrite Hsum.
Qed.

(** X12 [bestPriceDP.ts]: for safe prices and with at most 31 vendors the
    memoized search returns on every request (the limit of the call stack
    is not modelled): in "Could not find a solution" exactly when the
    request names an item without options, and otherwise in a plan that
    names the requested ids in order, each with a shop and a price the
    catalog lists for it, and whose [totalCost] is the sum of the prices of
    its items. *)
Theorem memoized_prints_a_priced_plan {Raw : Type} (Number : Raw → Z)
    (shopsData : ShopsData Raw) (ix : Index Z) (ids : list string) (gas : nat) :
  buildIndex Number shopsData = Normal ix →
  safePrices ix ids →
  (length (shopList ix) ≤ 31)%nat → (32 ≤ gas)%nat →
  ∃ o, BestPriceDP.solve gas ix ids = Some o
       ∧ (o = NoSolution ↔ ∃ id, id ∈ ids ∧ ¬ hasOption ix id)
       ∧ ((∀ id, id ∈ ids → hasOption ix id) → ∃ r, o = Plan r)
       ∧ ∀ r, o = Plan r → pricedPlan ix ids r.
Proof.
  intros Hb _ Hfew Hgas.
  pose proof (memoized_solve gas ix ids Hgas
                (vendorsBelow_noSignBit ix ids
                   (buildIndex_vendorsBelow Number shopsData ix 31 Hb Hfew))) as Hdp.
  unfold bestTotal in Hdp.
  destruct (forallb (available ix) ids) eqn:Hall.
  - destruct Hdp as (r & Hr & _). exists (Plan r).
    split; [done|]. split; [|split].
    + split; [done|]. intros Hno. apply forallb_available_false in Hno. congruence.
    + intros _. by exists r.
    + intros r' [= <-]. by apply (memoized_priced gas).
  - exists NoSolution. split; [done|]. split; [|split].
    + split; [|done]. intros _. by apply forallb_available_false.
    + intros Hav. apply forallb_available in Hav. congruence.
    + done.
Qed.

Lemma memoized_prints_a_priced_plan_witness :
  safePrices (indexOf twoShops) ["A"; "B"]
  ∧ ∃ o, BestPriceDP.solve 32 (indexOf twoShops) ["A"; "B"] = Some o
         ∧ (o = NoSolution ↔ ∃ id, id ∈ ["A"; "B"] ∧ ¬ hasOption (indexOf twoShops) id)
         ∧ ((∀ id, id ∈ ["A"; "B"] → hasOption (indexOf twoShops) id) → ∃ r, o = Plan r)
         ∧ ∀ r, o = Plan r → pricedPlan (indexOf twoShops) ["A"; "B"] r.
Proof.
  assert (Hsafe : safePrices (indexOf twoShops) ["A"; "B"]) by (by vm_compute).
  split; [exact Hsafe|].
  apply (memoized_prints_a_priced_plan (λ p : Z, p) twoShops).
  - apply twoShops_index.
  - exact Hsafe.
  - vm_compute. lia.
  - lia.
Defined.

(** X13 [bestPriceDP.ts]: with at most 31 vendors, every plan the memoized
    search prints for a request of at least one item has [shopCount] 1
    and lists one shop, the shop of its first item: the state [dp]
    returns carries the mask after its own item only. *)
Theorem memoized_reports_one_shop {Raw : Type} (Number : Raw → Z)
    (shopsData : ShopsData Raw) (ix : Index Z) (ids : list string) (gas : nat)
    (r : Result) :
  buildIndex Number shopsData = Normal ix →
  (length (shopList ix) ≤ 31)%nat → (32 ≤ gas)%nat → ids ≠ [] →
  BestPriceDP.solve gas ix ids = Some (Plan r) →
  shopCount r = Fin 1 ∧ shops r = take 1 (itemShop <$> selectedItems r).
Proof.
  intros Hb Hfew Hgas Hne Hsolve.
  apply memoized_result in Hsolve as (dpResult & shopCount & Hst & Hfin & Hpop & ->).
  destruct Hst as [Hinf|(Hsel & _ & Hhead)]; [done|].
  rewrite drop_0 in Hsel. simpl.
  destruct (BestPriceDP.selection dpResult) as [|s sel].
  { apply Forall2_nil_inv_r in Hsel. done. }
  destruct Hhead as (id & o & Hid & Ho & Hshop & Hbits).
  destruct (itemToShops ix !! id) as [opts|] eqn:Eopt; simpl in Ho;
    [|by apply elem_of_nil in Ho].
  assert (Hk : (shopIndex o < 31)%nat).
  { by apply (buildIndex_vendorsBelow Number shopsData ix 31 Hb Hfew id opts). }
  rewrite bor_bit in Hbits by done. rewrite Hbits in Hpop |- *.
  rewrite popcount_bit in Hpop by done. injection Hpop as <-.
  split; [done|].
  pose proof (shopsUsedFrom_bit (shopList ix) 0 (shopIndex o) (shop o)) as Hused.
  cbn [Nat.add] in Hused. rewrite Hused.
  - simpl. by rewrite Hshop.
  - simpl. lia.
  - by apply (buildIndex_shopAt Number shopsData ix id opts).
Qed.

Lemma memoized_reports_one_shop_witness :
  ∃ r, BestPriceDP.solve 32 (indexOf twoShops) ["A"; "B"] = Some (Plan r)
       ∧ itemShop <$> selectedItems r = ["V1"; "V2"]
       ∧ shopCount r = Fin 1 ∧ shops r = take 1 (itemShop <$> selectedItems r).
Proof.
  destruct (BestPriceDP.solve 32 (indexOf twoShops) ["A"; "B"]) as [[r| |]|] eqn:E;
    try by vm_compute in E.
  exists r. split; [done|]. split.
  - vm_compute in E. by injection E as <-.
  - apply (memoized_reports_one_shop (λ p : Z, p) twoShops (indexOf twoShops)
             ["A"; "B"] 32 r).
    + apply twoShops_index.
    + vm_compute. lia.
    + lia.
    + done.
    + exact E.
Defined.

(** X14 [bestPriceDP.ts]: [dp] memoizes what it returns.  After a call for
    an item of the request the memo holds the returned state under the
    key of the call, no entry that was there has been changed, and the
    same call again returns the same state and leaves the memo as it
    is. *)
Theorem memoized_dp_reuses_its_result (gas : nat) (ix : Index Z) (ids : list string)
    (depth i : nat) (mask : Z) (memo memo' : gmap (nat * Z) BestPriceDP.DPState)
    (st : BestPriceDP.DPState) :
  BestPriceDP.dp gas ix ids depth i mask memo = Some (st, memo') →
  i ≠ length ids →
  memo' !! BestPriceDP.stateKey i mask = Some st
  ∧ (∀ key old, memo !! key = Some old → memo' !! key = Some old)
  ∧ ∀ depth', BestPriceDP.dp gas ix ids (S depth') i mask memo' = Some (st, memo').
Proof.
  intros Hdp Hne. apply dp_extends in Hdp as [[_ Hmono] Hkey].
  specialize (Hkey Hne). split; [done|]. split; [done|].
  intros depth'. cbn [BestPriceDP.dp].
  destruct (decide (i = length ids)); [done|]. by rewrite Hkey.
Qed.

Lemma memoized_dp_reuses_its_result_witness :
  ∃ st memo',
    BestPriceDP.dp 32 (indexOf twoShops) ["A"; "B"] 3 0 0 ∅ = Some (st, memo')
    ∧ BestPriceDP.cost st = Fin 15
    ∧ memo' !! BestPriceDP.stateKey 0 0 = Some st
    ∧ BestPriceDP.dp 32 (indexOf twoShops) ["A"; "B"] 1 0 0 memo' = Some (st, memo').
Proof.
  destruct (BestPriceDP.dp 32 (indexOf twoShops) ["A"; "B"] 3 0 0 ∅)
    as [[st memo']|] eqn:E; [|by vm_compute in E].
  exists st, memo'. split; [done|]. split.
  - vm_compute in E. by injection E as <- _.
  - destruct (memoized_dp_reuses_its_result 32 (indexOf twoShops) ["A"; "B"] 3 0 0 ∅
                memo' st E) as (Hkey & _ & Hagain); [done|].
    split; [exact Hkey|apply Hagain].
Defined.




(** ** The first cheapest option *)

Lemma cheaper_assoc (a b c : PriceOption Z) :
  cheaper (cheaper a b) c = cheaper a (cheaper b c).
Proof.
  unfold cheaper.
  destruct (Z.ltb_spec (price b) (price a)), (Z.ltb_spec (price c) (price b));
    repeat (match goal with |- context [?x <? ?y] => destruct (Z.ltb_spec x y) end);
    try done; lia.
Qed.

Lemma foldl_cheaper (l : list (PriceOption Z)) (c y : PriceOption Z) :
  foldl cheaper (cheaper c y) l = cheaper c (foldl cheaper y l).
Proof.
  revert c y. induction l as [|z l IH]; intros c y; simpl; [done|].
  by rewrite !IH, cheaper_assoc.
Qed.

Lemma cheapestOption_cheaper (first : PriceOption Z) (options : list (PriceOption Z)) :
  BestPriceDPOptimized.cheapestOption first options = foldl cheaper first options.
Proof. done. Qed.

Lemma cheaper_diag (a : PriceOption Z) : cheaper a a = a.
Proof. unfold cheaper. by rewrite Z.ltb_irrefl. Qed.

Lemma sortByPrice_foldl (rest : list (PriceOption Z)) (first : PriceOption Z) :
  ∃ t, BestPriceDPOptimized.sortByPrice (first :: rest) = foldl cheaper first rest :: t.
Proof.
  revert first. induction rest as [|y rest IH]; intros first.
  - by exists [].
  - destruct (IH y) as [t Ht].
    change (BestPriceDPOptimized.sortByPrice (first :: y :: rest))
      with (BestPriceDPOptimized.insertByPrice first
              (BestPriceDPOptimized.sortByPrice (y :: rest))).
    rewrite Ht. cbn [foldl]. rewrite foldl_cheaper.
    generalize (foldl cheaper y rest). intros h.
    cbn [BestPriceDPOptimized.insertByPrice]. unfold cheaper.
    destruct (Z.leb_spec (price first) (price h)), (Z.ltb_spec (price h) (price first));
      try lia; eauto.
Qed.

Lemma sortByPrice_first (first : PriceOption Z) (rest : list (PriceOption Z)) :
  ∃ t, BestPriceDPOptimized.sortByPrice (first :: rest)
       = BestPriceDPOptimized.cheapestOption first (first :: rest) :: t.
Proof.
  rewrite cheapestOption_cheaper. cbn [foldl]. rewrite cheaper_diag.
  apply sortByPrice_foldl.
Qed.

Lemma cheapestOption_elem_of (first : PriceOption Z) (rest : list (PriceOption Z)) :
  BestPriceDPOptimized.cheapestOption first (first :: rest) ∈ first :: rest.
Proof.
  destruct (sortByPrice_first first rest) as [t Ht].
  apply (elem_of_sortByPrice _ (first :: rest)). rewrite Ht. apply elem_of_cons. by left.
Qed.

(** ** The greedy bound *)

Section GreedyFacts.
Variable ix : Index Z.

Lemma greedyOption_Some (id : string) (first : PriceOption Z) (rest : list (PriceOption Z)) :
  itemToShops ix !! id = Some (first :: rest) →
  greedyOption ix id = Some (BestPriceDPOptimized.cheapestOption first (first :: rest))
  ∧ BestPriceDPOptimized.cheapestOption first (first :: rest) ∈ first :: rest
  ∧ price (BestPriceDPOptimized.cheapestOption first (first :: rest)) = cheapestPrice ix id.
Proof.
  intros Hid. unfold greedyOption. rewrite Hid. split; [done|].
  split; [apply cheapestOption_elem_of|].
  by rewrite cheapestOption_minPrice, (minPrice_cheapestPrice ix id).
Qed.

Lemma greedyOption_None (id : string) :
  available ix id = false → greedyOption ix id = None.
Proof.
  unfold available, greedyOption. by destruct (itemToShops ix !! id) as [[|? ?]|].
Qed.

Lemma greedyOptions_cons (id : string) (ids : list string) :
  greedyOptions ix (id :: ids)
  = match greedyOption ix id with
    | Some o => o :: greedyOptions ix ids
    | None => greedyOptions ix ids
    end.
Proof. done. Qed.

Lemma greedySelection_cons (id : string) (ids : list string) :
  greedySelection ix (id :: ids)
  = match greedyOption ix id with
    | Some o => mkSelection id (shop o) (price o) :: greedySelection ix ids
    | None => greedySelection ix ids
    end.
Proof. unfold greedySelection. simpl. by destruct (greedyOption ix id). Qed.

Lemma getGreedyUpperBound_fold (ids : list string) (total : Z) (used : JSet) :
  foldl (λ '(totalCost, shopsUsed) itemId,
           match itemToShops ix !! itemId with
           | None | Some [] => (totalCost, shopsUsed)
           | Some ((first :: _) as options) =>
               let cheapest := BestPriceDPOptimized.cheapestOption first options in
               (totalCost + price cheapest, set_add (shop cheapest) shopsUsed)
           end)
        (total, used) ids
  = (total + combinationCost (greedyOptions ix ids),
     foldl (λ s x, set_add x s) used (shop <$> greedyOptions ix ids)).
Proof.
  revert total used. induction ids as [|id ids IH]; intros total used.
  - simpl. f_equal. unfold combinationCost. simpl. lia.
  - cbn [foldl]. rewrite greedyOptions_cons.
    destruct (itemToShops ix !! id) as [[|first rest]|] eqn:Eid.
    + assert (greedyOption ix id = None) as -> by (unfold greedyOption; by rewrite Eid).
      apply IH.
    + destruct (greedyOption_Some id first rest Eid) as (-> & _).
      etrans; [apply IH|].
      rewrite fmap_cons, combinationCost_cons. cbn [foldl]. f_equal. lia.
    + assert (greedyOption ix id = None) as -> by (unfold greedyOption; by rewrite Eid).
      apply IH.
Qed.

Lemma getGreedyUpperBound_greedyOptions (ids : list string) :
  BestPriceDPOptimized.getGreedyUpperBound ix ids
  = BestPriceDPOptimized.mkBound
      (combinationCost (greedyOptions ix ids))
      (set_size (set_of_list (shop <$> greedyOptions ix ids))).
Proof.
  unfold BestPriceDPOptimized.getGreedyUpperBound.
  rewrite getGreedyUpperBound_fold. by rewrite Z.add_0_l.
Qed.

Lemma greedyOptions_combination (ids : list string) :
  greedyOptions ix ids ∈ allCombinations ix (filter (λ id, available ix id = true) ids).
Proof.
  induction ids as [|id ids IH].
  - apply list_elem_of_singleton. done.
  - rewrite filter_cons, greedyOptions_cons.
    destruct (decide (available ix id = true)) as [Hav|Hno].
    + apply available_hasOption in Hav as (first & rest & Hid).
      destruct (greedyOption_Some id first rest Hid) as (-> & Hin & _).
      apply elem_of_allCombinations_cons. eexists _, _. split; [done|].
      split; [by rewrite Hid|done].
    + apply not_true_is_false in Hno. by rewrite (greedyOption_None id Hno).
Qed.

Lemma greedySelection_options (ids : list string) :
  selShop <$> greedySelection ix ids = shop <$> greedyOptions ix ids.
Proof.
  induction ids as [|id ids IH]; [done|].
  rewrite greedySelection_cons, greedyOptions_cons.
  destruct (greedyOption ix id); [|done]. by rewrite !fmap_cons, IH.
Qed.

Lemma greedySelection_for (ids : list string) :
  (∀ id, id ∈ ids → hasOption ix id) →
  selectionFor ix ids (greedySelection ix ids)
  ∧ selectionCost (greedySelection ix ids) = cheapestSum ix ids
  ∧ Forall2 (λ id s, selPrice s = cheapestPrice ix id) ids (greedySelection ix ids).
Proof.
  unfold selectionFor, selectionCost.
  induction ids as [|id ids IH]; intros Hav.
  - split; [constructor|]. split; [done|constructor].
  - destruct (Hav id) as (first & rest & Hid); [apply elem_of_cons; by left|].
    destruct IH as (IH1 & IH2 & IH3).
    { intros id' Hin. apply Hav, elem_of_cons. by right. }
    destruct (greedyOption_Some id first rest Hid) as (Hg & Hin & Hprice).
    rewrite greedySelection_cons, Hg.
    split; [|split].
    + constructor; [|done]. simpl. split; [done|].
      by exists (first :: rest), (BestPriceDPOptimized.cheapestOption first (first :: rest)).
    + rewrite fmap_cons. cbn [foldr selPrice]. rewrite IH2, cheapestSum_cons, Hprice. done.
    + constructor; [|done]. done.
Qed.
End GreedyFacts.

(** ** The plan of the branch and bound *)

Section GreedyPlan.
Variable ix : Index Z.
Variable ids : list string.

Lemma reconstruct_greedy (depth index : nat) (mask cost : Z)
    (r : BestPriceDPOptimized.Replay) :
  (length ids - index < depth)%nat → (index ≤ length ids)%nat →
  cost + cheapestSum ix (drop index ids) ≤ cheapestSum ix ids →
  (∀ id, id ∈ drop index ids → hasOption ix id) →
  ∃ r',
    BestPriceDPOptimized.reconstruct ix ids depth (Fin (cheapestSum ix ids))
      index mask cost r = Some (Normal r')
    ∧ BestPriceDPOptimized.optimalSelection r'
      = BestPriceDPOptimized.optimalSelection r ++ greedySelection ix (drop index ids).
Proof.
  revert index mask cost r.
  induction depth as [|depth IH]; intros index mask cost r Hd Hi Hcost Hav; [lia|].
  cbn [BestPriceDPOptimized.reconstruct].
  destruct (decide (index = length ids)) as [->|Hne].
  - rewrite drop_all. exists r. split; [done|]. by rewrite app_nil_r.
  - destruct (lookup_lt_is_Some_2 ids index) as [id Hid]; [lia|].
    rewrite Hid. rewrite (drop_S _ _ _ Hid) in Hcost, Hav |- *.
    rewrite cheapestSum_cons in Hcost.
    destruct (Hav id) as (first & rest & Eopt); [apply elem_of_cons; by left|].
    rewrite Eopt, getLowerBound_cheapestSum.
    destruct (sortByPrice_first first rest) as (t & ->).
    destruct (greedyOption_Some ix id first rest Eopt) as (Hg & _ & Hprice).
    cbn [find]. rewrite withinTolerance_le by lia.
    match goal with |- context [BestPriceDPOptimized.reconstruct _ _ _ _ _ ?m ?c ?r1] =>
      destruct (IH (S index) m c r1) as (r' & -> & Hsel) end; [lia|lia|lia| |].
    { intros id' Hin. apply Hav, elem_of_cons. by right. }
    exists r'. split; [done|]. rewrite Hsel.
    cbn [BestPriceDPOptimized.optimalSelection].
    by rewrite greedySelection_cons, Hg, <- app_assoc.
Qed.

Lemma boundedSearch_greedy (gas : nat) :
  (∀ id, id ∈ ids → hasOption ix id) →
  BestPriceDPOptimized.solve gas ix ids
  = Some (Plan (mkResult (toSelectedItems (greedySelection ix ids))
                         (Fin (cheapestSum ix ids))
                         (Fin (if decide (0 < length (greedySelection ix ids))%nat
                               then set_size (set_of_list
                                                (selShop <$> greedySelection ix ids))
                               else 0))
                         (set_of_list (selShop <$> greedySelection ix ids)))).
Proof.
  intros Hav. rewrite solve_finish. unfold BestPriceDPOptimized.finish.
  destruct (primed_invariant ix ids) as [-> _].
  destruct (reconstruct_greedy (S (length ids)) 0 0 0 (BestPriceDPOptimized.mkReplay [] 0))
    as (r' & -> & Hsel); [lia|lia|rewrite drop_0; lia|by rewrite drop_0|].
  rewrite drop_0 in Hsel. simpl in Hsel. by rewrite Hsel.
Qed.
End GreedyPlan.

(** X15 [bestPriceDPOptimized.ts]: for safe prices, on every request whose
    items all have an option, the plan the branch and bound prints is the
    greedy plan: each item, in the order of the request, at the first of
    its cheapest options.  Its [totalCost] is the sum of its prices, its
    [shops] are the shops of its items, each once, and its [shopCount] is
    their number, the shop count of the greedy bound. *)
Theorem branch_and_bound_prints_the_greedy_plan (gas : nat) (ix : Index Z)
    (ids : list string) :
  safePrices ix ids →
  (∀ id, id ∈ ids → hasOption ix id) →
  ∃ r, BestPriceDPOptimized.solve gas ix ids = Some (Plan r)
       ∧ selectedItems r = toSelectedItems (greedySelection ix ids)
       ∧ pricedPlan ix ids r
       ∧ Forall2 (λ id it, itemPrice it = cheapestPrice ix id) ids (selectedItems r)
       ∧ NoDup (shops r)
       ∧ (∀ s, s ∈ shops r ↔ s ∈ itemShop <$> selectedItems r)
       ∧ shopCount r = Fin (distinctShops r)
       ∧ shopCount r
         = Fin (BestPriceDPOptimized.shopCount
                  (BestPriceDPOptimized.getGreedyUpperBound ix ids)).
Proof.
  intros _ Hav. eexists. split; [by apply boundedSearch_greedy|].
  destruct (greedySelection_for ix ids Hav) as (Hsel & Hcost & Hprices).
  destruct (toSelectedItems_spec ix ids _ Hsel) as (Hids & Hlisted & Hsum & Hshops).
  assert (Hcount :
    (if decide (0 < length (greedySelection ix ids))%nat
     then set_size (set_of_list (selShop <$> greedySelection ix ids)) else 0)
    = set_size (set_of_list (selShop <$> greedySelection ix ids))).
  { destruct (decide _) as [_|Hz]; [done|].
    destruct (greedySelection ix ids); [done|]. simpl in Hz. lia. }
  unfold pricedPlan, distinctShops. simpl. rewrite Hcount.
  split; [done|]. split; [|split; [|split; [|split; [|split]]]].
  - split; [done|]. split; [done|]. by rewrite Hsum, Hcost.
  - unfold toSelectedItems. apply Forall2_fmap_r.
    eapply Forall2_impl; [exact Hprices|]. done.
  - apply set_of_list_NoDup.
  - intros s. by rewrite set_of_list_elem_of, Hshops.
  - rewrite Hshops. unfold set_size. by rewrite set_of_list_remove_dups.
  - by rewrite getGreedyUpperBound_greedyOptions, greedySelection_options.
Qed.

Lemma branch_and_bound_prints_the_greedy_plan_witness :
  safePrices (indexOf tiedShops) ["A"; "B"]
  ∧ (∀ id, id ∈ ["A"; "B"] → hasOption (indexOf tiedShops) id)
  ∧ ∃ r, BestPriceDPOptimized.solve 32 (indexOf tiedShops) ["A"; "B"] = Some (Plan r)
         ∧ selectedItems r = [mkItem "A" "V1" 100; mkItem "B" "V2" 50]
         ∧ shopCount r = Fin (distinctShops r).
Proof.
  assert (Hav : ∀ id, id ∈ ["A"; "B"] → hasOption (indexOf tiedShops) id).
  { intros id Hid. apply available_hasOption.
    repeat (apply elem_of_cons in Hid as [->|Hid]; [by vm_compute|]).
    by apply elem_of_nil in Hid. }
  assert (Hsafe : safePrices (indexOf tiedShops) ["A"; "B"]) by (by vm_compute).
  split; [exact Hsafe|]. split; [exact Hav|].
  destruct (branch_and_bound_prints_the_greedy_plan 32 (indexOf tiedShops) ["A"; "B"]
              Hsafe Hav)
    as (r & Hsolve & Hitems & _ & _ & _ & _ & Hcount & _).
  exists r. split; [exact Hsolve|]. split; [|exact Hcount].
  rewrite Hitems. by vm_compute.
Defined.

(** X16 [getGreedyUpperBound]: for safe prices the bound is the cost and
    the number of distinct shops of one combination of vendor choices for
    the requested items that have an option, the first cheapest option of
    each; an item without options is skipped and adds nothing. *)
Theorem greedy_bound_is_a_combination (ix : Index Z) (itemIds : list string) :
  safePrices ix itemIds →
  ∃ c, c ∈ allCombinations ix (filter (λ id, available ix id = true) itemIds)
       ∧ combinationCost c
         = BestPriceDPOptimized.cost (BestPriceDPOptimized.getGreedyUpperBound ix itemIds)
       ∧ vendorCount c
         = BestPriceDPOptimized.shopCount
             (BestPriceDPOptimized.getGreedyUpperBound ix itemIds)
       ∧ Forall (λ o, ∃ id, id ∈ itemIds ∧ greedyOption ix id = Some o
                            ∧ price o = cheapestPrice ix id) c.
Proof.
  intros _. exists (greedyOptions ix itemIds).
  split; [apply greedyOptions_combination|].
  rewrite getGreedyUpperBound_greedyOptions. simpl. split; [done|]. split.
  - unfold vendorCount, set_size. by rewrite set_of_list_remove_dups.
  - induction itemIds as [|id ids IH]; [constructor|].
    rewrite greedyOptions_cons.
    assert (Hrest : Forall (λ o, ∃ id0, id0 ∈ id :: ids ∧ greedyOption ix id0 = Some o
                                        ∧ price o = cheapestPrice ix id0)
                      (greedyOptions ix ids)).
    { eapply Forall_impl; [exact IH|]. intros o (id0 & Hin & Hg & Hp).
      exists id0. split; [apply elem_of_cons; by right|done]. }
    destruct (greedyOption ix id) as [o|] eqn:Hg; [|done].
    constructor; [|done]. exists id. split; [apply elem_of_cons; by left|].
    split; [done|]. unfold greedyOption in Hg.
    destruct (itemToShops ix !! id) as [[|first rest]|] eqn:Eid; try done.
    injection Hg as <-. by destruct (greedyOption_Some ix id first rest Eid) as (_ & _ & ?).
Qed.

Lemma greedy_bound_is_a_combination_witness :
  safePrices (indexOf tiedShops) ["A"; "C"; "B"]
  ∧ BestPriceDPOptimized.getGreedyUpperBound (indexOf tiedShops) ["A"; "C"; "B"]
    = BestPriceDPOptimized.mkBound 150 2
  ∧ ∃ c, c ∈ allCombinations (indexOf tiedShops) ["A"; "B"]
         ∧ combinationCost c = 150 ∧ vendorCount c = 2.
Proof.
  assert (Hsafe : safePrices (indexOf tiedShops) ["A"; "C"; "B"]) by (by vm_compute).
  split; [exact Hsafe|]. split; [by vm_compute|].
  destruct (greedy_bound_is_a_combination (indexOf tiedShops) ["A"; "C"; "B"] Hsafe)
    as (c & Hc & Hcost & Hcount & _).
  exists c. split; [exact Hc|]. split; [exact Hcost|exact Hcount].
Defined.

(** ** What [dp] returns and counts *)

Section SearchValues.
Variable gas : nat.
Variable ix : Index Z.
Variable ids : list string.

Lemma Math_min_zero (a b : number) :
  zeroOrInfinity a → zeroOrInfinity b → zeroOrInfinity (Math_min a b).
Proof. intros [-> | ->] [-> | ->]; vm_compute; auto. Qed.

Lemma memoZero_memoSet (key : nat * Z) (v : number) (st : BestPriceDPOptimized.DP) :
  memoZero st → zeroOrInfinity v → memoZero (BestPriceDPOptimized.memoSet key v st).
Proof.
  intros Hst Hv key' v'. unfold BestPriceDPOptimized.memoSet. simpl.
  destruct (decide (key = key')) as [->|Hne].
  - rewrite lookup_insert_eq. by intros [= <-].
  - rewrite lookup_insert_ne by done. apply Hst.
Qed.

Lemma bb_forOptions_zero
    (rec : Z → Z → BestPriceDPOptimized.DP → option (number * BestPriceDPOptimized.DP))
    (mask c : Z) (sorted : list (PriceOption Z)) :
  (∀ m k st v st', memoZero st → rec m k st = Some (v, st') →
     zeroOrInfinity v ∧ memoZero st') →
  ∀ best st v st',
    zeroOrInfinity best → memoZero st →
    BestPriceDPOptimized.forOptions rec mask c sorted best st = Some (v, st') →
    zeroOrInfinity v ∧ memoZero st'.
Proof.
  intros Hrec. induction sorted as [|opt sorted IH]; intros best st v st' Hbest Hst.
  - by intros [= <- <-].
  - rewrite bb_forOptions_cons.
    destruct (num_geb _ _); [by apply IH|].
    destruct (rec _ _ st) as [[future st1]|] eqn:Erec; [|done].
    destruct (Hrec _ _ _ _ _ Hst Erec) as [Hfuture Hst1].
    destruct future as [z|]; [|by apply IH].
    apply IH; [|done]. by apply Math_min_zero.
Qed.

(** X18 [dp] of [bestPriceDPOptimized.ts]: whatever the ceiling, a value
    that [dp] returns or writes to the memo is [Infinity] or 0, never the
    cost of the items that are left: the loop over the options takes the
    minimum of the values of the recursive calls and does not add the
    price of the option. *)
Theorem branch_and_bound_dp_returns_zero_or_infinity (depth i : nat) (mask c : Z)
    (st : BestPriceDPOptimized.DP)
    (v : number) (st' : BestPriceDPOptimized.DP) :
  memoZero st →
  BestPriceDPOptimized.dp gas ix ids depth i mask c st = Some (v, st') →
  zeroOrInfinity v ∧ memoZero st'.
Proof.
  revert i mask c st v st'.
  induction depth as [|depth IH]; intros i mask c st v st' Hst; [done|].
  cbn [BestPriceDPOptimized.dp].
  destruct (num_geb _ _); [intros [= <- <-]; split; [by left|done]|].
  destruct (decide (i = length ids)) as [->|Hne].
  { destruct (popcount gas mask); [|done].
    destruct (_ || _); intros [= <- <-]; (split; [by right|exact Hst]). }
  destruct (BestPriceDPOptimized.memo st !! _) as [value|] eqn:Ememo.
  { intros [= <- <-]. split; [by apply (Hst _ _ Ememo)|done]. }
  cbv zeta.
  assert (Hexp : memoZero (BestPriceDPOptimized.explored st)) by done.
  destruct (ids !! i ≫= (itemToShops ix !!.)) as [[|first rest]|].
  - intros [= <- <-]. split; [by left|]. apply memoZero_memoSet; [done|by left].
  - destruct (num_geb _ _).
    { intros [= <- <-]. split; [by left|]. apply memoZero_memoSet; [done|by left]. }
    destruct (BestPriceDPOptimized.forOptions _ _ _ _ _ _) as [[best st1]|] eqn:Eloop;
      [|done].
    apply (bb_forOptions_zero _ _ _ _ (IH (S i))) in Eloop as [Hbest Hst1];
      [|by left|done].
    intros [= <- <-]. split; [done|]. by apply memoZero_memoSet.
  - intros [= <- <-]. split; [by left|]. apply memoZero_memoSet; [done|by left].
Qed.

(** X17 [bestPriceDPOptimized.ts]: for safe prices the search as the file
    starts it makes one call of [dp] and no more.  That call returns
    [Infinity]; at most one state is explored, nothing is ever found in the
    memo, and one state is counted as pruned when every requested item has
    an option. *)
Theorem branch_and_bound_stops_at_the_root :
  safePrices ix ids →
  ∃ st,
    BestPriceDPOptimized.search gas ix ids = Some (Infinity, st)
    ∧ (BestPriceDPOptimized.statesExplored st ≤ 1)%nat
    ∧ (BestPriceDPOptimized.statesPruned st ≤ 1)%nat
    ∧ BestPriceDPOptimized.memoHits st = 0%nat
    ∧ (1 ≤ BestPriceDPOptimized.statesExplored st
           + BestPriceDPOptimized.statesPruned st)%nat
    ∧ ((∀ id, id ∈ ids → hasOption ix id) →
       BestPriceDPOptimized.statesPruned st = 1%nat).
Proof.
  intros _. unfold BestPriceDPOptimized.search. cbn [BestPriceDPOptimized.dp].
  destruct (primed_invariant ix ids) as [Hbest _]. rewrite Hbest.
  destruct (num_geb (Fin 0) (Fin (cheapestSum ix ids))) eqn:Egeb.
  { eexists. split; [done|]. simpl. repeat split; lia. }
  simpl in Egeb. apply Z.leb_gt in Egeb.
  destruct (decide (0%nat = length ids)) as [Hz|Hne].
  { destruct ids; [|done]. simpl in Egeb. lia. }
  unfold BestPriceDPOptimized.primed at 1. cbn [BestPriceDPOptimized.memo].
  rewrite lookup_empty. cbv zeta.
  cbn [BestPriceDPOptimized.bestCost BestPriceDPOptimized.explored].
  destruct ids as [|id rest] eqn:Eids; [done|]. rewrite <- Eids in *.
  assert (Hid : ids !! 0%nat = Some id) by by rewrite Eids.
  rewrite Hid. cbn [mbind option_bind].
  destruct (itemToShops ix !! id) as [[|first others]|] eqn:Eopt.
  - eexists. split; [done|]. simpl. split; [lia|]. split; [lia|]. split; [done|].
    split; [lia|]. intros Hav.
    destruct (Hav id) as (f & r & Hf); [rewrite Eids; apply elem_of_cons; by left|].
    congruence.
  - rewrite Hbest, getLowerBound_cheapestSum, drop_0.
    assert (num_geb (Fin (0 + cheapestSum ix ids)) (Fin (cheapestSum ix ids)) = true) as ->.
    { simpl. apply Z.leb_le. lia. }
    eexists. split; [done|]. simpl. repeat split; lia.
  - eexists. split; [done|]. simpl. split; [lia|]. split; [lia|]. split; [done|].
    split; [lia|]. intros Hav.
    destruct (Hav id) as (f & r & Hf); [rewrite Eids; apply elem_of_cons; by left|].
    congruence.
Qed.
End SearchValues.

Lemma branch_and_bound_stops_at_the_root_witness :
  safePrices (indexOf twoShops) ["A"; "B"]
  ∧ ∃ st,
      BestPriceDPOptimized.search 32 (indexOf twoShops) ["A"; "B"] = Some (Infinity, st)
      ∧ BestPriceDPOptimized.statesExplored st = 1%nat
      ∧ BestPriceDPOptimized.statesPruned st = 1%nat
      ∧ BestPriceDPOptimized.memoHits st = 0%nat.
Proof.
  assert (Hsafe : safePrices (indexOf twoShops) ["A"; "B"]) by (by vm_compute).
  split; [exact Hsafe|].
  destruct (branch_and_bound_stops_at_the_root 32 (indexOf twoShops) ["A"; "B"] Hsafe)
    as (st & Hs & _ & _ & Hh & _ & Hp).
  exists st. split; [exact Hs|]. split; [|split; [|exact Hh]].
  - vm_compute in Hs. by injection Hs as <-.
  - apply Hp, twoShops_hasOption.
Defined.

Lemma branch_and_bound_dp_returns_zero_or_infinity_witness :
  ∃ st,
    BestPriceDPOptimized.dp 32 (indexOf twoShops) ["A"; "B"] 3 0 0 0
      (BestPriceDPOptimized.mkDP ∅ Infinity Infinity 0 0 0) = Some (Fin 0, st)
    ∧ BestPriceDPOptimized.bestCost st = Fin 15
    ∧ memoZero st.
Proof.
  destruct (BestPriceDPOptimized.dp 32 (indexOf twoShops) ["A"; "B"] 3 0 0 0
              (BestPriceDPOptimized.mkDP ∅ Infinity Infinity 0 0 0))
    as [[v st]|] eqn:E; [|by vm_compute in E].
  assert (Hv : v = Fin 0) by (vm_compute in E; by injection E as <- _).
  assert (Hb : BestPriceDPOptimized.bestCost st = Fin 15)
    by (vm_compute in E; by injection E as _ <-).
  exists st. rewrite Hv. split; [done|]. split; [exact Hb|].
  apply (branch_and_bound_dp_returns_zero_or_infinity 32 (indexOf twoShops) ["A"; "B"]
           3 0 0 0 (BestPriceDPOptimized.mkDP ∅ Infinity Infinity 0 0 0) v st).
  - intros key value. simpl. by rewrite lookup_empty.
  - exact E.
Defined.


(** ** C4: every run prints a plan *)





(** ** A whole run ends in a plan *)

Lemma solved_plan (ix : Index Z) (ids : list string) (o : Outcome) :
  (∀ id, id ∈ ids → hasOption ix id) →
  (∃ r, o = Plan r ∧ totalCost r = Fin (cheapestSum ix ids)) →
  (∀ r, o = Plan r → pricedPlan ix ids r) →
  ∃ r t, o = Plan r ∧ pricedPlan ix ids r
         ∧ totalCost r = Fin t ∧ minimumCost ix ids t.
Proof.
  intros Hav (r & -> & Hcost) Hplan. exists r, (cheapestSum ix ids).
  split; [done|]. split; [by apply Hplan|]. split; [done|].
  by apply cheapestSum_minimumCost.
Qed.

(** X19 the three files, from the catalog to the result: for a catalog of
    safe prices, when a run gets to its solver and the solver returns, the
    request holds [itemCount] pairwise distinct ids, each with an option,
    and the run ends in a plan, not in "Could not find a solution" and not
    in the exception of the replay.  The plan names the requested ids in
    order, each at a shop and a price the catalog lists for it, and its
    [totalCost] is the sum of these prices and the minimum over all
    combinations of vendor choices.  Nothing is said of [shopCount] and
    [shops], which [plan_consistency_evaluation] shows at odds with the
    selected items.  For [bestPriceDP.ts] this holds with at most 31 shops
    in the catalog. *)
Theorem run_ends_in_a_plan {Raw : Type} (Number : Raw → Z) (shopsData : ShopsData Raw)
    (parsed : option jsnum) (draws : list nat) (gas : nat)
    (ids : list string) (o : Outcome) :
  (∀ ix, buildIndex Number shopsData = Normal ix →
         safePrices ix (allItemIds shopsData)) →
  run BestPrice.solve Number shopsData parsed draws = Some (Solved ids o)
  ∨ run (BestPriceDPOptimized.solve gas) Number shopsData parsed draws
    = Some (Solved ids o)
  ∨ (run (BestPriceDP.solve gas) Number shopsData parsed draws = Some (Solved ids o)
     ∧ (32 ≤ gas)%nat ∧ (length shopsData ≤ 31)%nat) →
  readItemCount parsed = Some (Z.of_nat (length ids))
  ∧ NoDup ids
  ∧ ∃ ix r t, buildIndex Number shopsData = Normal ix
              ∧ (∀ id, id ∈ ids → hasOption ix id)
              ∧ safePrices ix ids
              ∧ o = Plan r ∧ pricedPlan ix ids r
              ∧ totalCost r = Fin t ∧ minimumCost ix ids t.
Proof.
  intros Hsafe [Hrun|[Hrun|(Hrun & Hgas & Hfew)]];
    apply run_Solved in Hrun as (ix & Hb & Hcount & Hne & Hnd & Hav & Hsolve);
    (split; [done|]); (split; [done|]); exists ix;
    assert (Hsafe' : safePrices ix ids)
      by (apply (safePrices_request ix (allItemIds shopsData)); [done| |by apply Hsafe];
          intros id Hid; by apply (allItemIds_hasOption Number shopsData ix id Hb), Hav);
    cut (∃ r t, o = Plan r ∧ pricedPlan ix ids r
                ∧ totalCost r = Fin t ∧ minimumCost ix ids t).
  1,3,5: intros (r & t & ? & ? & ? & ?); by exists r, t.
  - apply solved_plan; [done| |].
    + destruct (bruteForce_solve ix ids Hne Hav) as (r & Hr & Hcost).
      exists r. split; [congruence|done].
    + intros r ->. destruct (bruteForce_plan ix ids) as (o' & Ho' & _ & Hplan).
      rewrite Hsolve in Ho'. injection Ho' as <-. by apply Hplan.
  - apply solved_plan; [done| |].
    + destruct (boundedSearch_solve gas ix ids Hav) as (r & Hr & Hcost).
      exists r. split; [congruence|done].
    + intros r ->. rewrite (boundedSearch_greedy ix ids gas Hav) in Hsolve.
      injection Hsolve as <-.
      destruct (greedySelection_for ix ids Hav) as (Hsel & Hcost & _).
      destruct (toSelectedItems_spec ix ids _ Hsel) as (Hids & Hlisted & Hsum & _).
      unfold pricedPlan. simpl. by rewrite Hsum, Hcost.
  - apply solved_plan; [done| |].
    + assert (Hbelow : vendorsBelow 31 ix).
      { apply (buildIndex_vendorsBelow Number shopsData ix 31 Hb).
        pose proof (buildIndex_length Number shopsData ix Hb). lia. }
      pose proof (memoized_solve gas ix ids Hgas (vendorsBelow_noSignBit ix ids Hbelow))
        as Hdp.
      rewrite (bestTotal_available ix ids Hav) in Hdp.
      destruct Hdp as (r & Hr & Hcost). exists r. split; [congruence|done].
    + intros r ->. by apply (memoized_priced gas).
Qed.

Lemma run_ends_in_a_plan_witness :
  run BestPrice.solve (λ p : Z, p) twoShops (Some (JsInt 2)) [1; 1; 0]%nat
  = Some (Solved ["B"; "A"]
            (Plan (mkResult [mkItem "B" "V2" 5; mkItem "A" "V1" 10] (Fin 15) (Fin 2)
                     ["V2"; "V1"])))
  ∧ ∃ ix r t, buildIndex (λ p : Z, p) twoShops = Normal ix
              ∧ (∀ id, id ∈ ["B"; "A"] → hasOption ix id)
              ∧ safePrices ix ["B"; "A"]
              ∧ Plan (mkResult [mkItem "B" "V2" 5; mkItem "A" "V1" 10] (Fin 15) (Fin 2)
                        ["V2"; "V1"]) = Plan r
              ∧ pricedPlan ix ["B"; "A"] r
              ∧ totalCost r = Fin t ∧ minimumCost ix ["B"; "A"] t.
Proof.
  assert (Hrun :
    run BestPrice.solve (λ p : Z, p) twoShops (Some (JsInt 2)) [1; 1; 0]%nat
    = Some (Solved ["B"; "A"]
              (Plan (mkResult [mkItem "B" "V2" 5; mkItem "A" "V1" 10] (Fin 15) (Fin 2)
                       ["V2"; "V1"])))) by by vm_compute.
  split; [exact Hrun|].
  apply (run_ends_in_a_plan (λ p : Z, p) twoShops (Some (JsInt 2)) [1; 1; 0]%nat 32
           ["B"; "A"]).
  - intros ix Hix. rewrite twoShops_index in Hix. injection Hix as <-. by vm_compute.
  - left. exact Hrun.
Defined.

(** ** How the branch and bound ends *)

Lemma boundedSearch_total (gas : nat) (ix : Index Z) (ids : list string) :
  ∃ o, BestPriceDPOptimized.solve gas ix ids = Some o ∧ o ≠ NoSolution.
Proof.
  rewrite solve_finish. unfold BestPriceDPOptimized.finish.
  destruct (primed_invariant ix ids) as [-> _].
  destruct (reconstruct_spec ix ids (S (length ids)) 0 0 0
              (BestPriceDPOptimized.mkReplay [] 0))
    as (res & -> & _); [lia|lia|rewrite drop_0; lia|].
  destruct res; by eexists.
Qed.

(** X20 [bestPriceDPOptimized.ts]: for safe prices the code after the pick
    returns on every request (the limit of the call stack is not
    modelled), and never in "Could not find a solution": the ceiling is
    primed with a number, so the test on [Infinity] cannot succeed.  It
    ends in the uncaught exception of the replay exactly when the request
    names an item without options, which the request of a run never
    does. *)
Theorem branch_and_bound_never_reports_no_solution {Raw : Type} (Number : Raw → Z)
    (shopsData : ShopsData Raw) (ix : Index Z) (ids : list string) (gas : nat) :
  buildIndex Number shopsData = Normal ix →
  safePrices ix ids →
  ∃ o, BestPriceDPOptimized.solve gas ix ids = Some o
       ∧ o ≠ NoSolution
       ∧ (o = Uncaught ↔ ∃ id, id ∈ ids ∧ ¬ hasOption ix id).
Proof.
  intros Hb _. destruct (buildIndex_wf _ _ _ Hb) as (_ & _ & _ & Hfull).
  destruct (forallb (available ix) ids) eqn:Hall.
  - destruct (boundedSearch_solve gas ix ids) as (r & Hr & _).
    { by apply forallb_available. }
    exists (Plan r). split; [done|]. split; [done|]. split; [done|].
    intros Hno. apply forallb_available_false in Hno. congruence.
  - exists Uncaught. split; [by apply boundedSearch_uncaught|]. split; [done|].
    split; [|done]. intros _. by apply forallb_available_false.
Qed.

Lemma branch_and_bound_never_reports_no_solution_witness :
  safePrices (indexOf twoShops) ["A"; "C"]
  ∧ ∃ o, BestPriceDPOptimized.solve 32 (indexOf twoShops) ["A"; "C"] = Some o
         ∧ o ≠ NoSolution
         ∧ (o = Uncaught ↔ ∃ id, id ∈ ["A"; "C"] ∧ ¬ hasOption (indexOf twoShops) id).
Proof.
  assert (Hsafe : safePrices (indexOf twoShops) ["A"; "C"]) by (by vm_compute).
  split; [exact Hsafe|].
  apply (branch_and_bound_never_reports_no_solution (λ p : Z, p) twoShops).
  - apply twoShops_index.
  - exact Hsafe.
Defined.

(** ** A whole run returns *)

(** X21 [bestPrice.ts] and [bestPriceDPOptimized.ts], from the catalog to
    the result: for a catalog of safe prices, once the draws have named
    every position of [allItemIds], the run ends, whatever the argument
    (the limit of the call stack is not modelled): in the exception of an
    empty inventory object, in [process.exit(1)], or with the outcome of
    the solver. *)
Theorem run_returns {Raw : Type} (Number : Raw → Z) (shopsData : ShopsData Raw)
    (parsed : option jsnum) (draws : list nat) (gas : nat) :
  (∀ ix, buildIndex Number shopsData = Normal ix →
         safePrices ix (allItemIds shopsData)) →
  Forall (λ i, (i < length (allItemIds shopsData))%nat) draws →
  (∀ i, (i < length (allItemIds shopsData))%nat → i ∈ draws) →
  is_Some (run BestPrice.solve Number shopsData parsed draws)
  ∧ is_Some (run (BestPriceDPOptimized.solve gas) Number shopsData parsed draws).
Proof.
  intros _ Hrange Hcover. unfold run.
  destruct (buildIndex Number shopsData) as [ix|]; [|by split].
  destruct (readItemCount parsed) as [itemCount|]; [|by split].
  destruct (_ <? _); [by split|].
  destruct (pickRandomItems_loop_returns itemCount (allItemIds shopsData) draws
              (set_of_list_NoDup _) []) as [ids Hids]; [|done|].
  { intros i id Hi. left. apply Hcover. by eapply lookup_lt_Some. }
  unfold pickRandomItems. rewrite Hids. split.
  - destruct (bruteForce_plan ix ids) as (o & -> & _). done.
  - destruct (boundedSearch_total gas ix ids) as (o & -> & _). done.
Qed.

Lemma run_returns_witness :
  is_Some (run BestPrice.solve (λ p : Z, p) twoShops (Some (JsInt 2)) [0; 1]%nat)
  ∧ is_Some (run (BestPriceDPOptimized.solve 32) (λ p : Z, p) twoShops (Some (JsInt 2))
               [0; 1]%nat).
Proof.
  apply (run_returns (λ p : Z, p) twoShops (Some (JsInt 2)) [0; 1]%nat 32).
  - intros ix Hix. rewrite twoShops_index in Hix. injection Hix as <-. by vm_compute.
  - refine (bool_decide_unpack _ _). by vm_compute.
  - intros i Hi. change (length (allItemIds twoShops)) with 2%nat in Hi.
    assert (i = 0 ∨ i = 1)%nat as [-> | ->] by lia.
    + apply elem_of_cons. by left.
    + apply elem_of_cons. right. apply elem_of_cons. by left.
Defined.




(** ** The shops of a mask *)

Lemma toInt32_range (z : Z) : - 2 ^ 31 ≤ toInt32 z < 2 ^ 31.
Proof.
  unfold toInt32. pose proof (Z.mod_pos_bound (z + 2 ^ 31) (2 ^ 32)). lia.
Qed.

Lemma toInt32_idemp (z : Z) : toInt32 (toInt32 z) = toInt32 z.
Proof. apply toInt32_small, toInt32_range. Qed.

Lemma int32_high_bits (m n : Z) :
  - 2 ^ 31 ≤ m < 2 ^ 31 → 31 ≤ n → Z.testbit m n = Z.testbit m 31.
Proof.
  intros Hm Hn. destruct (Z.neg_nonneg_cases m) as [Hneg|Hpos].
  - rewrite !Z.bits_above_log2_neg; try done; try lia.
    + assert (Z.pred (- m) < 2 ^ 31) by lia.
      destruct (Z.eq_dec (Z.pred (- m)) 0) as [->|Hnz]; [simpl; lia|].
      apply Z.log2_lt_pow2; lia.
    + assert (Z.pred (- m) < 2 ^ 31) by lia.
      destruct (Z.eq_dec (Z.pred (- m)) 0) as [->|Hnz]; [simpl; lia|].
      apply Z.lt_le_trans with 31; [|lia]. apply Z.log2_lt_pow2; lia.
  - destruct (Z.eq_dec m 0) as [->|Hnz]; [by rewrite !Z.bits_0|].
    rewrite !Z.bits_above_log2; try done; try lia.
    + apply Z.log2_lt_pow2; lia.
    + apply Z.lt_le_trans with 31; [|lia]. apply Z.log2_lt_pow2; lia.
Qed.

Lemma shl_1_bits (k n : Z) :
  0 ≤ k < 32 → 0 ≤ n →
  Z.testbit (toInt32 (2 ^ k)) n = if decide (k = 31) then 31 <=? n else n =? k.
Proof.
  intros Hk Hn. destruct (decide (k = 31)) as [->|Hne].
  - change (toInt32 (2 ^ 31)) with (- 2 ^ 31).
    destruct (Z.leb_spec 31 n) as [Hge|Hlt].
    + rewrite (int32_high_bits (- 2 ^ 31) n) by lia. by vm_compute.
    + change (- 2 ^ 31) with (- 1 * 2 ^ 31).
      rewrite Z.mul_pow2_bits_low by lia. done.
  - rewrite toInt32_small.
    + rewrite Z.pow2_bits_eqb by lia. apply Z.eqb_sym.
    + split; [pose proof (Z.pow_pos_nonneg 2 k); lia|].
      apply Z.pow_lt_mono_r; lia.
Qed.

Lemma band_shl_testbit (mask : Z) (i : nat) :
  (band mask (shl 1 (Z.of_nat i)) =? 0)
  = negb (Z.testbit (toInt32 mask) (Z.of_nat i mod 32)).
Proof.
  unfold band, shl. change (toInt32 1) with 1.
  pose proof (Z.mod_pos_bound (Z.of_nat i) 32) as Hk.
  set (k := Z.of_nat i mod 32) in *.
  rewrite Z.shiftl_1_l, toInt32_idemp.
  pose proof (toInt32_range mask) as Hm. set (m := toInt32 mask) in *.
  destruct (Z.testbit m k) eqn:Hbit; simpl.
  - apply Z.eqb_neq. intros Hz.
    assert (Z.testbit (Z.land m (toInt32 (2 ^ k))) k = true); [|by rewrite Hz, Z.bits_0 in *].
    rewrite Z.land_spec, Hbit, shl_1_bits by lia.
    destruct (decide (k = 31)) as [->|?]; [done|]. apply Z.eqb_refl.
  - apply Z.eqb_eq. apply Z.bits_inj'. intros n Hn.
    rewrite Z.land_spec, Z.bits_0, shl_1_bits by lia.
    destruct (decide (k = 31)) as [Hk31|Hne].
    + destruct (Z.leb_spec 31 n); [|by rewrite andb_false_r].
      rewrite (int32_high_bits m n) by lia. rewrite Hk31 in Hbit. by rewrite Hbit.
    + destruct (Z.eqb_spec n k) as [->|?]; [by rewrite Hbit|by rewrite andb_false_r].
Qed.

Lemma shopsUsedFrom_shopsOfMask (names : list string) (i : nat) (mask : Z) :
  BestPriceDP.shopsUsedFrom i names mask = shopsOfMask i names mask.
Proof.
  unfold shopsOfMask. revert i. induction names as [|name names IH]; intros i; [done|].
  cbn [BestPriceDP.shopsUsedFrom length seq zip zip_with].
  rewrite filter_cons, band_shl_testbit, IH. cbn [fst].
  destruct (Z.testbit (toInt32 mask) (Z.of_nat i mod 32)); simpl.
  - destruct (decide (Is_true true)) as [_|H]; [done|by destruct H].
  - destruct (decide (Is_true false)) as [H|_]; [by destruct H|done].
Qed.

(** X22 [shopsUsed] of [bestPriceDP.ts]: for every mask, the loop lists,
    in the order of [shopList], the shops at the positions whose bit is
    set in the mask, the position taken modulo 32: [1 << i] wraps, so the
    shops at the positions [i] and [i + 32] are listed together. *)
Theorem shopsUsed_lists_the_shops_of_the_mask (names : list string) (mask : Z) :
  BestPriceDP.shopsUsedFrom 0 names mask = shopsOfMask 0 names mask
  ∧ ∀ name, name ∈ BestPriceDP.shopsUsedFrom 0 names mask
      ↔ ∃ i, names !! i = Some name
             ∧ Z.testbit (toInt32 mask) (Z.of_nat i mod 32) = true.
Proof.
  split; [apply shopsUsedFrom_shopsOfMask|].
  intros name. rewrite shopsUsedFrom_shopsOfMask. unfold shopsOfMask.
  rewrite list_elem_of_fmap. split.
  - intros ([i name'] & -> & Hin). apply list_elem_of_filter in Hin as [Hbit Hin].
    simpl in Hbit. apply list_elem_of_lookup in Hin as [j Hj].
    apply lookup_zip_with_Some in Hj as (i' & name'' & Heq & Hseq & Hname).
    apply lookup_seq in Hseq as [Hi' _]. simpl in Hi'. simplify_eq.
    exists j. split; [done|]. by apply Is_true_true.
  - intros (i & Hi & Hbit). exists (i, name). split; [done|].
    apply list_elem_of_filter. split; [simpl; by rewrite Hbit|].
    apply list_elem_of_lookup. exists i.
    rewrite lookup_zip_with, lookup_seq_lt by by eapply lookup_lt_Some.
    simpl. by rewrite Hi.
Qed.

Lemma shopsUsed_lists_the_shops_of_the_mask_example :
  BestPriceDP.shopsUsedFrom 0 (shopList (indexOf shops33)) 1 = [shopName 0; shopName 32].
Proof. by vm_compute. Qed.




(** ** The shop count of the greedy bound *)

Lemma greedyOptions_length (ix : Index Z) (ids : list string) :
  (length (greedyOptions ix ids) ≤ length ids)%nat.
Proof.
  induction ids as [|id ids IH]; [done|].
  rewrite greedyOptions_cons. destruct (greedyOption ix id); simpl; lia.
Qed.

Lemma greedy_shopCount_bounds (ix : Index Z) (ids : list string) :
  0 ≤ BestPriceDPOptimized.shopCount (BestPriceDPOptimized.getGreedyUpperBound ix ids)
    ≤ Z.of_nat (length ids).
Proof.
  rewrite getGreedyUpperBound_greedyOptions. simpl. unfold set_size.
  rewrite set_of_list_remove_dups.
  pose proof (greedyOptions_length ix ids) as Hlen.
  assert (length (remove_dups (shop <$> greedyOptions ix ids))
          ≤ length (shop <$> greedyOptions ix ids))%nat as Hdup.
  { apply NoDup_length_le; [apply NoDup_remove_dups|].
    intros x. by rewrite elem_of_remove_dups. }
  rewrite length_fmap in Hdup. lia.
Qed.

(** X23 [bestPriceDPOptimized.ts]: the shop count the search ends with is
    the one of the greedy bound, a number between 0 and the number of
    requested items; so the call of [popcount] on it, whose value the
    result never reads, returns for every request of fewer than 2^31
    items. *)
Theorem popcount_of_the_best_shop_count_returns (gas : nat) (ix : Index Z)
    (ids : list string) :
  (32 ≤ gas)%nat → Z.of_nat (length ids) < 2 ^ 31 →
  ∃ st k,
    BestPriceDPOptimized.search gas ix ids = Some (Infinity, st)
    ∧ BestPriceDPOptimized.bestShopCount st = Fin k
    ∧ k = BestPriceDPOptimized.shopCount (BestPriceDPOptimized.getGreedyUpperBound ix ids)
    ∧ 0 ≤ k ≤ Z.of_nat (length ids)
    ∧ is_Some (unusedShopCount gas st).
Proof.
  intros Hgas Hlen.
  destruct (search_pruned gas ix ids) as (st & Hsearch & _ & _ & Hcount & _).
  pose proof (greedy_shopCount_bounds ix ids) as Hbounds.
  exists st, (BestPriceDPOptimized.shopCount
                (BestPriceDPOptimized.getGreedyUpperBound ix ids)).
  split; [done|]. split; [done|]. split; [done|]. split; [done|].
  unfold unusedShopCount. rewrite Hcount. apply popcount_returns; [done|lia].
Qed.

Lemma popcount_of_the_best_shop_count_returns_witness :
  ∃ st k,
    BestPriceDPOptimized.search 32 (indexOf twoShops) ["A"; "B"] = Some (Infinity, st)
    ∧ BestPriceDPOptimized.bestShopCount st = Fin k
    ∧ k = BestPriceDPOptimized.shopCount
            (BestPriceDPOptimized.getGreedyUpperBound (indexOf twoShops) ["A"; "B"])
    ∧ 0 ≤ k ≤ Z.of_nat (length ["A"; "B"])
    ∧ is_Some (unusedShopCount 32 st).
Proof.
  apply (popcount_of_the_best_shop_count_returns 32 (indexOf twoShops) ["A"; "B"]).
  - lia.
  - by vm_compute.
Defined.




(** ** The ceiling only moves down *)

Lemma num_ltb_trans (a b c : number) :
  num_ltb a b = true → num_ltb b c = true → num_ltb a c = true.
Proof.
  destruct a, b, c; simpl; try done. rewrite !Z.ltb_lt. lia.
Qed.

Lemma num_geb_ltb (a b : number) : num_geb a b = false → num_ltb a b = true.
Proof.
  destruct a, b; simpl; try done. rewrite Z.leb_gt, Z.ltb_lt. lia.
Qed.

Lemma ceilingKept_refl (st : BestPriceDPOptimized.DP) : ceilingKept st st.
Proof. by left. Qed.

Lemma ceilingKept_trans (st st1 st2 : BestPriceDPOptimized.DP) :
  ceilingKept st st1 → ceilingKept st1 st2 → ceilingKept st st2.
Proof.
  intros [[Hc Hs]|Hlt] [[Hc' Hs']|Hlt'].
  - left. by rewrite Hc', Hs'.
  - right. by rewrite <- Hc.
  - right. by rewrite Hc'.
  - right. by eapply num_ltb_trans.
Qed.

Section CeilingFacts.
Variable gas : nat.
Variable ix : Index Z.
Variable ids : list string.

Lemma bb_forOptions_ceiling
    (rec : Z → Z → BestPriceDPOptimized.DP → option (number * BestPriceDPOptimized.DP))
    (mask c : Z) (sorted : list (PriceOption Z)) :
  (∀ m k st v st', rec m k st = Some (v, st') → ceilingKept st st') →
  ∀ best st v st',
    BestPriceDPOptimized.forOptions rec mask c sorted best st = Some (v, st') →
    ceilingKept st st'.
Proof.
  intros Hrec. induction sorted as [|opt sorted IH]; intros best st v st'.
  - intros [= <- <-]. apply ceilingKept_refl.
  - rewrite bb_forOptions_cons.
    destruct (num_geb _ _).
    { intros Hloop. apply IH in Hloop. eapply ceilingKept_trans; [|exact Hloop]. by left. }
    destruct (rec _ _ st) as [[future st1]|] eqn:Erec; [|done].
    apply Hrec in Erec.
    destruct future as [z|]; intros Hloop; apply IH in Hloop;
      by eapply ceilingKept_trans.
Qed.

(** X24 [dp] of [bestPriceDPOptimized.ts]: a call of [dp] leaves the
    ceiling and its shop count as they are, or lowers the ceiling
    strictly.  A complete selection is only reached with a cost below the
    ceiling, so the shop count never improves on equal cost. *)
Theorem branch_and_bound_ceiling_only_moves_down (depth i : nat) (mask c : Z)
    (st : BestPriceDPOptimized.DP) (v : number) (st' : BestPriceDPOptimized.DP) :
  BestPriceDPOptimized.dp gas ix ids depth i mask c st = Some (v, st') →
  ceilingKept st st'.
Proof.
  revert i mask c st v st'.
  induction depth as [|depth IH]; intros i mask c st v st'; [done|].
  cbn [BestPriceDPOptimized.dp].
  destruct (num_geb (Fin c) (BestPriceDPOptimized.bestCost st)) eqn:Egeb.
  { intros [= <- <-]. by left. }
  apply num_geb_ltb in Egeb.
  destruct (decide (i = length ids)) as [->|Hne].
  { destruct (popcount gas mask); [|done].
    destruct (_ || _); intros [= <- <-]; [by right|by left]. }
  destruct (BestPriceDPOptimized.memo st !! _) as [value|] eqn:Ememo.
  { intros [= <- <-]. by left. }
  cbv zeta.
  destruct (ids !! i ≫= (itemToShops ix !!.)) as [[|first rest]|].
  - intros [= <- <-]. by left.
  - destruct (num_geb _ _).
    { intros [= <- <-]. by left. }
    destruct (BestPriceDPOptimized.forOptions _ _ _ _ _ _) as [[best st1]|] eqn:Eloop;
      [|done].
    apply (bb_forOptions_ceiling _ _ _ _ (IH (S i))) in Eloop.
    intros [= <- <-]. eapply ceilingKept_trans; [|eapply ceilingKept_trans; [exact Eloop|]];
      by left.
  - intros [= <- <-]. by left.
Qed.
End CeilingFacts.

Lemma branch_and_bound_ceiling_only_moves_down_witness :
  ∃ v st,
    BestPriceDPOptimized.dp 32 (indexOf twoShops) ["A"; "B"] 3 0 0 0
      (BestPriceDPOptimized.mkDP ∅ (Fin 30) (Fin 1) 0 0 0) = Some (v, st)
    ∧ BestPriceDPOptimized.bestCost st = Fin 15
    ∧ BestPriceDPOptimized.bestShopCount st = Fin 2
    ∧ ceilingKept (BestPriceDPOptimized.mkDP ∅ (Fin 30) (Fin 1) 0 0 0) st.
Proof.
  destruct (BestPriceDPOptimized.dp 32 (indexOf twoShops) ["A"; "B"] 3 0 0 0
              (BestPriceDPOptimized.mkDP ∅ (Fin 30) (Fin 1) 0 0 0))
    as [[v st]|] eqn:E; [|by vm_compute in E].
  exists v, st.
  split; [done|].
  split; [vm_compute in E; by injection E as _ <-|].
  split; [vm_compute in E; by injection E as _ <-|].
  apply (branch_and_bound_ceiling_only_moves_down 32 (indexOf twoShops) ["A"; "B"]
           3 0 0 0 _ v st E).
Defined.
